(** * Pagez: the pages language front end and its decorator resolver

    A shallow embedding of [src/index.ts] (the three-buffer variant with the
    [Pages] class: [tokenize], [Pages.add], [Pages.build], [parseError],
    [buildError], [resolveValue]) and the properties of its parser and of
    its decorator/macro resolution.  The embedding also covers [Pages.use],
    [Pages.getPage] and the parser [parse] of the second version of the
    module that the file holds, which shares the tokenizer, the errors and
    the loops of [build] with the first.

    Conventions of the embedding.
    - A JavaScript string is a [string] of code units; the model covers the
      code units below 256.  The character class [\s] restricted to that
      range is tab, line feed, vertical tab, form feed, carriage return,
      space and no-break space.
    - Sources in examples are written with an apostrophe where the pages
      language has a double quote; [src] turns each apostrophe into a
      double quote.
    - A JavaScript object has an identity.  A decorator object is a [Dec.t]
      whose field [oid] is that identity (its allocation number): two list
      entries are the same object exactly when their [oid] agree.
    - An object used as a map ([props], the decorator and macro registries)
      is a [gmap string _] of its own properties.  A lookup in a registry
      also finds the members that every object inherits from
      [Object.prototype]: [registry_get] (no library is taken to have an
      own member named [__proto__], which [Object.assign] would make the
      prototype of the registry).
    - The implementations of decorators and macros come from outside.  They
      are functions of the page and the decorator: a decorator
      implementation gives the new [props] of the page, a macro
      implementation the stubs of its expansion, which are new objects.
    - [throw] is the [Throw] outcome of the [result] type; the [TypeError]
      that JavaScript raises on a property read of [undefined] is written
      out wherever the source indexes an array. *)

From Stdlib Require Import String Ascii List ZArith Bool Lia.
From stdpp Require Import base option list gmap strings.
Import ListNotations.

Local Open Scope string_scope.
Local Open Scope list_scope.

(** ** Strings *)

Module JS.

(** The double quote character. *)
Definition dq : ascii := Ascii.ascii_of_nat 34.
(** The line feed character. *)
Definition lf : ascii := Ascii.ascii_of_nat 10.

Definition chr (c : ascii) : string := String c EmptyString.

(** [s.startsWith(c)] and [s.endsWith(c)] for a one-character [c]. *)
Definition startsWith (s : string) (c : ascii) : bool :=
match s with
| String a _ => Ascii.eqb a c
| EmptyString => false
end.

Fixpoint endsWith (s : string) (c : ascii) : bool :=
match s with
| EmptyString => false
| String a EmptyString => Ascii.eqb a c
| String _ r => endsWith r c
end.

(** [s.slice(1,-1)]: the string without its first and last code unit
  (empty when it has fewer than two). *)
Definition slice_1_m1 (s : string) : string :=
String.substring 1 (String.length s - 2) s.

(** [if (s)]: a string is truthy when it is not empty. *)
Definition nonempty (s : string) : bool :=
match s with
| EmptyString => false
| String _ _ => true
end.

Definition len (s : string) : Z := Z.of_nat (String.length s).

(** [/\s/.test(c)] on code units below 256. *)
Definition is_space (c : ascii) : bool :=
let n := Ascii.nat_of_ascii c in
(((9 <=? n) && (n <=? 13)) || (n =? 32) || (n =? 160))%nat.

(** [/[!=\-!@%{}<>]/.test(c)] *)
Definition is_op (c : ascii) : bool :=
existsb (Ascii.eqb c) ["!"; "="; "-"; "@"; "%"; "{"; "}"; "<"; ">"]%char.

(** One code unit of the class [[a-z0-9_\-]] under the [i] flag. *)
Definition is_ident_char (c : ascii) : bool :=
let n := Ascii.nat_of_ascii c in
(((97 <=? n) && (n <=? 122)) || ((65 <=? n) && (n <=? 90))
 || ((48 <=? n) && (n <=? 57)) || (n =? 95) || (n =? 45))%nat.

Fixpoint all_chars (p : ascii -> bool) (s : string) : bool :=
match s with
| EmptyString => true
| String a r => p a && all_chars p r
end.

(** [/^#?[a-z0-9_\-]+$/i.test(s)] *)
Definition is_identifier (s : string) : bool :=
let body := match s with
            | String "#"%char r => r
            | _ => s
            end in
nonempty body && all_chars is_ident_char body.

(** [s.split(/\n/g)]: the lines of [s] (always at least one). *)
Fixpoint split_lines (s : string) : list string :=
match s with
| EmptyString => [EmptyString]
| String a r =>
    if Ascii.eqb a lf then EmptyString :: split_lines r
    else match split_lines r with
         | l :: ls => String a l :: ls
         | [] => [chr a]
         end
end.

(** [s.replace(/^\s+/g,'')] *)
Fixpoint trim_start (s : string) : string :=
match s with
| String a r => if is_space a then trim_start r else s
| EmptyString => EmptyString
end.

(** [s.replace(/\s+$/g,'')] *)
Fixpoint trim_end (s : string) : string :=
match s with
| EmptyString => EmptyString
| String a r =>
    match trim_end r with
    | EmptyString => if is_space a then EmptyString else chr a
    | r' => String a r'
    end
end.

(** [s.replace(/\r\n/g,'\n')] *)
Fixpoint crlf_to_lf (s : string) : string :=
match s with
| String a (String b r as t) =>
    if (Ascii.nat_of_ascii a =? 13)%nat && Ascii.eqb b lf
    then String lf (crlf_to_lf r)
    else String a (crlf_to_lf t)
| _ => s
end.

(** A value of type [any] as the engine meets it: [true], a string taken
  from a literal, or an object or function installed by an implementation
  (kept as an opaque handle). *)
Inductive value :=
| VBool (b : bool)
| VStr (s : string)
| VObj (handle : nat).

(** Truthiness of an optional property read, [if (o.k)]. *)
Definition truthy (v : option value) : bool :=
match v with
| None => false
| Some (VBool b) => b
| Some (VStr s) => nonempty s
| Some (VObj _) => true
end.

End JS.

Abbreviation Props := (gmap string JS.value).

(** Turns each apostrophe of [s] into a double quote. *)
Fixpoint src (s : string) : string :=
  match s with
  | EmptyString => EmptyString
  | String a r => String (if Ascii.eqb a "'"%char then JS.dq else a) (src r)
  end.

(** ** Data model *)

Module Source.
Record t := mk { name : string; body : string }.
(** [new Source(name, body)] *)
Definition new (name body : string) : t := mk name (JS.crlf_to_lf body).
End Source.

Module Loc.
Record t := mk { src : Source.t; col : Z; row : Z; len : Z }.
End Loc.

Module Token.
(** [eof] tells an instance of the subclass [EOF]. *)
Record t := mk { val : string; loc : Loc.t; eof : bool }.

(** [new Token(col,row,val,src)] *)
Definition new (col row : Z) (val : string) (s : Source.t) : t :=
  mk val (Loc.mk s col row (JS.len val)) false.

(** [new EOF(col,row,src)] *)
Definition new_EOF (col row : Z) (s : Source.t) : t :=
  mk " " (Loc.mk s col row (JS.len " ")) true.

Definition isNamespace (t : t) : bool :=
  JS.startsWith (val t) "("%char && JS.endsWith (val t) ")"%char.
Definition isPage (t : t) : bool :=
  JS.startsWith (val t) "["%char && JS.endsWith (val t) "]"%char.
Definition isIdentifier (t : t) : bool := JS.is_identifier (val t).
Definition isString (t : t) : bool :=
  JS.startsWith (val t) JS.dq && JS.endsWith (val t) JS.dq.
End Token.

Module Dec.
Record t := mk {
  oid : nat;
  loc : Loc.t;
  name : string;
  props : Props;
  args : list JS.value
}.

Definition set_props (f : Props -> Props) (d : t) : t :=
  mk (oid d) (loc d) (name d) (f (props d)) (args d).
Definition push_arg (v : JS.value) (d : t) : t :=
  mk (oid d) (loc d) (name d) (props d) (args d ++ [v]).

(** [dec.props.__not], [dec.props.__mac] read as conditions. *)
Definition is_not (d : t) : bool := JS.truthy (props d !! "__not").
Definition is_mac (d : t) : bool := JS.truthy (props d !! "__mac").
End Dec.

Module Page.
Record t := mk {
  loc : Loc.t;
  name : string;
  path : option string;
  props : Props;
  decorators : list Dec.t
}.

Definition set_path (p : string) (g : t) : t :=
  mk (loc g) (name g) (Some p) (props g) (decorators g).
Definition set_props (ps : Props) (g : t) : t :=
  mk (loc g) (name g) (path g) ps (decorators g).
Definition set_decorators (ds : list Dec.t) (g : t) : t :=
  mk (loc g) (name g) (path g) (props g) ds.
End Page.

Module Namespace.
Record t := mk {
  loc : Loc.t;
  name : string;
  props : Props;
  pages : list Page.t
}.

Definition set_props (ps : Props) (n : t) : t :=
  mk (loc n) (name n) ps (pages n).
Definition set_pages (pg : list Page.t) (n : t) : t :=
  mk (loc n) (name n) (props n) pg.
End Namespace.

(** ** Errors *)

(** The parts that [parseError] and [buildError] interpolate into their
    message: the message, the location, the trimmed source line, the
    number of blanks before the caret span and the hint. *)
Record Diag := mkDiag {
  d_message : string;
  d_loc : Loc.t;
  d_line : string;
  d_caret : Z;
  d_hint : string
}.

(** What ends a call.  The first four are the errors that the code
    throws.  [Untyped] is no error of JavaScript: it ends a run of the
    embedding at a point from which the code goes on with values that its
    types, and those of the embedding, do not hold (the characters of a
    string in a list of decorators, see [expand]). *)
Inductive Error :=
| SyntaxError (d : Diag)
| EvalError (d : Diag)
| RangeError
| TypeError
| Untyped.

Inductive result (A : Type) :=
| Ok (a : A)
| Throw (e : Error).
Arguments Ok {A} a.
Arguments Throw {A} e.

#[global] Instance result_ret : MRet result := fun A a => Ok a.
#[global] Instance result_bind : MBind result := fun A B k r =>
  match r with
  | Ok a => k a
  | Throw e => Throw e
  end.

(** [a[k]] followed by a property read: a [TypeError] out of range. *)
Definition at_index {A} (l : list A) (k : nat) : result A :=
  match l !! k with
  | Some a => Ok a
  | None => Throw TypeError
  end.

(** The body shared by [parseError] and [buildError]: the line of the
    location, trimmed, and the caret offset; [' '.repeat(col)] raises a
    [RangeError] when [col] is negative. *)
Definition diagnostic (mk : Diag -> Error) (loc : Loc.t) (message hint : string)
  : Error :=
  let lines := JS.split_lines (Source.body (Loc.src loc)) in
  if (Loc.row loc <? 0)%Z then TypeError else
  match lines !! Z.to_nat (Loc.row loc) with
  | None => TypeError
  | Some trueline =>
      let line := JS.trim_end (JS.trim_start trueline) in
      let col := (Loc.col loc - JS.len trueline + JS.len line)%Z in
      if (col <? 0)%Z then RangeError
      else if (Loc.len loc <? 0)%Z then RangeError
      else mk (mkDiag message loc line col hint)
  end.

(** [parseError(loc, message, hint)] and [buildError(loc, message, hint)]:
    the value that the caller throws, or the error raised while building
    it.  An omitted [hint] is the empty string. *)
Definition parseError := diagnostic SyntaxError.
Definition buildError := diagnostic EvalError.

(** ** Tokenizer *)

Module Tokenizer.

Record st := mk {
  tokens : list Token.t;
  t : string;
  col : Z;
  row : Z
}.

Definition pushtk (s : Source.t) (tk : string) (x : st) : st :=
  mk (tokens x ++ [Token.new (col x - Z.max 0 (JS.len tk - 1)) (row x) tk s])
     (t x) (col x) (row x).

Definition pushtoken (s : Source.t) (tt : string) (x : st) : st :=
  let x' := if JS.nonempty (t x) then pushtk s (t x ++ tt) x else x in
  mk (tokens x') EmptyString (col x') (row x').

Definition append (c : ascii) (x : st) : st :=
  mk (tokens x) (t x ++ JS.chr c) (col x) (row x).

Definition add_col (d : Z) (x : st) : st :=
  mk (tokens x) (t x) (col x + d) (row x).

(** The closing character of the block that [t] has opened, if any. *)
Definition closer (t : string) : option ascii :=
  if JS.startsWith t JS.dq then Some JS.dq
  else if JS.startsWith t "["%char then Some "]"%char
  else if JS.startsWith t "("%char then Some ")"%char
  else None.

(** The body of the loop over the characters of the source. *)
Definition step (s : Source.t) (x : st) (c : ascii) : st :=
  let x1 :=
    match closer (t x) with
    | Some close =>
        if Ascii.eqb c close then pushtoken s (JS.chr c) x else append c x
    | None =>
        if JS.is_op c then pushtk s (JS.chr c) (pushtoken s EmptyString x)
        else if JS.is_space c
        then add_col 1 (pushtoken s EmptyString (add_col (-1) x))
        else append c x
    end in
  if Ascii.eqb c JS.lf
  then mk (tokens x1) (t x1) 0 (row x1 + 1)
  else add_col 1 x1.

Definition init : st := mk [] EmptyString 0 0.

Definition scan (s : Source.t) (body : string) (x : st) : st :=
  fold_left (step s) (list_ascii_of_string body) x.

End Tokenizer.

Definition tokenize (source : Source.t) : list Token.t :=
  let x := Tokenizer.pushtoken source EmptyString
             (Tokenizer.scan source (Source.body source) Tokenizer.init) in
  Tokenizer.tokens x ++ [Token.new_EOF (Tokenizer.col x) (Tokenizer.row x) source].

(** ** Parser: [Pages.add] *)

Module ParseState.
Inductive t := Top | Namespace | Page.
End ParseState.

(** [o[k] = v] on a map object, for the strings and booleans the parser
    stores: the key [__proto__] reaches the setter of [Object.prototype],
    which ignores such a value and creates no property. *)
Definition assign (k : string) (v : JS.value) (o : Props) : Props :=
  if String.eqb k "__proto__" then o else <[k := v]> o.

Definition resolveValue (token : Token.t) : result JS.value :=
  if Token.eof token
  then Throw (parseError (Token.loc token) "Expected an expression" EmptyString)
  else if Token.isString token
  then Ok (JS.VStr (JS.slice_1_m1 (Token.val token)))
  else if Token.isIdentifier token
  then Throw (parseError (Token.loc token) "Variables are not supported yet" EmptyString)
  else Throw (parseError (Token.loc token) "Invalid value" EmptyString).

(** The state of one call of [add]: the loop index, the local variables
    and [this.namespaces].  The variable [namespace] refers to an element
    of [this.namespaces] and [page] to a page of one of them; a reference is
    the position of the object.  [next_oid] numbers the decorator objects
    created so far. *)
Record PState := mkP {
  i : nat;
  state : ParseState.t;
  namespace : option nat;
  page : option (nat * nat);
  decs : list Dec.t;
  groupDecs : list Dec.t;
  globDecs : list Dec.t;
  namespaces : list Namespace.t;
  next_oid : nat
}.

Inductive flow :=
| Continue (s : PState)
| Break (s : PState).

Section Parser.
Variable tokens : list Token.t.
(** The optional argument [props] of [add]. *)
Variable props : option Props.

(** The loop [while (tokens[++i].val != '>')] of a parameter list.
    [rest] holds the tokens after index [i]; the result is the index of
    the closing [>] and the decorator with its parameters. *)
Fixpoint params (rest : list Token.t) (i : nat) (dec : Dec.t)
  : result (nat * Dec.t) :=
  match rest with
  | [] => Throw TypeError
  | tk :: rest1 =>
      if String.eqb (Token.val tk) ">" then Ok (S i, dec)
      else if Token.isIdentifier tk then
        match rest1 with
        | [] => Throw TypeError
        | eq :: rest2 =>
            if negb (String.eqb (Token.val eq) "=")
            then Throw (parseError (Token.loc eq) "Expected `=`" EmptyString)
            else match rest2 with
                 | [] => Throw TypeError
                 | v :: rest3 =>
                     value ← resolveValue v;
                     params rest3 (i + 3)
                       (Dec.set_props (assign (Token.val tk) value) dec)
                 end
        end
      else
        value ← resolveValue tk;
        params rest1 (S i) (Dec.push_arg value dec)
  end.

(** A [%] declaration, from the token after the first [%]. *)
Definition declaration (token : Token.t) (s : PState) : result flow :=
  let i := S (i s) in
  t ← at_index tokens i;
  let glb := String.eqb (Token.val t) "%" in
  let i := if glb then S i else i in
  t ← at_index tokens i;
  let not := String.eqb (Token.val t) "-" in
  let i := if not then S i else i in
  t ← at_index tokens i;
  let mac := String.eqb (Token.val t) "!" in
  let i := if mac then S i else i in
  t ← at_index tokens i;
  if negb (Token.isIdentifier t)
  then Throw (parseError (Token.loc t) "Expected an identifier" EmptyString)
  else
    let dec := Dec.mk (next_oid s) (Token.loc token) (Token.val t) ∅ [] in
    let dec := if not then Dec.set_props (assign "__not" (JS.VBool true)) dec else dec in
    let dec := if mac then Dec.set_props (assign "__mac" (JS.VBool true)) dec else dec in
    let dec := if glb then Dec.set_props (assign "__glb" (JS.VBool true)) dec else dec in
    nx ← at_index tokens (S i);
    '(i, dec) ←
      (if String.eqb (Token.val nx) "<" then
         if not
         then Throw (parseError (Token.loc nx)
                       "Can't add parameters to cancelled decorator" EmptyString)
         else params (drop (i + 2) tokens) (S i) dec
       else Ok (i, dec));
    Ok (Continue
          (mkP i (state s) (namespace s) (page s)
             (if glb then decs s else decs s ++ [dec])
             (groupDecs s)
             (if glb then globDecs s ++ [dec] else globDecs s)
             (namespaces s) (S (next_oid s)))).

Definition step_Top (token : Token.t) (s : PState) : result flow :=
  if Token.isNamespace token then
    let name := JS.slice_1_m1 (Token.val token) in
    if negb (JS.nonempty name)
    then Throw (parseError (Token.loc token) "Missing namespace name" EmptyString)
    else
      nx ← at_index tokens (S (i s));
      if negb (String.eqb (Token.val nx) "{")
      then Throw (parseError (Token.loc nx) "Expected `{`" EmptyString)
      else
        let ns := Namespace.mk (Token.loc token) name (default ∅ props) [] in
        Ok (Continue
              (mkP (S (i s)) ParseState.Namespace
                 (Some (length (namespaces s))) (page s)
                 (decs s) (groupDecs s) (globDecs s)
                 (namespaces s ++ [ns]) (next_oid s)))
  else if Token.eof token then Ok (Break s)
  else Throw (parseError (Token.loc token) "Expected a namespace declaration"
                (if Token.isIdentifier token
                 then "Maybe you meant `(" ++ Token.val token ++ ")`?"
                 else EmptyString)).

Definition step_Namespace (token : Token.t) (s : PState) : result flow :=
  match namespace s with
  | None => Throw (parseError (Token.loc token) "<INVALID STATE>" EmptyString)
  | Some n =>
      if String.eqb (Token.val token) "}" then
        match groupDecs s with
        | _ :: _ =>
            Ok (Continue
                  (mkP (i s) (state s) (namespace s) (page s) (decs s) []
                     (globDecs s) (namespaces s) (next_oid s)))
        | [] =>
            Ok (Continue
                  (mkP (i s) ParseState.Top None (page s) (decs s)
                     (groupDecs s) (globDecs s) (namespaces s) (next_oid s)))
        end
      else if Token.isIdentifier token then
        nx ← at_index tokens (S (i s));
        if negb (String.eqb (Token.val nx) "=")
        then Throw (parseError (Token.loc nx) "Expected `=`" EmptyString)
        else
          v ← at_index tokens (i s + 2);
          value ← resolveValue v;
          Ok (Continue
                (mkP (i s + 2) (state s) (namespace s) (page s) (decs s)
                   (groupDecs s) (globDecs s)
                   (alter (fun ns => Namespace.set_props
                                       (assign (Token.val token) value (Namespace.props ns)) ns)
                      n (namespaces s))
                   (next_oid s)))
      else if Token.isPage token then
        let name := JS.slice_1_m1 (Token.val token) in
        nx ← at_index tokens (S (i s));
        if negb (String.eqb (Token.val nx) "{")
        then Throw (parseError (Token.loc nx) "Expected `{`" EmptyString)
        else
          let pg := Page.mk (Token.loc token) name None ∅
                      (globDecs s ++ groupDecs s ++ decs s) in
          ns ← at_index (namespaces s) n;
          Ok (Continue
                (mkP (S (i s)) ParseState.Page (namespace s)
                   (Some (n, length (Namespace.pages ns)))
                   [] (groupDecs s) (globDecs s)
                   (alter (fun ns => Namespace.set_pages (Namespace.pages ns ++ [pg]) ns)
                      n (namespaces s))
                   (next_oid s)))
      else if String.eqb (Token.val token) "%" then declaration token s
      else if String.eqb (Token.val token) "{" then
        match decs s with
        | [] => Throw (parseError (Token.loc token)
                         "Expected decorators before group" EmptyString)
        | _ :: _ =>
            Ok (Continue
                  (mkP (i s) (state s) (namespace s) (page s) [] (decs s)
                     (globDecs s) (namespaces s) (next_oid s)))
        end
      else if Token.isNamespace token
      then Throw (parseError (Token.loc token) "Unexpected namespace declaration" EmptyString)
      else if Token.eof token
      then Throw (parseError (Token.loc token) "Unexpected EOF" EmptyString)
      else Throw (parseError (Token.loc token) "Unexpected token" EmptyString)
  end.

(** [page.f = ...] through the reference [page]. *)
Definition update_page (r : nat * nat) (f : Page.t -> Page.t)
  (nss : list Namespace.t) : list Namespace.t :=
  alter (fun ns => Namespace.set_pages (alter f (snd r) (Namespace.pages ns)) ns)
    (fst r) nss.

Definition step_Page (token : Token.t) (s : PState) : result flow :=
  match page s with
  | None => Throw (parseError (Token.loc token) "<INVALID STATE>" EmptyString)
  | Some r =>
      if String.eqb (Token.val token) "}" then
        Ok (Continue
              (mkP (i s) ParseState.Namespace (namespace s) None (decs s)
                 (groupDecs s) (globDecs s) (namespaces s) (next_oid s)))
      else if Token.isIdentifier token then
        nx ← at_index tokens (S (i s));
        if negb (String.eqb (Token.val nx) "=")
        then Throw (parseError (Token.loc nx) "Expected `=`" EmptyString)
        else
          v ← at_index tokens (i s + 2);
          value ← resolveValue v;
          Ok (Continue
                (mkP (i s + 2) (state s) (namespace s) (page s) (decs s)
                   (groupDecs s) (globDecs s)
                   (update_page r
                      (fun pg => Page.set_props
                                   (assign (Token.val token) value (Page.props pg)) pg)
                      (namespaces s))
                   (next_oid s)))
      else if String.eqb (Token.val token) "@" then
        t ← at_index tokens (S (i s));
        if negb (Token.isString t)
        then Throw (parseError (Token.loc t) "Expected a string for page path" EmptyString)
        else
          Ok (Continue
                (mkP (S (i s)) (state s) (namespace s) (page s) (decs s)
                   (groupDecs s) (globDecs s)
                   (update_page r (Page.set_path (JS.slice_1_m1 (Token.val t)))
                      (namespaces s))
                   (next_oid s)))
      else if Token.isNamespace token
      then Throw (parseError (Token.loc token) "Unexpected namespace declaration" EmptyString)
      else if Token.isPage token
      then Throw (parseError (Token.loc token) "Unexpected page declaration" EmptyString)
      else Throw (parseError (Token.loc token) "Unexpected token" EmptyString)
  end.

(** The body of the loop over the tokens, at [tokens[i]]. *)
Definition step (s : PState) : result flow :=
  token ← at_index tokens (i s);
  match state s with
  | ParseState.Top => step_Top token s
  | ParseState.Namespace => step_Namespace token s
  | ParseState.Page => step_Page token s
  end.

(** The [i++] of the loop. *)
Definition incr (s : PState) : PState :=
  mkP (S (i s)) (state s) (namespace s) (page s) (decs s) (groupDecs s)
    (globDecs s) (namespaces s) (next_oid s).

(** How a call of [add] ends: it returns, or it throws; either way
    [this.namespaces] keeps what the call has stored in it. *)
Inductive outcome :=
| Returned (s : PState)
| Thrown (e : Error) (s : PState).

(** The loop [for (let i = 0; i < tokens.length; i++)]; [None] when
    [fuel] iterations do not finish it. *)
Fixpoint loop (fuel : nat) (s : PState) : option outcome :=
  if (length tokens <=? i s)%nat then Some (Returned s) else
  match fuel with
  | O => None
  | S fuel =>
      match step s with
      | Throw e => Some (Thrown e s)
      | Ok (Break s') => Some (Returned s')
      | Ok (Continue s') => loop fuel (incr s')
      end
  end.

End Parser.

(** ** The [Pages] object *)

(** What a macro implementation returns for one decorator: an object
    literal with a name, arguments, properties and a location. *)
Record Stub := mkStub {
  stub_loc : Loc.t;
  stub_name : string;
  stub_props : Props;
  stub_args : list JS.value
}.

(** The implementations are supplied from outside.  A decorator
    implementation receives the page and the decorator and writes to
    [page.props]: it is the function from both to the new [props].  A macro
    implementation returns the stubs of its expansion, which [build]
    receives as new objects. *)
Abbreviation DecImpl := (Page.t -> Dec.t -> Props).
Abbreviation MacImpl := (Page.t -> Dec.t -> list Stub).

Module Pages.
Record t := mk {
  namespaces : list Namespace.t;
  decorators : gmap string DecImpl;
  macros : gmap string MacImpl;
  (** number of decorator objects allocated so far *)
  next_oid : nat
}.

(** [new Pages()] *)
Definition new : t := mk [] ∅ ∅ 0.
End Pages.

Definition init_state (this : Pages.t) : PState :=
  mkP 0 ParseState.Top None None [] [] [] (Pages.namespaces this) (Pages.next_oid this).

Definition commit (this : Pages.t) (s : PState) : Pages.t :=
  Pages.mk (namespaces s) (Pages.decorators this) (Pages.macros this) (next_oid s).

(** [this.add(source, props)]: the [Pages] object after the call and the
    error thrown, if any.  [None] only if the loop over the tokens were not
    to finish within one iteration per token. *)
Definition add (this : Pages.t) (source : Source.t) (props : option Props)
  : option (Pages.t * option Error) :=
  let tokens := tokenize source in
  match loop tokens props (length tokens) (init_state this) with
  | None => None
  | Some (Returned s) => Some (commit this s, None)
  | Some (Thrown e s) => Some (commit this s, Some e)
  end.

(** [this.addText(text, name, props)] *)
Definition addText (this : Pages.t) (text : string) (name : option string)
  (props : option Props) :=
  add this
    (Source.new
       (match name with
        | Some name => if JS.nonempty name then name else "(input)"
        | None => "(input)"
        end) text) props.

(** [this.use(lib)] with both members of [lib] present or absent:
    [Object.assign] lets the library's entries override.  (The libraries
    have no own member named [__proto__].) *)
Definition use (this : Pages.t) (decorators : option (gmap string DecImpl))
  (macros : option (gmap string MacImpl)) : Pages.t :=
  Pages.mk (Pages.namespaces this)
    (default ∅ decorators ∪ Pages.decorators this)
    (default ∅ macros ∪ Pages.macros this)
    (Pages.next_oid this).

(** ** Resolver: [Pages.build] *)

(** [l.indexOf(d)] for a decorator object [d]: the first position holding
    that object, [-1] when there is none. *)
Fixpoint indexOf (l : list Dec.t) (d : Dec.t) : Z :=
  match l with
  | [] => (-1)%Z
  | x :: r =>
      if (Dec.oid x =? Dec.oid d)%nat then 0%Z
      else let k := indexOf r d in
           if (k <? 0)%Z then (-1)%Z else (k + 1)%Z
  end.

(** [l.splice(start, deleteCount, ...items)]: a negative [start] counts
    from the end, and both numbers are clamped to the list. *)
Definition splice {A} (start : Z) (deleteCount : nat) (items l : list A) : list A :=
  let len := Z.of_nat (length l) in
  let st := Z.to_nat (if (start <? 0)%Z then Z.max (len + start) 0 else Z.min start len) in
  let dc := Nat.min deleteCount (length l - st) in
  take st l ++ items ++ drop (st + dc) l.

(** The stubs of an expansion as new objects, numbered from [next]. *)
Definition alloc (next : nat) (stubs : list Stub) : list Dec.t :=
  imap (fun k st => Dec.mk (next + k) (stub_loc st) (stub_name st)
                      (stub_props st) (stub_args st)) stubs.

(** [dec.props.__not = true] *)
Definition negate (d : Dec.t) : Dec.t :=
  Dec.set_props (assign "__not" (JS.VBool true)) d.

(** The inner loop of the cancellation,
    [for (let j = page.decorators.length-1; j >= i; j--)];
    [n] is [j+1]. *)
Fixpoint cancel_inner (n i : nat) (name : string) (l : list Dec.t)
  : result (list Dec.t) :=
  match n with
  | O => Ok l
  | S j =>
      if (j <? i)%nat then Ok l
      else
        d ← at_index l j;
        cancel_inner j i name
          (if String.eqb (Dec.name d) name then splice (Z.of_nat j) 1 [] l else l)
  end.

(** The outer loop, [for (let i = page.decorators.length-1; i >= 0; i--)];
    [n] is [i+1]. *)
Fixpoint cancel_outer (n : nat) (l : list Dec.t) : result (list Dec.t) :=
  match n with
  | O => Ok l
  | S i =>
      dec ← at_index l i;
      if negb (Dec.is_not dec) then cancel_outer i l
      else
        l' ← cancel_inner (length l) i (Dec.name dec) l;
        cancel_outer i l'
  end.

Definition cancel (l : list Dec.t) : result (list Dec.t) :=
  cancel_outer (length l) l.

(** *** Lookups in the registries *)

(** The registries are plain objects ([this.decorators = {}]), so that
    [registry[name]] finds the own member of that name and, when there is
    none, the member that the object inherits from [Object.prototype].
    All of these are truthy, and [build] calls what it finds as
    [impl(page, dec)], without a receiver:
    - [constructor] is [Object], which returns its first argument, the
      page, and changes nothing;
    - [toString] returns the string [[object Undefined]] and changes
      nothing;
    - [toLocaleString], [valueOf], [hasOwnProperty], [isPrototypeOf],
      [propertyIsEnumerable], [__defineGetter__], [__defineSetter__],
      [__lookupGetter__] and [__lookupSetter__] throw a [TypeError] for
      want of a receiver, and [__proto__] is the prototype itself, an
      object that is no function: the call throws a [TypeError]. *)
Inductive Inherited := inh_constructor | inh_toString | inh_throwing.

Definition inherited (name : string) : option Inherited :=
  if String.eqb name "constructor" then Some inh_constructor
  else if String.eqb name "toString" then Some inh_toString
  else if existsb (String.eqb name)
            ["toLocaleString"; "valueOf"; "hasOwnProperty"; "isPrototypeOf";
             "propertyIsEnumerable"; "__defineGetter__"; "__defineSetter__";
             "__lookupGetter__"; "__lookupSetter__"; "__proto__"]
  then Some inh_throwing
  else None.

Inductive Found (A : Type) :=
| Own (impl : A)
| Proto (m : Inherited)
| Missing.
Arguments Own {A} impl.
Arguments Proto {A} m.
Arguments Missing {A}.

(** [registry[name]]; [Missing] is [undefined]. *)
Definition registry_get {A} (registry : gmap string A) (name : string) : Found A :=
  match registry !! name with
  | Some impl => Own impl
  | None =>
      match inherited name with
      | Some m => Proto m
      | None => Missing
      end
  end.

(** What ends the expansion of [macro] when [this.macros[macro.name]] is
    an inherited member.  [Object(page, macro)] is the page, which is not
    iterable: the loop over [decs] or the spread [...decs] throws a
    [TypeError].  The string of [toString] is iterable: for a negated
    macro the assignment [dec.props.__not = true] throws a [TypeError] at
    its first character, since a character has no [props]; for a macro
    that is not negated the code splices the characters of the string
    into [page.decorators] and goes on, which is where the embedding
    stops ([Untyped]).  From there the code touches this page only and
    ends with a throw: the characters stay in the list, and the
    cancellation, if it is reached, throws a [TypeError] when it reads
    [dec.props.__not] of a character. *)
Definition inherited_expansion (m : Inherited) (macro : Dec.t) : Error :=
  match m with
  | inh_toString => if Dec.is_not macro then TypeError else Untyped
  | _ => TypeError
  end.

Section Build.
Variable decorators : gmap string DecImpl.
Variable macros : gmap string MacImpl.

(** The loop over [page.decorators.filter(dec=>dec.props.__mac)];
    [snapshot] is what is left of the filtered array.  The result is the
    page as the loop leaves it, the allocation counter and the error
    thrown, if any. *)
Fixpoint expand (snapshot : list Dec.t) (page : Page.t) (next : nat)
  : Page.t * nat * option Error :=
  match snapshot with
  | [] => (page, next, None)
  | macro :: rest =>
      match registry_get macros (Dec.name macro) with
      | Missing =>
          (page, next,
           Some (buildError (Dec.loc macro)
                   ("Unknown macro `" ++ Dec.name macro ++ "`") EmptyString))
      | Proto m => (page, next, Some (inherited_expansion m macro))
      | Own impl =>
          let decs := alloc next (impl page macro) in
          let decs := if Dec.is_not macro then map negate decs else decs in
          expand rest
            (Page.set_decorators
               (splice (indexOf (Page.decorators page) macro) 1 decs
                  (Page.decorators page)) page)
            (next + length decs)
      end
  end.

(** The loop [for (const dec of page.decorators)] that calls the
    implementations; [ds] is what is left to visit. *)
Fixpoint invoke (ds : list Dec.t) (page : Page.t) : Page.t * option Error :=
  match ds with
  | [] => (page, None)
  | dec :: rest =>
      match registry_get decorators (Dec.name dec) with
      | Missing =>
          (page,
           Some (buildError (Dec.loc dec)
                   ("Unknown decorator `" ++ Dec.name dec ++ "`") EmptyString))
      | Proto inh_throwing => (page, Some TypeError)
      | Proto _ => invoke rest page
      | Own impl => invoke rest (Page.set_props (impl page dec) page)
      end
  end.

(** The body of the loop over the pages. *)
Definition resolve (page : Page.t) (next : nat) : Page.t * nat * option Error :=
  match expand (filter (fun d => Is_true (Dec.is_mac d)) (Page.decorators page))
          page next with
  | (page, next, Some e) => (page, next, Some e)
  | (page, next, None) =>
      match cancel (Page.decorators page) with
      | Throw e => (page, next, Some e)
      | Ok ds =>
          let page := Page.set_decorators ds page in
          match invoke (Page.decorators page) page with
          | (page, Some e) => (page, next, Some e)
          | (page, None) => (Page.set_decorators [] page, next, None)
          end
      end
  end.

(** [for (const page of namespace.pages)], stopping at a throw. *)
Fixpoint build_pages (pages : list Page.t) (next : nat)
  : list Page.t * nat * option Error :=
  match pages with
  | [] => ([], next, None)
  | page :: rest =>
      match resolve page next with
      | (page', next', Some e) => (page' :: rest, next', Some e)
      | (page', next', None) =>
          let '(rest', next'', e) := build_pages rest next' in
          (page' :: rest', next'', e)
      end
  end.

(** [for (const namespace of this.namespaces)], stopping at a throw. *)
Fixpoint build_namespaces (nss : list Namespace.t) (next : nat)
  : list Namespace.t * nat * option Error :=
  match nss with
  | [] => ([], next, None)
  | ns :: rest =>
      match build_pages (Namespace.pages ns) next with
      | (pages', next', Some e) =>
          (Namespace.set_pages pages' ns :: rest, next', Some e)
      | (pages', next', None) =>
          let '(rest', next'', e) := build_namespaces rest next' in
          (Namespace.set_pages pages' ns :: rest', next'', e)
      end
  end.

End Build.

(** [this.build(params)] for [params] without [outputPath]: the resolution
    of every page.  (With an [outputPath] the method goes on to read and
    write files, which is outside the engine.)  The result is the [Pages]
    object after the call and the error thrown, if any. *)
Definition build (this : Pages.t) : Pages.t * option Error :=
  let '(nss, next, e) :=
    build_namespaces (Pages.decorators this) (Pages.macros this)
      (Pages.namespaces this) (Pages.next_oid this) in
  (Pages.mk nss (Pages.decorators this) (Pages.macros this) next, e).

(** ** The passes of the resolver as the specification words them *)

(** One visit of the cancellation at index [i]: when the entry there is
    flagged negated, it and every entry with its name at an index greater
    than or equal to [i] are removed; the entries before [i] stay. *)
Definition strike (i : nat) (l : list Dec.t) : list Dec.t :=
  match l !! i with
  | Some d =>
      if Dec.is_not d
      then take i l ++ filter (fun e => Dec.name e ≠ Dec.name d) (drop i l)
      else l
  | None => l
  end.

(** The visits from index [n-1] down to index [0]. *)
Fixpoint scan_down (n : nat) (l : list Dec.t) : list Dec.t :=
  match n with
  | O => l
  | S i => scan_down i (strike i l)
  end.

Definition cancel_spec (l : list Dec.t) : list Dec.t :=
  scan_down (length l) l.

(** [struck seen d]: among the entries [seen], one is flagged negated and
    has the name of [d]. *)
Definition struck (seen : list Dec.t) (d : Dec.t) : bool :=
  existsb (fun e => Dec.is_not e && String.eqb (Dec.name e) (Dec.name d)) seen.

(** The entries that outlive the cancellation, by position: the entry at
    index [k] goes exactly when an entry at an index up to [k] (itself
    included) is flagged negated and has its name.  [seen] holds the
    entries before the ones of [l]. *)
Fixpoint survivors_from (seen l : list Dec.t) : list Dec.t :=
  match l with
  | [] => []
  | d :: r =>
      if struck (seen ++ [d]) d
      then survivors_from (seen ++ [d]) r
      else d :: survivors_from (seen ++ [d]) r
  end.

Definition survivors (l : list Dec.t) : list Dec.t := survivors_from [] l.

(** What one visit makes of the entry [d] and of the scanned part [r]
    that follows it. *)
Definition visit (d : Dec.t) (r : list Dec.t) : list Dec.t :=
  if Dec.is_not d then filter (fun e => Dec.name e ≠ Dec.name d) r else d :: r.

(** The entries that take the place of the macro [d]: its stubs in their
    order, as new objects numbered from [next], each with the name, the
    arguments and the properties of its stub and, when the macro is
    flagged negated, with the property [__not] set to [true]. *)
Definition replacement (d : Dec.t) (next : nat) (stubs : list Stub) : list Dec.t :=
  imap (fun k st =>
          Dec.mk (next + k) (stub_loc st) (stub_name st)
            (if Dec.is_not d then <["__not" := JS.VBool true]> (stub_props st)
             else stub_props st)
            (stub_args st)) stubs.

(** The macro expansion as one pass, from left to right, over the
    decorator list as it is before the pass.  [done] is the part of the
    page's list already produced and [todo] the part of the original list
    still to look at: an entry flagged as a macro is expanded once, its
    stubs (flagged negated when the macro is) take its place in [done], and
    nothing in [done] is looked at again.  The implementation sees the
    page as it is at that moment. *)
Fixpoint expand_spec (macros : gmap string MacImpl)
  (done todo : list Dec.t) (page : Page.t) (next : nat)
  : Page.t * nat * option Error :=
  match todo with
  | [] => (Page.set_decorators done page, next, None)
  | d :: rest =>
      if Dec.is_mac d then
        match registry_get macros (Dec.name d) with
        | Missing =>
            (Page.set_decorators (done ++ d :: rest) page, next,
             Some (buildError (Dec.loc d)
                     ("Unknown macro `" ++ Dec.name d ++ "`") EmptyString))
        | Proto m =>
            (Page.set_decorators (done ++ d :: rest) page, next,
             Some (inherited_expansion m d))
        | Own impl =>
            let stubs := impl (Page.set_decorators (done ++ d :: rest) page) d in
            expand_spec macros (done ++ replacement d next stubs) rest page
              (next + length stubs)
        end
      else expand_spec macros (done ++ [d]) rest page next
  end.

(** The objects of [l] are pairwise distinct and were allocated before
    [next]. *)
Definition distinct_below (next : nat) (l : list Dec.t) : Prop :=
  NoDup (map Dec.oid l) /\ Forall (fun d => Dec.oid d < next) l.

(** ** Runs of the parser *)

(** [steps tokens props s s']: the loop of [add], at the head of an
    iteration in state [s], arrives at the head of an iteration in state
    [s'] (after no iteration or after some that go on). *)
Inductive steps (tokens : list Token.t) (props : option Props)
  : PState -> PState -> Prop :=
| steps_refl s : steps tokens props s s
| steps_next s s1 s2 :
    i s < length tokens ->
    step tokens props s = Ok (Continue s1) ->
    steps tokens props (incr s1) s2 ->
    steps tokens props s s2.

(** The page that the reference [r] points to. *)
Definition page_at (nss : list Namespace.t) (r : nat * nat) : option Page.t :=
  ns ← nss !! r.1; Namespace.pages ns !! r.2.

(** The decorator object [d] is an entry of the list [l]. *)
Definition holds (l : list Dec.t) (d : Dec.t) : Prop :=
  Dec.oid d ∈ map Dec.oid l.

(** The page opened by the iteration that leads from [s] to [s']: the
    iteration starts in a namespace body and ends in a page body. *)
Definition opens_page (tokens : list Token.t) (props : option Props)
  (s s' : PState) : Prop :=
  state s = ParseState.Namespace /\
  step tokens props s = Ok (Continue s') /\
  state s' = ParseState.Page.

(** The decorator lists of a document, by namespace and page. *)
Definition shape (nss : list Namespace.t) : list (list (list Dec.t)) :=
  map (fun ns => map Page.decorators (Namespace.pages ns)) nss.

(** The decorator lists of all the pages of a document. *)
Definition lists_of (nss : list Namespace.t) : list (list Dec.t) :=
  concat (shape nss).

(** The objects in the three buffers and in the pages of a parser state:
    the buffers hold pairwise distinct objects, every page holds pairwise
    distinct objects, the local buffer holds no object of a page, and all
    of them were allocated before [next_oid]. *)
Record buffers_ok (s : PState) : Prop := {
  buffers_distinct :
    distinct_below (next_oid s) (globDecs s ++ groupDecs s ++ decs s);
  pages_distinct :
    Forall (distinct_below (next_oid s)) (lists_of (namespaces s));
  local_unattached :
    Forall (fun l => Forall (fun d => ~ holds l d) (decs s))
      (lists_of (namespaces s))
}.

(** Every page of the document holds pairwise distinct decorator objects,
    allocated before [next_oid]. *)
Definition pages_ok (this : Pages.t) : Prop :=
  Forall (distinct_below (Pages.next_oid this)) (lists_of (Pages.namespaces this)).

(** What an iteration that goes on does to the buffers, to the decorator
    lists of the document and to the allocation counter.  [act_quiet]
    covers the iterations that touch none of them: opening a namespace
    (which adds one without pages), assigning a property, setting a path,
    closing a page. *)
Inductive action (s s' : PState) : Prop :=
| act_quiet :
    decs s' = decs s -> groupDecs s' = groupDecs s ->
    globDecs s' = globDecs s -> next_oid s' = next_oid s ->
    (shape (namespaces s') = shape (namespaces s)
     \/ shape (namespaces s') = shape (namespaces s) ++ [[]]) ->
    ~ (state s = ParseState.Namespace /\ state s' = ParseState.Page) ->
    action s s'
| act_close :
    state s = ParseState.Namespace ->
    decs s' = decs s -> groupDecs s' = [] ->
    globDecs s' = globDecs s -> next_oid s' = next_oid s ->
    namespaces s' = namespaces s ->
    state s' <> ParseState.Page ->
    action s s'
| act_page n ns pg :
    state s = ParseState.Namespace -> state s' = ParseState.Page ->
    namespace s = Some n -> namespaces s !! n = Some ns ->
    Page.decorators pg = globDecs s ++ groupDecs s ++ decs s ->
    namespaces s'
    = <[n := Namespace.set_pages (Namespace.pages ns ++ [pg]) ns]> (namespaces s) ->
    page s' = Some (n, length (Namespace.pages ns)) ->
    decs s' = [] -> groupDecs s' = groupDecs s ->
    globDecs s' = globDecs s -> next_oid s' = next_oid s ->
    action s s'
| act_declare dec :
    state s = ParseState.Namespace -> state s' = ParseState.Namespace ->
    Dec.oid dec = next_oid s -> next_oid s' = S (next_oid s) ->
    groupDecs s' = groupDecs s -> namespaces s' = namespaces s ->
    (decs s' = decs s ++ [dec] /\ globDecs s' = globDecs s
     \/ decs s' = decs s /\ globDecs s' = globDecs s ++ [dec]) ->
    action s s'
| act_group :
    state s = ParseState.Namespace -> state s' = ParseState.Namespace ->
    decs s' = [] -> groupDecs s' = decs s ->
    globDecs s' = globDecs s -> next_oid s' = next_oid s ->
    namespaces s' = namespaces s ->
    action s s'.

(** The decorator list of the page that the reference [r] points to. *)
Definition list_at (nss : list Namespace.t) (r : nat * nat) : option (list Dec.t) :=
  l ← shape nss !! r.1; l !! r.2.

(** The state at the head of the iteration that follows [k] iterations
    from [s], when these all go on. *)
Fixpoint iterate (tokens : list Token.t) (props : option Props)
  (k : nat) (s : PState) : option PState :=
  match k with
  | O => Some s
  | S k =>
      match step tokens props s with
      | Ok (Continue s') => iterate tokens props k (incr s')
      | _ => None
      end
  end.

(** The object [d] is out of the buffers and is held by no page other than
    the one at [r0]. *)
Definition settled (d : Dec.t) (r0 : nat * nat) (s : PState) : Prop :=
  ~ holds (globDecs s ++ groupDecs s ++ decs s) d
  /\ Dec.oid d < next_oid s
  /\ (forall r l, list_at (namespaces s) r = Some l -> holds l d -> r = r0).

(** ** Sample inputs *)

(** [parse text] is [new Pages().addText(text)], with apostrophes for the
    double quotes of [text]. *)
Definition parse (text : string) : option (Pages.t * option Error) :=
  addText Pages.new (src text) None None.

Definition tokens_of (text : string) : list Token.t :=
  tokenize (Source.new "(input)" (src text)).

(** The state at the head of iteration number [k] of [parse text] (the
    initial state if the loop does not get that far). *)
Definition state_after (text : string) (k : nat) : PState :=
  default (init_state Pages.new)
    (iterate (tokens_of text) None k (init_state Pages.new)).

(** A namespace with a global, a group and a local decorator pending
    when its page is opened. *)
Definition buffers_text : string := "(n){%%g %a {%b [p]{}}}".
Definition buffers_tokens : list Token.t :=
  Eval vm_compute in tokens_of buffers_text.
(** The state at the head of the iteration that opens the page [p]. *)
Definition buffers_state : PState :=
  Eval vm_compute in state_after buffers_text 5.

(** The result of the iteration at [s] when it goes on ([s] itself
    otherwise). *)
Definition after_step (tokens : list Token.t) (s : PState) : PState :=
  match step tokens None s with
  | Ok (Continue s') => s'
  | _ => s
  end.

(** A global decorator declared between two pages. *)
Definition global_text : string := "(n){[p]{} %%a [q]{}}".
Definition global_tokens : list Token.t :=
  Eval vm_compute in tokens_of global_text.
(** The states at the head of the declaration [%%a], at its end, and at
    the end of the iteration that opens the page [q]. *)
Definition global_s0 : PState :=
  Eval vm_compute in state_after global_text 3.
Definition global_s1 : PState :=
  Eval vm_compute in after_step global_tokens global_s0.
Definition global_s3 : PState :=
  Eval vm_compute in after_step global_tokens (incr global_s1).
(** The decorator object that [%%a] creates. *)
Definition global_a : Dec.t :=
  Eval vm_compute in
    Dec.mk 0 (Loc.mk (Source.new "(input)" (src global_text)) 10 0 1) "a"
      (<["__glb" := JS.VBool true]> ∅) [].

(** A namespace that is closed with a global and a local decorator
    pending, followed by a second namespace. *)
Definition leak_text : string := "(a){%%g %l} (b){[p]{} [q]{}}".
Definition leak_tokens : list Token.t :=
  Eval vm_compute in tokens_of leak_text.
(** The state at the head of the iteration that closes the namespace [a]. *)
Definition leak_state : PState :=
  Eval vm_compute in state_after leak_text 3.

(** Two pages after a global and a local decorator. *)
Definition shared_text : string := "(n){%%g %l [p]{} [q]{}}".
Definition shared_tokens : list Token.t :=
  Eval vm_compute in tokens_of shared_text.
(** The states at the head of the iteration that opens the page [p], at
    its end, and at the head of the iteration after the one that opens the
    page [q]. *)
Definition shared_s : PState :=
  Eval vm_compute in state_after shared_text 3.
Definition shared_s3 : PState :=
  Eval vm_compute in after_step shared_tokens shared_s.
Definition shared_s4 : PState :=
  Eval vm_compute in state_after shared_text 6.
(** The decorator object that [%l] creates. *)
Definition shared_l : Dec.t :=
  Eval vm_compute in
    Dec.mk 1 (Loc.mk (Source.new "(input)" (src shared_text)) 8 0 1) "l" ∅ [].

(** A macro implementation in the manner of the built-in [auto]: two
    stubs at the location of the macro; the second one has the name under
    which the macro itself is registered. *)
Definition auto_macro : MacImpl :=
  fun _ dec => [mkStub (Dec.loc dec) "kind" ∅ []; mkStub (Dec.loc dec) "auto" ∅ []].
Definition macro_registry : gmap string MacImpl := {["auto" := auto_macro]}.

(** The first page of the first namespace of [parse text]. *)
Definition first_page (text : string) : option Page.t :=
  r ← parse text; page_at (Pages.namespaces r.1) (0, 0).

(** The page of [(n){%%!auto %-!auto %x [p]{}}]: a macro, the same macro
    negated, and a decorator. *)
Definition macro_text : string := "(n){%%!auto %-!auto %x [p]{}}".
Definition macro_page : Page.t :=
  Eval vm_compute in
    default (Page.mk (Loc.mk (Source.mk EmptyString EmptyString) 0 0 0)
               EmptyString None ∅ [])
      (first_page macro_text).

(** ** Predicates on the state of the tokenizer *)

(** What the tokenizer has scanned holds something: a token is out or one
    is pending. *)
Definition has_content (x : Tokenizer.st) : Prop :=
  Tokenizer.tokens x <> [] \/ Tokenizer.t x <> EmptyString.

(** No token that the scan has put out is the end marker. *)
Definition no_marker (x : Tokenizer.st) : Prop :=
  Forall (fun t => Token.eof t = false) (Tokenizer.tokens x).

(** A page with a decorator that no registry knows, declared on a line
    that ends with a blank, and the same without the blank. *)
Definition nl : string := JS.chr JS.lf.
Definition unknown_blank_text : string :=
  "(n){" ++ nl ++ "%foo " ++ nl ++ "[p]{} [q]{}}".
Definition unknown_text : string :=
  "(n){" ++ nl ++ "%foo" ++ nl ++ "[p]{} [q]{}}".

(** A page with a decorator that has a user parameter named [__not],
    followed by a decorator of the same name. *)
Definition not_text : string := "(n){%a<__not='x'> %a %b [p]{}}".
Definition not_page : Page.t :=
  Eval vm_compute in
    default (Page.mk (Loc.mk (Source.mk EmptyString EmptyString) 0 0 0)
               EmptyString None ∅ [])
      (first_page not_text).
(** An implementation that leaves a mark in [props], registered for both
    decorators of the page. *)
Definition mark_impl : DecImpl :=
  fun page dec => <[Dec.name dec := JS.VBool true]> (Page.props page).
Definition mark_registry : gmap string DecImpl :=
  {["a" := mark_impl; "b" := mark_impl]}.




(** ** Notions for the properties of the tokenizer and of the errors *)

(** The number of line feeds of [s]. *)
Fixpoint count_lf (s : string) : nat :=
  match s with
  | EmptyString => 0
  | String a r => (if Ascii.eqb a JS.lf then 1 else 0) + count_lf r
  end.

(** The characters of [l] that are no blanks. *)
Definition squeeze (l : list ascii) : list ascii :=
  List.filter (fun c => negb (JS.is_space c)) l.

(** The characters of the values of the tokens [toks], one token after
    the other. *)
Definition token_chars (toks : list Token.t) : list ascii :=
  flat_map (fun t => list_ascii_of_string (Token.val t)) toks.

(** An error that is a located syntax error or a [RangeError]. *)
Definition syntax_or_range (e : Error) : Prop :=
  e = RangeError \/ exists d, e = SyntaxError d.

(** A token made by [new Token] for the source [s], with a value that is
    not empty, on a row between [lo] and [hi]. *)
Definition scanned (s : Source.t) (lo hi : Z) (t : Token.t) : Prop :=
  exists col row tk,
    t = Token.new col row tk s /\ tk <> EmptyString /\ (lo <= row <= hi)%Z.

(** ** Notions for the properties of the parser *)

(** The last of the tokens [toks] has the value of the end marker. *)
Definition well_ended (toks : list Token.t) : Prop :=
  exists pre e, toks = pre ++ [e] /\ Token.val e = " ".

(** [parseError] at the location of [t] gives a syntax error or a
    [RangeError]. *)
Definition locatable (t : Token.t) : Prop :=
  forall message hint, syntax_or_range (parseError (Token.loc t) message hint).

(** The references of a parser state, for a call of [add] on a document
    that holds the namespaces [old]: these are still the first namespaces
    of the document, the variables [namespace] and [page] refer to
    namespaces behind them, and the namespaces behind them have a name. *)
Record refs_ok (old : list Namespace.t) (s : PState) : Prop := {
  old_kept : take (length old) (namespaces s) = old;
  namespace_new :
    forall n, namespace s = Some n -> length old <= n < length (namespaces s);
  page_new : forall r, page s = Some r -> length old <= r.1;
  new_named :
    Forall (fun ns => Namespace.name ns <> EmptyString)
      (drop (length old) (namespaces s))
}.

(** ** Notions for the properties of the resolver *)

(** What [build] leaves alone in a page: its location, name and path. *)
Definition page_frame (pg : Page.t) : Loc.t * string * option string :=
  (Page.loc pg, Page.name pg, Page.path pg).

(** What [build] leaves alone in a document: the namespaces with their
    locations, names and properties, and the frames of their pages. *)
Definition frame (nss : list Namespace.t)
  : list (Loc.t * string * Props * list (Loc.t * string * option string)) :=
  map (fun ns => (Namespace.loc ns, Namespace.name ns, Namespace.props ns,
                  map page_frame (Namespace.pages ns))) nss.

(** The decorator list of every page of the document is empty. *)
Definition cleared (nss : list Namespace.t) : Prop :=
  Forall (fun l => l = []) (lists_of nss).

(** [thrown_for decorators macros d e]: [e] is what ends [build] at the
    decorator [d].  Either [d] is flagged as a macro and the macro registry
    has no own member of its name: [e] is the error ["Unknown macro"] at
    the location of [d] when it has no inherited member either, and what
    the inherited member leads to otherwise.  Or the decorator registry
    has no own member of the name of [d]: [e] is the error
    ["Unknown decorator"] at the location of [d], or the [TypeError] of an
    inherited member that throws. *)
Definition thrown_for (decorators : gmap string DecImpl)
  (macros : gmap string MacImpl) (d : Dec.t) (e : Error) : Prop :=
  (Dec.is_mac d = true
   /\ match registry_get macros (Dec.name d) with
      | Missing =>
          e = buildError (Dec.loc d) ("Unknown macro `" ++ Dec.name d ++ "`")
                EmptyString
      | Proto m => e = inherited_expansion m d
      | Own _ => False
      end)
  \/ match registry_get decorators (Dec.name d) with
     | Missing =>
         e = buildError (Dec.loc d) ("Unknown decorator `" ++ Dec.name d ++ "`")
               EmptyString
     | Proto inh_throwing => e = TypeError
     | _ => False
     end.

(** A document of two pages that [build] resolves with [mark_registry]
    in use: the decorators [a] and [b] are pending for the first page. *)
Definition marked_text : string := "(n){%a %b [p]{} [q]{}}".
Definition marked_parsed : Pages.t :=
  Eval vm_compute in default Pages.new (fst <$> parse marked_text).
Definition marked_sample : Pages.t := use marked_parsed (Some mark_registry) None.

(** A document of three pages, the second with a decorator [zz] that
    [mark_registry] does not hold. *)
Definition stop_text : string := "(n){%a [p]{} %zz [q]{} %b [r]{}}".
Definition stop_parsed : Pages.t :=
  Eval vm_compute in default Pages.new (fst <$> parse stop_text).
Definition stop_sample : Pages.t := use stop_parsed (Some mark_registry) None.

(** The head of an iteration of the parser: the index is one of a token,
    and outside of every namespace the token before it, if there is one,
    is a closing brace. *)
Definition head_ok (tokens : list Token.t) (s : PState) : Prop :=
  i s < length tokens
  /\ (state s = ParseState.Top ->
      i s = 0 \/ exists t, tokens !! (i s - 1) = Some t /\ Token.val t = "}").

(** The tokens at which an iteration of the parser stops: a brace, the
    [>] of a parameter list, a string or an identifier. *)
Definition landed (t : Token.t) : Prop :=
  Token.val t = "{" \/ Token.val t = "}" \/ Token.val t = ">"
  \/ Token.isString t = true \/ Token.isIdentifier t = true.

(** ** Retrieval: [Pages.getPage] *)

(** [s.slice(0,-1)] *)
Fixpoint drop_last (s : string) : string :=
  match s with
  | EmptyString => EmptyString
  | String a EmptyString => EmptyString
  | String a r => String a (drop_last r)
  end.

(** [s.replace(/(^\/)|(\/$)/g,'')]: a slash at the start goes, and so
    does a slash at the end of what follows it. *)
Definition strip_slashes (s : string) : string :=
  let s1 := match s with
            | String a r => if Ascii.eqb a "/" then r else s
            | EmptyString => s
            end in
  if JS.endsWith s1 "/" then drop_last s1 else s1.

(** [page.name == path && page.path] *)
Definition page_found (path : string) (page : Page.t) : bool :=
  String.eqb (Page.name page) path
  && match Page.path page with
     | Some p => JS.nonempty p
     | None => false
     end.

(** The two loops of [getPage], up to the first page that is found. *)
Fixpoint find_page (path : string) (pages : list Page.t) : option Page.t :=
  match pages with
  | [] => None
  | page :: rest => if page_found path page then Some page else find_page path rest
  end.

Fixpoint find_in (path : string) (nss : list Namespace.t) : option Page.t :=
  match nss with
  | [] => None
  | ns :: rest =>
      match find_page path (Namespace.pages ns) with
      | Some page => Some page
      | None => find_in path rest
      end
  end.

(** [this.getPage(path)]; [readFileSync p] is [fs.readFileSync(p,'utf-8')],
    which gives the text of the file or throws.  [None] is [null]. *)
Definition getPage (readFileSync : string -> result string)
  (this : Pages.t) (path : string) : result (option (string * Page.t)) :=
  let path := strip_slashes path in
  match find_in path (Pages.namespaces this) with
  | Some page =>
      body ← readFileSync (default EmptyString (Page.path page));
      Ok (Some (body, page))
  | None => Ok None
  end.

(** All the pages of a document, in its order. *)
Definition all_pages (nss : list Namespace.t) : list Page.t :=
  concat (map Namespace.pages nss).

(** The document of [(n){[p]{@"x"}}]: one page, with a path. *)
Definition plain_parsed : Pages.t :=
  Eval vm_compute in default Pages.new (fst <$> parse "(n){[p]{@'x'}}").

(** ** The second version of the module: [parse]

    The source file holds a second version of the module, in which the
    parser is the function [parse(source)], which returns a new [Pages]
    object, and the registries are arguments of [build].  Its classes
    [Source], [Token] and [EOF], and its functions [tokenize],
    [parseError], [buildError], [resolveValue] and [getPage] have the text
    of the first version, and the loops of its [build] are those of
    [build_namespaces], with the registries of the argument.  Its parser
    differs: it has no group buffer but a flag [decState], and a page
    takes the local decorators before the global ones. *)

Module Second.

Module DecState.
Inductive t := Pending | Group.
End DecState.

(** The local variables of [parse]; [next_oid] numbers the decorator
    objects created so far. *)
Record PState := mkP {
  i : nat;
  state : ParseState.t;
  namespace : option nat;
  page : option (nat * nat);
  decs : list Dec.t;
  globDecs : list Dec.t;
  decState : DecState.t;
  namespaces : list Namespace.t;
  next_oid : nat
}.

Inductive flow :=
| Continue (s : PState)
| Break (s : PState).

Section Parser.
Variable tokens : list Token.t.

(** A [%] declaration, from the token after the first [%]. *)
Definition declaration (token : Token.t) (s : PState) : result flow :=
  match decState s with
  | DecState.Group =>
      Throw (parseError (Token.loc token)
               "Decorators are not allowed within a group" EmptyString)
  | DecState.Pending =>
      let i := S (i s) in
      t ← at_index tokens i;
      let glb := String.eqb (Token.val t) "%" in
      let i := if glb then S i else i in
      t ← at_index tokens i;
      let not := String.eqb (Token.val t) "-" in
      let i := if not then S i else i in
      t ← at_index tokens i;
      let mac := String.eqb (Token.val t) "!" in
      let i := if mac then S i else i in
      t ← at_index tokens i;
      if negb (Token.isIdentifier t)
      then Throw (parseError (Token.loc t) "Expected an identifier" EmptyString)
      else
        let dec := Dec.mk (next_oid s) (Token.loc token) (Token.val t) ∅ [] in
        let dec := if not then Dec.set_props (assign "__not" (JS.VBool true)) dec else dec in
        let dec := if mac then Dec.set_props (assign "__mac" (JS.VBool true)) dec else dec in
        let dec := if glb then Dec.set_props (assign "__glb" (JS.VBool true)) dec else dec in
        nx ← at_index tokens (S i);
        '(i, dec) ←
          (if String.eqb (Token.val nx) "<" then
             if not
             then Throw (parseError (Token.loc nx)
                           "Can't add parameters to cancelled decorator" EmptyString)
             else params (drop (i + 2) tokens) (S i) dec
           else Ok (i, dec));
        Ok (Continue
              (mkP i (state s) (namespace s) (page s)
                 (if glb then decs s else decs s ++ [dec])
                 (if glb then globDecs s ++ [dec] else globDecs s)
                 (decState s) (namespaces s) (S (next_oid s))))
  end.

Definition step_Top (token : Token.t) (s : PState) : result flow :=
  if Token.isNamespace token then
    let name := JS.slice_1_m1 (Token.val token) in
    if negb (JS.nonempty name)
    then Throw (parseError (Token.loc token) "Missing namespace name" EmptyString)
    else
      nx ← at_index tokens (S (i s));
      if negb (String.eqb (Token.val nx) "{")
      then Throw (parseError (Token.loc nx) "Expected `{`" EmptyString)
      else
        let ns := Namespace.mk (Token.loc token) name ∅ [] in
        Ok (Continue
              (mkP (S (i s)) ParseState.Namespace
                 (Some (length (namespaces s))) (page s)
                 (decs s) (globDecs s) (decState s)
                 (namespaces s ++ [ns]) (next_oid s)))
  else if Token.eof token then Ok (Break s)
  else Throw (parseError (Token.loc token) "Expected a namespace declaration"
                (if Token.isIdentifier token
                 then "Maybe you meant `(" ++ Token.val token ++ ")`?"
                 else EmptyString)).

Definition step_Namespace (token : Token.t) (s : PState) : result flow :=
  match namespace s with
  | None => Throw (parseError (Token.loc token) "<INVALID STATE>" EmptyString)
  | Some n =>
      if String.eqb (Token.val token) "}" then
        match decState s with
        | DecState.Group =>
            Ok (Continue
                  (mkP (i s) (state s) (namespace s) (page s) []
                     (globDecs s) DecState.Pending (namespaces s) (next_oid s)))
        | DecState.Pending =>
            Ok (Continue
                  (mkP (i s) ParseState.Top None (page s) (decs s)
                     (globDecs s) (decState s) (namespaces s) (next_oid s)))
        end
      else if Token.isIdentifier token then
        nx ← at_index tokens (S (i s));
        if negb (String.eqb (Token.val nx) "=")
        then Throw (parseError (Token.loc nx) "Expected `=`" EmptyString)
        else
          v ← at_index tokens (i s + 2);
          value ← resolveValue v;
          Ok (Continue
                (mkP (i s + 2) (state s) (namespace s) (page s) (decs s)
                   (globDecs s) (decState s)
                   (alter (fun ns => Namespace.set_props
                                       (assign (Token.val token) value (Namespace.props ns)) ns)
                      n (namespaces s))
                   (next_oid s)))
      else if Token.isPage token then
        let name := JS.slice_1_m1 (Token.val token) in
        nx ← at_index tokens (S (i s));
        if negb (String.eqb (Token.val nx) "{")
        then Throw (parseError (Token.loc nx) "Expected `{`" EmptyString)
        else
          let pg := Page.mk (Token.loc token) name None ∅ (decs s ++ globDecs s) in
          ns ← at_index (namespaces s) n;
          Ok (Continue
                (mkP (S (i s)) ParseState.Page (namespace s)
                   (Some (n, length (Namespace.pages ns)))
                   (match decState s with
                    | DecState.Pending => []
                    | DecState.Group => decs s
                    end)
                   (globDecs s) (decState s)
                   (alter (fun ns => Namespace.set_pages (Namespace.pages ns ++ [pg]) ns)
                      n (namespaces s))
                   (next_oid s)))
      else if String.eqb (Token.val token) "%" then declaration token s
      else if String.eqb (Token.val token) "{"
              && match decs s with [] => false | _ :: _ => true end then
        Ok (Continue
              (mkP (i s) (state s) (namespace s) (page s) (decs s)
                 (globDecs s) DecState.Group (namespaces s) (next_oid s)))
      else if Token.isNamespace token
      then Throw (parseError (Token.loc token) "Unexpected namespace declaration" EmptyString)
      else if Token.eof token
      then Throw (parseError (Token.loc token) "Unexpected EOF" EmptyString)
      else Throw (parseError (Token.loc token) "Unexpected token" EmptyString)
  end.

Definition step_Page (token : Token.t) (s : PState) : result flow :=
  match page s with
  | None => Throw (parseError (Token.loc token) "<INVALID STATE>" EmptyString)
  | Some r =>
      if String.eqb (Token.val token) "}" then
        Ok (Continue
              (mkP (i s) ParseState.Namespace (namespace s) None (decs s)
                 (globDecs s) (decState s) (namespaces s) (next_oid s)))
      else if Token.isIdentifier token then
        nx ← at_index tokens (S (i s));
        if negb (String.eqb (Token.val nx) "=")
        then Throw (parseError (Token.loc nx) "Expected `=`" EmptyString)
        else
          v ← at_index tokens (i s + 2);
          value ← resolveValue v;
          Ok (Continue
                (mkP (i s + 2) (state s) (namespace s) (page s) (decs s)
                   (globDecs s) (decState s)
                   (update_page r
                      (fun pg => Page.set_props
                                   (assign (Token.val token) value (Page.props pg)) pg)
                      (namespaces s))
                   (next_oid s)))
      else if String.eqb (Token.val token) "@" then
        t ← at_index tokens (S (i s));
        if negb (Token.isString t)
        then Throw (parseError (Token.loc t) "Expected a string for page path" EmptyString)
        else
          Ok (Continue
                (mkP (S (i s)) (state s) (namespace s) (page s) (decs s)
                   (globDecs s) (decState s)
                   (update_page r (Page.set_path (JS.slice_1_m1 (Token.val t)))
                      (namespaces s))
                   (next_oid s)))
      else if Token.isNamespace token
      then Throw (parseError (Token.loc token) "Unexpected namespace declaration" EmptyString)
      else if Token.isPage token
      then Throw (parseError (Token.loc token) "Unexpected page declaration" EmptyString)
      else Throw (parseError (Token.loc token) "Unexpected token" EmptyString)
  end.

(** The body of the loop over the tokens, at [tokens[i]]. *)
Definition step (s : PState) : result flow :=
  token ← at_index tokens (i s);
  match state s with
  | ParseState.Top => step_Top token s
  | ParseState.Namespace => step_Namespace token s
  | ParseState.Page => step_Page token s
  end.

(** The [i++] of the loop. *)
Definition incr (s : PState) : PState :=
  mkP (S (i s)) (state s) (namespace s) (page s) (decs s) (globDecs s)
    (decState s) (namespaces s) (next_oid s).

(** The loop [for (let i = 0; i < tokens.length; i++)]; [None] when
    [fuel] iterations do not finish it.  What is thrown leaves nothing
    behind: the namespaces are a local variable. *)
Fixpoint loop (fuel : nat) (s : PState) : option (result PState) :=
  if (length tokens <=? i s)%nat then Some (Ok s) else
  match fuel with
  | O => None
  | S fuel =>
      match step s with
      | Throw e => Some (Throw e)
      | Ok (Break s') => Some (Ok s')
      | Ok (Continue s') => loop fuel (incr s')
      end
  end.

End Parser.

Definition init_state : PState :=
  mkP 0 ParseState.Top None None [] [] DecState.Pending [] 0.

(** [parse(source)]: the namespaces of the [Pages] object that it returns
    (with the number of decorator objects created), or what it throws. *)
Definition parse (source : Source.t) : option (result (list Namespace.t * nat)) :=
  let tokens := tokenize source in
  match loop tokens (length tokens) init_state with
  | None => None
  | Some (Throw e) => Some (Throw e)
  | Some (Ok s) => Some (Ok (namespaces s, next_oid s))
  end.

End Second.

(** The variables that the two parsers share, as a state of the first
    one, whose group buffer is empty. *)
Definition lower (s : Second.PState) : PState :=
  mkP (Second.i s) (Second.state s) (Second.namespace s) (Second.page s)
    (Second.decs s) [] (Second.globDecs s) (Second.namespaces s)
    (Second.next_oid s).

(** No decorator is global and no group is opened: a [%] is not followed
    by a [%], and an opening brace follows a header. *)
Fixpoint plain (tokens : list Token.t) : bool :=
  match tokens with
  | t :: rest =>
      match rest with
      | t' :: _ =>
          negb (String.eqb (Token.val t) "%" && String.eqb (Token.val t') "%")
          && (negb (String.eqb (Token.val t') "{")
              || Token.isNamespace t || Token.isPage t)
          && plain rest
      | [] => true
      end
  | [] => true
  end.

(** The head of an iteration at which the two parsers agree: no group is
    open, no decorator is global, and the token before the index is one
    at which an iteration stops. *)
Definition agree_ok (tokens : list Token.t) (s : Second.PState) : Prop :=
  Second.decState s = Second.DecState.Pending
  /\ Second.globDecs s = []
  /\ match Second.i s with
     | O => Second.state s = ParseState.Top
     | S k => exists t, tokens !! k = Some t /\ landed t
     end.

(** ** Documents that the interface can produce *)

(** The [Pages] objects that calls of [add], [use] and [build] (without
    output) make of a new one.  A call of [add] that throws counts, for
    what it has stored stays, and so does a call of [build] that throws,
    but for the one that the embedding does not follow to its end
    ([Untyped]: the code goes on with the characters of a string in the
    decorator list of a page).  The libraries have no own member named
    [__proto__]. *)
Inductive reachable : Pages.t -> Prop :=
| reach_new : reachable Pages.new
| reach_add this source props this' e :
    reachable this -> add this source props = Some (this', e) ->
    reachable this'
| reach_use this decorators macros :
    reachable this ->
    default ∅ decorators !! "__proto__" = None ->
    default ∅ macros !! "__proto__" = None ->
    reachable (use this decorators macros)
| reach_build this :
    reachable this -> (build this).2 <> Some Untyped ->
    reachable (build this).1.

(** A run of the second parser inside a group, from the head of an
    iteration to the head of a later one: at each of these heads the flag
    [decState] is [Group], and the parser is inside a namespace. *)
Inductive group_run (tokens : list Token.t)
  : Second.PState -> Second.PState -> Prop :=
| group_refl s :
    Second.decState s = Second.DecState.Group ->
    Second.state s <> ParseState.Top ->
    group_run tokens s s
| group_next s s1 s2 :
    Second.decState s = Second.DecState.Group ->
    Second.state s <> ParseState.Top ->
    Second.step tokens s = Ok (Second.Continue s1) ->
    group_run tokens (Second.incr s1) s2 ->
    group_run tokens s s2.

(** The state of the second parser at the head of iteration number [k]
    from [s], when the iterations before it all go on. *)
Fixpoint second_iterate (tokens : list Token.t) (k : nat) (s : Second.PState)
  : option Second.PState :=
  match k with
  | O => Some s
  | S k =>
      match Second.step tokens s with
      | Ok (Second.Continue s') => second_iterate tokens k (Second.incr s')
      | _ => None
      end
  end.

(** A group with two pages: [(n){%a {[p]{} [q]{}}}]. *)
Definition group_text : string := "(n){%a {[p]{} [q]{}}}".
Definition group_tokens : list Token.t := Eval vm_compute in tokens_of group_text.
(** The head of the iteration after the one that opens the group. *)
Definition group_start : Second.PState :=
  Eval vm_compute in
    default Second.init_state (second_iterate group_tokens 3 Second.init_state).
(** The head of the iteration at the brace that closes the group. *)
Definition group_end : Second.PState :=
  Eval vm_compute in
    default Second.init_state (second_iterate group_tokens 7 Second.init_state).

(** ** Parameter lists *)

(** A parameter of a decorator as it is written: a value, or a name, the
    sign [=] and a value. *)
Inductive param_item :=
| Positional (v : Token.t)
| Named (name eq v : Token.t).

Definition item_tokens (p : param_item) : list Token.t :=
  match p with
  | Positional v => [v]
  | Named name eq v => [name; eq; v]
  end.

(** The value of a parameter is a string literal; the name of a named one
    is an identifier, followed by [=]. *)
Definition item_ok (p : param_item) : bool :=
  match p with
  | Positional v => Token.isString v && negb (Token.eof v)
  | Named name eq v =>
      Token.isIdentifier name && String.eqb (Token.val eq) "="
      && Token.isString v && negb (Token.eof v)
  end.

(** What a parameter does to the decorator. *)
Definition apply_item (d : Dec.t) (p : param_item) : Dec.t :=
  match p with
  | Positional v => Dec.push_arg (JS.VStr (JS.slice_1_m1 (Token.val v))) d
  | Named name _ v =>
      Dec.set_props (assign (Token.val name) (JS.VStr (JS.slice_1_m1 (Token.val v)))) d
  end.

(** The document of [(n){[p]{@"x"}}], token by token: the states at the
    head of the iteration that opens the page [p], at its end, after the
    path and after the brace that closes the page, and the state in which
    [add] returns. *)
Definition plain_text : string := "(n){[p]{@'x'}}".
Definition plain_tokens : list Token.t :=
  Eval vm_compute in tokens_of plain_text.
Definition plain_s0 : PState :=
  Eval vm_compute in state_after plain_text 1.
Definition plain_s1 : PState :=
  Eval vm_compute in after_step plain_tokens plain_s0.
Definition plain_s2 : PState :=
  Eval vm_compute in after_step plain_tokens (incr plain_s1).
Definition plain_s3 : PState :=
  Eval vm_compute in after_step plain_tokens (incr plain_s2).
Definition plain_s4 : PState :=
  Eval vm_compute in state_after plain_text 5.

(** A namespace closed with a local decorator pending, followed by a
    namespace without decorators that holds a plain page. *)
Definition pending_text : string := "(a){%l} (n){[p]{@'x'}}".
Definition pending_parsed : Pages.t :=
  Eval vm_compute in default Pages.new (fst <$> parse pending_text).

(** * Properties *)

(** ** The cancellation pass *)

Section Cancellation.

Implicit Types (l pre mid post : list Dec.t) (d : Dec.t).

Lemma splice_delete_middle {A} (pre post : list A) (x : A) :
  splice (Z.of_nat (length pre)) 1 [] (pre ++ x :: post) = pre ++ post.
Proof.
  unfold splice.
  assert (Hlt : (Z.of_nat (length pre) <? 0)%Z = false) by (apply Z.ltb_ge; lia).
  rewrite Hlt, length_app. simpl length.
  rewrite Z.min_l by lia. rewrite Nat2Z.id.
  replace (Nat.min 1 (length pre + S (length post) - length pre)) with 1 by lia.
  rewrite take_app_length. simpl.
  replace (length pre + 1) with (length pre + 1 + 0) by lia.
  rewrite <- (Nat.add_assoc (length pre) 1 0).
  rewrite drop_app_add. reflexivity.
Qed.

Lemma at_index_middle {A} (pre post : list A) (x : A) :
  at_index (pre ++ x :: post) (length pre) = Ok x.
Proof.
  unfold at_index. rewrite lookup_app_r by lia.
  rewrite Nat.sub_diag. reflexivity.
Qed.

(** The inner loop, started above the block [mid], removes from [mid]
    the entries named [name] and nothing else. *)
Lemma cancel_inner_filter name pre mid post :
  cancel_inner (length (pre ++ mid)) (length pre) name (pre ++ mid ++ post)
  = Ok (pre ++ filter (fun e => Dec.name e ≠ name) mid ++ post).
Proof.
  revert post. induction mid as [|x mid IH] using rev_ind; intros post.
  - rewrite app_nil_r. simpl.
    destruct (length pre) as [|k] eqn:E; simpl; [reflexivity|].
    assert (Hk : (k <? S k)%nat = true) by (apply Nat.ltb_lt; lia).
    rewrite Hk. reflexivity.
  - rewrite app_assoc, length_app. simpl length.
    rewrite Nat.add_1_r. simpl.
    assert (Hge : (length (pre ++ mid) <? length pre)%nat = false).
    { apply Nat.ltb_ge. rewrite length_app. lia. }
    rewrite Hge.
    rewrite <- !app_assoc. simpl.
    rewrite (app_assoc pre mid (x :: post)).
    rewrite at_index_middle. simpl.
    rewrite filter_app.
    destruct (String.eqb (Dec.name x) name) eqn:E.
    + apply String.eqb_eq in E.
      rewrite splice_delete_middle, <- app_assoc, IH.
      rewrite filter_cons_False by (intros H; apply H; exact E).
      rewrite filter_nil, app_nil_r. reflexivity.
    + apply String.eqb_neq in E.
      rewrite <- app_assoc. rewrite IH.
      rewrite filter_cons_True by exact E.
      rewrite filter_nil. rewrite <- !app_assoc. reflexivity.
Qed.

(** The outer loop, with the entries [pre] still to visit and the part
    [post] behind them scanned. *)
Lemma cancel_outer_visit pre post :
  cancel_outer (length pre) (pre ++ post) = Ok (foldr visit post pre).
Proof.
  revert post. induction pre as [|d pre IH] using rev_ind; intros post.
  - reflexivity.
  - rewrite length_app. simpl length. rewrite Nat.add_1_r. simpl.
    rewrite <- app_assoc. simpl. rewrite at_index_middle. simpl.
    rewrite foldr_app. simpl. unfold visit at 2.
    destruct (Dec.is_not d) eqn:E; simpl.
    + pose proof (cancel_inner_filter (Dec.name d) pre (d :: post) []) as H.
      rewrite !app_nil_r in H. rewrite H. simpl.
      rewrite filter_cons_False by (intros Hn; apply Hn; reflexivity).
      apply IH.
    + apply IH.
Qed.

Lemma cancel_visit l : cancel l = Ok (foldr visit [] l).
Proof.
  unfold cancel. rewrite <- (app_nil_r l) at 2. apply cancel_outer_visit.
Qed.

Lemma strike_visit pre d post :
  strike (length pre) (pre ++ d :: post) = pre ++ visit d post.
Proof.
  unfold strike. rewrite lookup_app_r by lia.
  rewrite Nat.sub_diag. simpl. unfold visit.
  destruct (Dec.is_not d); [|reflexivity].
  rewrite take_app_length, drop_app_length.
  rewrite filter_cons_False by (intros Hn; apply Hn; reflexivity).
  reflexivity.
Qed.

Lemma scan_down_visit pre post :
  scan_down (length pre) (pre ++ post) = foldr visit post pre.
Proof.
  revert post. induction pre as [|d pre IH] using rev_ind; intros post.
  - reflexivity.
  - rewrite length_app. simpl length. rewrite Nat.add_1_r. simpl.
    rewrite <- app_assoc. simpl. rewrite strike_visit.
    rewrite foldr_app. simpl. apply IH.
Qed.

Lemma struck_app seen1 seen2 d :
  struck (seen1 ++ seen2) d = struck seen1 d || struck seen2 d.
Proof. unfold struck. apply existsb_app. Qed.

Lemma filter_everything {A} (P : A -> Prop) `{!forall x, Decision (P x)}
  (xs : list A) :
  (forall x, P x) -> filter P xs = xs.
Proof.
  intros Hall. induction xs as [|x xs IH]; [reflexivity|].
  rewrite filter_cons_True by apply Hall. now rewrite IH.
Qed.

Lemma survivors_from_cons seen d r :
  survivors_from seen (d :: r)
  = if struck (seen ++ [d]) d
    then survivors_from (seen ++ [d]) r
    else d :: survivors_from (seen ++ [d]) r.
Proof. reflexivity. Qed.

Lemma survivors_from_filter seen l :
  survivors_from seen l
  = filter (fun e => struck seen e = false) (survivors_from [] l).
Proof.
  revert seen. induction l as [|d r IH]; intros seen; [reflexivity|].
  rewrite !survivors_from_cons, app_nil_l, struck_app.
  rewrite (IH (seen ++ [d])), (IH [d]).
  assert (Hff : forall (xs : list Dec.t),
    filter (fun e => struck (seen ++ [d]) e = false) xs
    = filter (fun e => struck seen e = false)
        (filter (fun e => struck [d] e = false) xs)).
  { intros xs. rewrite list_filter_filter. apply list_filter_iff.
    intros e. rewrite struck_app. rewrite orb_false_iff. tauto. }
  destruct (struck [d] d) eqn:Ed.
  - rewrite orb_true_r. apply Hff.
  - rewrite orb_false_r. destruct (struck seen d) eqn:Es.
    + rewrite filter_cons_False by (rewrite Es; discriminate).
      apply Hff.
    + rewrite filter_cons_True by exact Es.
      f_equal. apply Hff.
Qed.

Lemma survivors_visit l : survivors l = foldr visit [] l.
Proof.
  unfold survivors. induction l as [|d r IH]; [reflexivity|].
  rewrite survivors_from_cons, app_nil_l, survivors_from_filter, IH.
  cbn [foldr]. unfold visit at 3.
  assert (Hs : forall e, struck [d] e
               = Dec.is_not d && String.eqb (Dec.name d) (Dec.name e)).
  { intros e. unfold struck. simpl. apply orb_false_r. }
  rewrite Hs, String.eqb_refl, andb_true_r.
  destruct (Dec.is_not d) eqn:E.
  - apply list_filter_iff. intros e. rewrite Hs. simpl.
    rewrite <- String.eqb_neq. rewrite String.eqb_sym. reflexivity.
  - f_equal. apply filter_everything.
    intros e. rewrite Hs. reflexivity.
Qed.

End Cancellation.

(** C1.  The cancellation pass of [build] never fails and is the scan of
    the decorator list from its last index down to its first in which every
    entry flagged negated removes itself and every entry with its name at
    an index greater than or equal to its own, leaving the entries before
    it in the list ([cancel_spec]); what is left are the entries that have
    no negated entry of their name at or before their position
    ([survivors]). *)
Theorem cancel_scans_down_removing_at_or_after (l : list Dec.t) :
  cancel l = Ok (cancel_spec l) /\ cancel_spec l = survivors l.
Proof.
  assert (H : cancel_spec l = foldr visit [] l).
  { unfold cancel_spec. rewrite <- (app_nil_r l) at 2. apply scan_down_visit. }
  split.
  - rewrite H. apply cancel_visit.
  - rewrite H. symmetry. apply survivors_visit.
Qed.

(** A visit leaves the entries before its index as they are. *)
Lemma strike_keeps_before (i : nat) (l : list Dec.t) :
  take i (strike i l) = take i l.
Proof.
  unfold strike. destruct (l !! i) as [d|] eqn:E; [|reflexivity].
  destruct (Dec.is_not d); [|reflexivity].
  apply lookup_lt_Some in E.
  rewrite take_app_le by (rewrite length_take; lia).
  rewrite take_take. f_equal. lia.
Qed.

(** ** Macro expansion *)

Section Expansion.
Variable macros : gmap string MacImpl.

Lemma indexOf_fresh_prefix (pre post : list Dec.t) (d : Dec.t) :
  Forall (fun x => Dec.oid x ≠ Dec.oid d) pre ->
  indexOf (pre ++ d :: post) d = Z.of_nat (length pre).
Proof.
  induction 1 as [|x pre Hx _ IH]; simpl.
  - rewrite Nat.eqb_refl. reflexivity.
  - apply Nat.eqb_neq in Hx. rewrite Hx, IH.
    assert (Hlt : (Z.of_nat (length pre) <? 0)%Z = false) by (apply Z.ltb_ge; lia).
    rewrite Hlt. lia.
Qed.

Lemma splice_replace_middle {A} (pre post items : list A) (x : A) :
  splice (Z.of_nat (length pre)) 1 items (pre ++ x :: post) = pre ++ items ++ post.
Proof.
  unfold splice.
  assert (Hlt : (Z.of_nat (length pre) <? 0)%Z = false) by (apply Z.ltb_ge; lia).
  rewrite Hlt, length_app. simpl length.
  rewrite Z.min_l by lia. rewrite Nat2Z.id.
  replace (Nat.min 1 (length pre + S (length post) - length pre)) with 1 by lia.
  rewrite take_app_length.
  rewrite <- (Nat.add_0_r (length pre + 1)), <- Nat.add_assoc.
  rewrite drop_app_add. reflexivity.
Qed.

Lemma alloc_length next stubs : length (alloc next stubs) = length stubs.
Proof. unfold alloc. apply length_imap. Qed.

Lemma alloc_oid next stubs :
  map Dec.oid (alloc next stubs) = seq next (length stubs).
Proof.
  unfold alloc. revert next.
  induction stubs as [|st stubs IH]; intros next; [reflexivity|].
  simpl. rewrite Nat.add_0_r. f_equal.
  rewrite <- IH. f_equal. apply imap_ext. intros k x _. simpl.
  f_equal. lia.
Qed.

Lemma negate_oid ds : map Dec.oid (map negate ds) = map Dec.oid ds.
Proof. rewrite map_map. reflexivity. Qed.

(** The entries that the code makes of the stubs of a macro, with its loop
    over them when the macro is negated, are the replacement of the
    macro. *)
Lemma replacement_alloc (d : Dec.t) (next : nat) (stubs : list Stub) :
  (if Dec.is_not d then map negate (alloc next stubs) else alloc next stubs)
  = replacement d next stubs.
Proof.
  unfold replacement, alloc. destruct (Dec.is_not d); [|reflexivity].
  change (map negate) with (fmap (M := list) negate). rewrite fmap_imap.
  apply imap_ext. reflexivity.
Qed.

Lemma replacement_length d next stubs :
  length (replacement d next stubs) = length stubs.
Proof. unfold replacement. apply length_imap. Qed.

Lemma replacement_oid d next stubs :
  map Dec.oid (replacement d next stubs) = seq next (length stubs).
Proof.
  rewrite <- replacement_alloc.
  destruct (Dec.is_not d); [rewrite negate_oid|]; apply alloc_oid.
Qed.

(** The loop of [build] over the filtered array does what the single
    pass does, as long as the entries of [done] are other objects than
    the ones still in [todo]. *)
Lemma expand_as_spec (todo : list Dec.t) :
  forall (done : list Dec.t) (page : Page.t) (next : nat),
    distinct_below next todo ->
    Forall (fun x => Forall (fun y => Dec.oid x ≠ Dec.oid y) todo) done ->
    expand macros (filter (fun d => Is_true (Dec.is_mac d)) todo)
      (Page.set_decorators (done ++ todo) page) next
    = expand_spec macros done todo page next.
Proof.
  induction todo as [|d rest IH]; intros done page next [Hnd Hlt] Hdone.
  - simpl. rewrite app_nil_r. reflexivity.
  - simpl in Hnd. apply NoDup_cons in Hnd as [Hd Hnd].
    apply Forall_cons in Hlt as [Hdlt Hlt].
    assert (Hfresh : Forall (fun x => Dec.oid x ≠ Dec.oid d) done).
    { eapply Forall_impl; [exact Hdone|]. intros x Hx.
      apply Forall_cons in Hx as [Hx _]. exact Hx. }
    assert (Hdone' : Forall (fun x => Forall (fun y => Dec.oid x ≠ Dec.oid y) rest) done).
    { eapply Forall_impl; [exact Hdone|]. intros x Hx.
      apply Forall_cons in Hx as [_ Hx]. exact Hx. }
    simpl expand_spec. destruct (Dec.is_mac d) eqn:Em.
    + rewrite filter_cons_True by (rewrite Em; exact I).
      simpl expand.
      destruct (registry_get macros (Dec.name d)) as [impl|m|]; [|reflexivity..].
      rewrite indexOf_fresh_prefix by exact Hfresh.
      rewrite splice_replace_middle.
      rewrite replacement_alloc, replacement_length.
      set (stubs := replacement d next _).
      assert (Hoid : map Dec.oid stubs
                     = seq next (length (impl (Page.set_decorators (done ++ d :: rest) page) d))).
      { apply replacement_oid. }
      rewrite app_assoc.
      change (Page.set_decorators ((done ++ stubs) ++ rest)
                (Page.set_decorators (done ++ d :: rest) page))
        with (Page.set_decorators ((done ++ stubs) ++ rest) page).
      apply IH.
      * split; [exact Hnd|].
        eapply Forall_impl; [exact Hlt|]. simpl. intros; lia.
      * apply Forall_app. split; [exact Hdone'|].
        apply Forall_forall. intros x Hx.
        apply Forall_forall. intros y Hy.
        assert (Hxin : Dec.oid x ∈ map Dec.oid stubs)
          by (apply list_elem_of_fmap; eauto).
        rewrite Hoid in Hxin. apply elem_of_seq in Hxin.
        rewrite Forall_forall in Hlt. specialize (Hlt y Hy). simpl in Hlt. lia.
    + rewrite filter_cons_False by (rewrite Em; exact id).
      replace (done ++ d :: rest) with ((done ++ [d]) ++ rest)
        by (rewrite <- app_assoc; reflexivity).
      apply IH.
      * split; assumption.
      * apply Forall_app. split; [exact Hdone'|].
        apply Forall_singleton. apply Forall_forall. intros y Hy Heq.
        apply Hd. rewrite Heq. apply list_elem_of_fmap. eauto.
Qed.

End Expansion.

(** ** The parser: one iteration *)

Section ParserSteps.
Variable tokens : list Token.t.
Variable props : option Props.

Lemma at_index_Some {A} (l : list A) (k : nat) (a : A) :
  l !! k = Some a -> at_index l k = Ok a.
Proof. unfold at_index. intros ->. reflexivity. Qed.

Lemma at_index_Ok {A} (l : list A) (k : nat) (a : A) :
  at_index l k = Ok a -> l !! k = Some a.
Proof. unfold at_index. destruct (l !! k); congruence. Qed.

(** A page header is neither a closing brace nor an identifier, so the
    branch of a page header is the one taken. *)
Lemma page_header_shape (token : Token.t) :
  Token.isPage token = true ->
  String.eqb (Token.val token) "}" = false /\ Token.isIdentifier token = false.
Proof.
  unfold Token.isPage, Token.isIdentifier.
  destruct (Token.val token) as [|a r]; simpl; [discriminate|].
  intros H. apply andb_true_iff in H as [H _].
  apply Ascii.eqb_eq in H. subst a. split; reflexivity.
Qed.

(** C3.  In a namespace body, a page-header token followed by [{] opens
    a page whose decorator list is the global buffer, then the group
    buffer, then the local buffer, as they are at that moment; the page
    is appended to the pages of the open namespace, the local buffer is
    emptied and the group and global buffers are left as they are. *)
Theorem page_open_snapshots_buffers (s : PState) (token nx : Token.t)
  (n : nat) (ns : Namespace.t) :
  state s = ParseState.Namespace ->
  namespace s = Some n ->
  namespaces s !! n = Some ns ->
  tokens !! i s = Some token ->
  Token.isPage token = true ->
  tokens !! S (i s) = Some nx ->
  Token.val nx = "{" ->
  step tokens props s
  = Ok (Continue
          (mkP (S (i s)) ParseState.Page (Some n)
             (Some (n, length (Namespace.pages ns)))
             [] (groupDecs s) (globDecs s)
             (<[n := Namespace.set_pages
                       (Namespace.pages ns
                          ++ [Page.mk (Token.loc token)
                                (JS.slice_1_m1 (Token.val token)) None ∅
                                (globDecs s ++ groupDecs s ++ decs s)]) ns]>
                (namespaces s))
             (next_oid s))).
Proof.
  intros Hst Hn Hns Htok Hpage Hnx Hbrace.
  destruct (page_header_shape token Hpage) as [Hclose Hident].
  unfold step. rewrite (at_index_Some _ _ _ Htok). simpl.
  rewrite Hst. unfold step_Namespace. rewrite Hn, Hclose, Hident, Hpage.
  rewrite (at_index_Some _ _ _ Hnx). simpl. rewrite Hbrace. simpl.
  rewrite (at_index_Some _ _ _ Hns). simpl.
  do 3 f_equal.
  apply list_eq. intros k. destruct (decide (k = n)) as [->|Hne].
  - rewrite list_lookup_alter_eq, list_lookup_insert_eq
      by (eapply lookup_lt_Some; exact Hns).
    rewrite Hns. reflexivity.
  - rewrite list_lookup_alter_ne, list_lookup_insert_ne by congruence.
    reflexivity.
Qed.

Lemma params_result (rest : list Token.t) :
  forall (k : nat) (dec : Dec.t) (j : nat) (dec' : Dec.t),
    params rest k dec = Ok (j, dec') ->
    Dec.oid dec' = Dec.oid dec /\ k < j.
Proof.
  remember (length rest) as m eqn:Hm.
  revert rest Hm. induction m as [m IH] using lt_wf_ind.
  intros rest Hm k dec j dec' H.
  destruct rest as [|tk rest1]; simpl in H; [discriminate|].
  destruct (String.eqb (Token.val tk) ">").
  { inversion H; subst. split; [reflexivity|lia]. }
  destruct (Token.isIdentifier tk).
  - destruct rest1 as [|eq rest2]; [discriminate|].
    destruct (negb (String.eqb (Token.val eq) "=")); [discriminate|].
    destruct rest2 as [|v rest3]; [discriminate|].
    destruct (resolveValue v) as [value|]; simpl in H; [|discriminate].
    eapply (IH (length rest3)) in H; [|subst m; simpl; lia|reflexivity].
    simpl in H. destruct H. split; [assumption|lia].
  - destruct (resolveValue tk) as [value|]; simpl in H; [|discriminate].
    eapply (IH (length rest1)) in H; [|subst m; simpl; lia|reflexivity].
    simpl in H. destruct H. split; [assumption|lia].
Qed.

Lemma shape_app nss1 nss2 : shape (nss1 ++ nss2) = shape nss1 ++ shape nss2.
Proof. unfold shape. apply map_app. Qed.

Lemma map_alter_same {A B} (g : A -> B) (f : A -> A) (k : nat) (l : list A) :
  (forall a, g (f a) = g a) -> map g (alter f k l) = map g l.
Proof.
  intros Hf. revert k.
  induction l as [|a l IH]; intros [|k]; try reflexivity.
  - cbn. f_equal. apply Hf.
  - cbn. f_equal. apply IH.
Qed.

Lemma shape_alter_same (f : Namespace.t -> Namespace.t) n nss :
  (forall ns, map Page.decorators (Namespace.pages (f ns))
              = map Page.decorators (Namespace.pages ns)) ->
  shape (alter f n nss) = shape nss.
Proof. intros Hf. unfold shape. now apply map_alter_same. Qed.

Lemma shape_update_page r (f : Page.t -> Page.t) nss :
  (forall pg, Page.decorators (f pg) = Page.decorators pg) ->
  shape (update_page r f nss) = shape nss.
Proof.
  intros Hf. unfold update_page. apply shape_alter_same.
  intros ns. simpl. now apply map_alter_same.
Qed.

Lemma alter_as_insert {A} (f : A -> A) (n : nat) (l : list A) (a : A) :
  l !! n = Some a -> alter f n l = <[n := f a]> l.
Proof.
  intros Hn. apply list_eq. intros k. destruct (decide (k = n)) as [->|Hne].
  - rewrite list_lookup_alter_eq, list_lookup_insert_eq
      by (eapply lookup_lt_Some; exact Hn).
    rewrite Hn. reflexivity.
  - rewrite list_lookup_alter_ne, list_lookup_insert_ne by congruence.
    reflexivity.
Qed.

Ltac head_split H :=
  repeat (try unfold mbind, result_bind in H; cbv beta iota in H;
          match type of H with
          | (match ?x with _ => _ end) = _ => destruct x eqn:?
          | _ => discriminate H
          end).

Lemma flagged_oid (b : bool) (f : Props -> Props) (d : Dec.t) :
  Dec.oid (if b then Dec.set_props f d else d) = Dec.oid d.
Proof. destruct b; reflexivity. Qed.

(** Every iteration that goes on is one of the actions. *)
Lemma step_action (s s' : PState) :
  step tokens props s = Ok (Continue s') -> action s s'.
Proof.
  intros H. unfold step in H. cbn [mbind result_bind] in H.
  destruct (at_index tokens (i s)) as [token|] eqn:Htok; [|discriminate].
  destruct (state s) eqn:Hst.
  - unfold step_Top in H. head_split H.
    inversion H; subst; clear H. apply act_quiet; simpl; try reflexivity.
    + right. rewrite shape_app. reflexivity.
    + rewrite Hst. intros [? _]. discriminate.
  - unfold step_Namespace, declaration in H. head_split H.
    all: inversion H; subst; clear H.
    + apply act_close; simpl; auto; discriminate.
    + apply act_close; simpl; auto; rewrite Hst; discriminate.
    + apply act_quiet; simpl; auto.
      * left. apply shape_alter_same. reflexivity.
      * rewrite Hst. intros [_ ?]. discriminate.
    + match goal with Hn : at_index (namespaces s) n = Ok ?a |- _ =>
        apply at_index_Ok in Hn;
        eapply (act_page _ _ n a
                  (Page.mk (Token.loc token) (JS.slice_1_m1 (Token.val token))
                     None ∅ (globDecs s ++ groupDecs s ++ decs s)));
        simpl; eauto
      end.
      erewrite alter_as_insert by eassumption. reflexivity.
    + match goal with
      | Hp : _ = Ok (?j, ?d) |- _ =>
          assert (Hoid : Dec.oid d = next_oid s);
          [|apply (act_declare _ _ d); simpl; auto;
            match goal with
            | |- context [if ?b then _ else _] => destruct b; auto
            end]
      end.
      match goal with
      | Hp : (if ?b then _ else _) = Ok _ |- _ =>
          destruct b; [destruct (Token.val _ =? "-")%string; [discriminate|] |]
      end.
      * match goal with
        | Hp : params _ _ _ = Ok _ |- _ =>
            apply params_result in Hp as [Hp _]; rewrite Hp
        end.
        rewrite !flagged_oid. reflexivity.
      * match goal with
        | Hp : Ok _ = Ok _ |- _ => inversion Hp; subst
        end.
        rewrite !flagged_oid. reflexivity.
    + apply act_group; simpl; auto.
  - unfold step_Page in H. head_split H.
    all: inversion H; subst; clear H.
    all: apply act_quiet; simpl; auto.
    all: try (left; apply shape_update_page; reflexivity).
    all: rewrite Hst; intros [? _]; discriminate.
Qed.

(** An iteration that goes on does not move the index back. *)
Lemma step_index (s s' : PState) :
  step tokens props s = Ok (Continue s') -> i s <= i s'.
Proof.
  intros H. unfold step in H. cbn [mbind result_bind] in H.
  destruct (at_index tokens (i s)) as [token|] eqn:Htok; [|discriminate].
  destruct (state s) eqn:Hst.
  - unfold step_Top in H. head_split H.
    inversion H; subst; simpl; lia.
  - unfold step_Namespace, declaration in H. head_split H.
    all: inversion H; subst; clear H; simpl; try lia.
    match goal with
    | Hp : (if ?b then _ else _) = Ok _ |- _ =>
        destruct b; [destruct (Token.val _ =? "-")%string; [discriminate|] |]
    end.
    + match goal with
      | Hp : params _ _ _ = Ok _ |- _ => apply params_result in Hp as [_ Hp]
      end.
      repeat match goal with
             | Hp : context [if ?b then _ else _] |- _ => destruct b
             end; lia.
    + match goal with
      | Hp : Ok _ = Ok _ |- _ => inversion Hp; subst
      end.
      repeat match goal with
             | |- context [if ?b then _ else _] => destruct b
             end; lia.
  - unfold step_Page in H. head_split H.
    all: inversion H; subst; clear H; simpl; lia.
Qed.

(** An iteration that stops the loop leaves the state as it is. *)
Lemma step_Break (s s' : PState) :
  step tokens props s = Ok (Break s') -> s' = s.
Proof.
  intros H. unfold step in H. cbn [mbind result_bind] in H.
  destruct (at_index tokens (i s)) as [token|] eqn:Htok; [|discriminate].
  destruct (state s) eqn:Hst.
  - unfold step_Top in H. head_split H. inversion H; reflexivity.
  - unfold step_Namespace, declaration in H. head_split H.
  - unfold step_Page in H. head_split H.
Qed.

End ParserSteps.

(** ** The parser: objects in the buffers and in the pages *)

Section Objects.

Lemma distinct_below_nil n : distinct_below n [].
Proof. split; constructor. Qed.

Lemma distinct_below_app n (l1 l2 : list Dec.t) :
  distinct_below n (l1 ++ l2)
  <-> distinct_below n l1 /\ distinct_below n l2
      /\ (forall d1 d2, d1 ∈ l1 -> d2 ∈ l2 -> Dec.oid d1 ≠ Dec.oid d2).
Proof.
  unfold distinct_below. rewrite map_app, NoDup_app, Forall_app.
  split.
  - intros [(H1 & Hx & H2) [F1 F2]]. repeat split; try assumption.
    intros d1 d2 Hd1 Hd2 Heq. apply (Hx (Dec.oid d1)).
    + apply list_elem_of_fmap. eauto.
    + rewrite Heq. apply list_elem_of_fmap. eauto.
  - intros ([H1 F1] & [H2 F2] & Hx). repeat split; try assumption.
    intros x Hx1 Hx2.
    apply list_elem_of_fmap in Hx1 as (d1 & -> & Hd1).
    apply list_elem_of_fmap in Hx2 as (d2 & Heq & Hd2).
    exact (Hx d1 d2 Hd1 Hd2 Heq).
Qed.

Lemma distinct_below_mono n m (l : list Dec.t) :
  n <= m -> distinct_below n l -> distinct_below m l.
Proof.
  intros Hle [H F]. split; [exact H|].
  eapply Forall_impl; [exact F|]. simpl. intros; lia.
Qed.

Lemma distinct_below_single n d : Dec.oid d < n -> distinct_below n [d].
Proof.
  intros H. split; simpl.
  - apply NoDup_singleton.
  - apply Forall_singleton. exact H.
Qed.

Lemma distinct_below_lt n (l : list Dec.t) d :
  distinct_below n l -> d ∈ l -> Dec.oid d < n.
Proof. intros [_ F] Hd. rewrite Forall_forall in F. now apply F. Qed.

Lemma lists_of_app nss1 nss2 :
  lists_of (nss1 ++ nss2) = lists_of nss1 ++ lists_of nss2.
Proof. unfold lists_of, shape. rewrite map_app. apply concat_app. Qed.

Lemma lists_of_cons ns nss :
  lists_of (ns :: nss) = map Page.decorators (Namespace.pages ns) ++ lists_of nss.
Proof. reflexivity. Qed.

(** The decorator lists after a page has been appended to the
    namespace at index [n]. *)
Lemma lists_of_page_added nss n ns pg (l : list Dec.t) :
  nss !! n = Some ns ->
  l ∈ lists_of (<[n := Namespace.set_pages (Namespace.pages ns ++ [pg]) ns]> nss)
  <-> l ∈ lists_of nss \/ l = Page.decorators pg.
Proof.
  intros Hn.
  rewrite insert_take_drop by (eapply lookup_lt_Some; exact Hn).
  rewrite <- (take_drop_middle nss n ns Hn) at 3.
  rewrite !lists_of_app, !lists_of_cons. simpl.
  rewrite map_app. simpl.
  rewrite !elem_of_app, list_elem_of_singleton. tauto.
Qed.

Lemma lists_of_quiet (s s' : PState) :
  shape (namespaces s') = shape (namespaces s)
  \/ shape (namespaces s') = shape (namespaces s) ++ [[]] ->
  lists_of (namespaces s') = lists_of (namespaces s).
Proof.
  unfold lists_of. intros [-> | ->]; [reflexivity|].
  rewrite concat_app. simpl. now rewrite app_nil_r.
Qed.

Lemma page_at_lists_of nss r pg :
  page_at nss r = Some pg -> Page.decorators pg ∈ lists_of nss.
Proof.
  unfold page_at. destruct r as [n k]. simpl.
  destruct (nss !! n) as [ns|] eqn:Hn; simpl; [|discriminate].
  intros Hk. rewrite <- (take_drop_middle nss n ns Hn).
  rewrite lists_of_app, lists_of_cons, !elem_of_app. right. left.
  apply list_elem_of_fmap. exists pg. split; [reflexivity|].
  eapply list_elem_of_lookup_2. exact Hk.
Qed.

Lemma holds_fresh n (l : list Dec.t) d :
  distinct_below n l -> Dec.oid d = n -> ~ holds l d.
Proof.
  intros Hl Hd Hin. unfold holds in Hin.
  apply list_elem_of_fmap in Hin as (e & Heq & He).
  pose proof (distinct_below_lt _ _ _ Hl He). lia.
Qed.

Lemma distinct_below_submseteq n (l l' : list Dec.t) :
  l' ⊆+ l -> distinct_below n l -> distinct_below n l'.
Proof.
  intros Hsub [H F]. split.
  - assert (Hm : map Dec.oid l' ⊆+ map Dec.oid l)
      by (apply (fmap_submseteq Dec.oid); exact Hsub).
    apply submseteq_Permutation in Hm as [k Hk].
    rewrite Hk in H. apply NoDup_app in H as [H _]. exact H.
  - apply Forall_forall. intros d Hd. rewrite Forall_forall in F.
    apply F. eapply elem_of_submseteq; eassumption.
Qed.

Lemma distinct_below_new n (l : list Dec.t) d :
  distinct_below n l -> Dec.oid d = n -> distinct_below (S n) (d :: l).
Proof.
  intros Hl Hd. split; simpl.
  - apply NoDup_cons. split; [|apply Hl].
    exact (holds_fresh n l d Hl Hd).
  - apply Forall_cons. split; [lia|].
    destruct Hl as [_ F]. eapply Forall_impl; [exact F|]. simpl. intros; lia.
Qed.

(** The actions keep the objects as [buffers_ok] says. *)
Lemma action_buffers_ok (s s' : PState) :
  buffers_ok s -> action s s' -> buffers_ok s'.
Proof.
  intros [Hb Hp Hl] Hact.
  destruct Hact as
    [Hd Hg Hgl Hnx Hsh _
    | _ Hd Hg Hgl Hnx Hns _
    | n ns pg _ _ Hn Hlk Hpg Hns _ Hd Hg Hgl Hnx
    | dec _ _ Hoid Hnx Hg Hns Hdg
    | _ _ Hd Hg Hgl Hnx Hns].
  - split.
    + now rewrite Hd, Hg, Hgl, Hnx.
    + now rewrite Hnx, (lists_of_quiet _ _ Hsh).
    + now rewrite Hd, (lists_of_quiet _ _ Hsh).
  - split.
    + rewrite Hd, Hg, Hgl, Hnx.
      eapply distinct_below_submseteq; [|exact Hb]. solve_submseteq.
    + now rewrite Hnx, Hns.
    + now rewrite Hd, Hns.
  - split.
    + rewrite Hd, Hg, Hgl, Hnx.
      eapply distinct_below_submseteq; [|exact Hb]. solve_submseteq.
    + rewrite Hnx, Hns. apply Forall_forall. intros l Hin.
      apply (lists_of_page_added _ _ _ _ _ Hlk) in Hin as [Hin | ->].
      * rewrite Forall_forall in Hp. now apply Hp.
      * now rewrite Hpg.
    + rewrite Hd. apply Forall_forall. intros; constructor.
  - split.
    + rewrite Hg, Hnx.
      apply (distinct_below_submseteq _ (dec :: globDecs s ++ groupDecs s ++ decs s)).
      * destruct Hdg as [[-> ->] | [-> ->]]; apply Permutation_submseteq;
          solve_Permutation.
      * now apply distinct_below_new.
    + rewrite Hnx, Hns. eapply Forall_impl; [exact Hp|].
      intros l. apply distinct_below_mono. lia.
    + rewrite Hns. apply Forall_forall. intros l Hin.
      rewrite Forall_forall in Hl, Hp.
      destruct Hdg as [[-> _] | [-> _]]; [|now apply Hl].
      apply Forall_app. split; [now apply Hl|].
      apply Forall_singleton. apply (holds_fresh (next_oid s)); auto.
  - split.
    + rewrite Hd, Hg, Hgl, Hnx.
      eapply distinct_below_submseteq; [|exact Hb]. solve_submseteq.
    + now rewrite Hnx, Hns.
    + rewrite Hd. apply Forall_forall. intros; constructor.
Qed.

End Objects.

(** ** The parser: the decorator lists along a run *)

Section Runs.
Variable tokens : list Token.t.
Variable props : option Props.

Lemma list_at_page_at nss r :
  list_at nss r = Page.decorators <$> page_at nss r.
Proof.
  unfold list_at, page_at, shape. destruct r as [n k]. simpl.
  change (map ?f nss) with (f <$> nss). rewrite list_lookup_fmap.
  destruct (nss !! n) as [ns|]; simpl; [|reflexivity].
  change (map Page.decorators (Namespace.pages ns))
    with (Page.decorators <$> Namespace.pages ns).
  apply list_lookup_fmap.
Qed.

Lemma shape_page_added nss n ns pg :
  nss !! n = Some ns ->
  shape (<[n := Namespace.set_pages (Namespace.pages ns ++ [pg]) ns]> nss)
  = <[n := map Page.decorators (Namespace.pages ns) ++ [Page.decorators pg]]>
      (shape nss).
Proof.
  intros Hn. unfold shape.
  change (map ?f ?l) with (f <$> l) at 1 4.
  rewrite list_fmap_insert. simpl. now rewrite map_app.
Qed.

(** The decorator list found at a reference after an action: the one
    that was there, or the list of the page just opened. *)
Lemma action_list_at (s s' : PState) (r : nat * nat) (l : list Dec.t) :
  action s s' ->
  list_at (namespaces s') r = Some l
  <-> list_at (namespaces s) r = Some l
      \/ (state s = ParseState.Namespace /\ state s' = ParseState.Page
          /\ page s' = Some r /\ list_at (namespaces s) r = None
          /\ l = globDecs s ++ groupDecs s ++ decs s).
Proof.
  intros Hact.
  destruct Hact as
    [_ _ _ _ Hsh Hst
    | _ _ _ _ _ Hns Hst
    | n ns pg Hst Hst' Hn Hlk Hpg Hns Hpage _ _ _ _
    | dec _ Hst _ _ _ Hns _
    | _ Hst _ _ _ _ Hns].
  - assert (Heq : list_at (namespaces s') r = list_at (namespaces s) r).
    { unfold list_at. destruct Hsh as [-> | ->]; [reflexivity|].
      destruct (decide (r.1 < length (shape (namespaces s)))) as [Hlt|Hge].
      - now rewrite lookup_app_l.
      - rewrite lookup_app_r by lia.
        rewrite (lookup_ge_None_2 (shape (namespaces s))) by lia.
        destruct (r.1 - length (shape (namespaces s))) as [|k]; reflexivity. }
    rewrite Heq. split; [auto|]. intros [H|(H1 & H2 & _)]; [exact H|].
    exfalso. apply Hst. split; assumption.
  - rewrite Hns. split; [auto|]. intros [H|(_ & H2 & _)]; [exact H|].
    contradiction.
  - rewrite Hns. unfold list_at at 1. rewrite (shape_page_added _ _ _ _ Hlk).
    assert (Hshn : shape (namespaces s) !! n
                   = Some (map Page.decorators (Namespace.pages ns))).
    { unfold shape. change (map ?f (namespaces s)) with (f <$> namespaces s).
      rewrite list_lookup_fmap, Hlk. reflexivity. }
    assert (Hlen : length (map Page.decorators (Namespace.pages ns))
                   = length (Namespace.pages ns)) by apply length_map.
    destruct r as [a b]. simpl.
    destruct (decide (a = n)) as [->|Hne].
    + rewrite list_lookup_insert_eq by (eapply lookup_lt_Some; exact Hshn).
      simpl. unfold list_at. simpl. rewrite Hshn. simpl.
      destruct (decide (b < length (Namespace.pages ns))) as [Hlt|Hge].
      * rewrite lookup_app_l by lia. split; [auto|].
        intros [H|(_ & _ & _ & H & _)]; [exact H|].
        apply lookup_ge_None in H. lia.
      * rewrite lookup_app_r by lia.
        rewrite (lookup_ge_None_2 (map _ _)) by lia.
        rewrite Hlen, Hpage, Hpg.
        destruct (decide (b = length (Namespace.pages ns))) as [->|Hne].
        -- rewrite Nat.sub_diag. simpl. split.
           ++ intros [= <-]. right. repeat split; auto.
           ++ intros [H|(_ & _ & _ & _ & ->)]; [discriminate|reflexivity].
        -- destruct (b - length (Namespace.pages ns)) as [|k] eqn:E; [lia|].
           simpl. split; [discriminate|].
           intros [H|(_ & _ & H & _)]; [discriminate|].
           inversion H. lia.
    + rewrite list_lookup_insert_ne by congruence.
      unfold list_at. simpl. split; [auto|].
      intros [H|(_ & _ & H & _)]; [exact H|].
      rewrite Hpage in H. inversion H. congruence.
  - rewrite Hns. split; [auto|]. intros [H|(_ & H2 & _)]; [exact H|].
    congruence.
  - rewrite Hns. split; [auto|]. intros [H|(_ & H2 & _)]; [exact H|].
    congruence.
Qed.

Lemma buffers_ok_incr (s : PState) : buffers_ok s -> buffers_ok (incr s).
Proof. intros [H1 H2 H3]. split; assumption. Qed.

Lemma steps_buffers_ok (s s' : PState) :
  steps tokens props s s' -> buffers_ok s -> buffers_ok s'.
Proof.
  induction 1 as [|s s1 s2 _ Hstep _ IH]; [auto|].
  intros Hok. apply IH, buffers_ok_incr.
  eapply action_buffers_ok; [exact Hok|]. now apply (step_action tokens props).
Qed.

Lemma action_globDecs (s s' : PState) :
  action s s' -> globDecs s `prefix_of` globDecs s'.
Proof.
  intros Hact.
  destruct Hact as
    [_ _ -> _ _ _ | _ _ _ -> _ _ _ | ? ? ? _ _ _ _ _ _ _ _ _ -> _
    | dec _ _ _ _ _ _ [[_ ->] | [_ ->]] | _ _ _ _ -> _ _];
    try reflexivity.
  now apply prefix_app_r.
Qed.

(** The global buffer only grows along a run. *)
Lemma steps_globDecs (s s' : PState) :
  steps tokens props s s' -> globDecs s `prefix_of` globDecs s'.
Proof.
  induction 1 as [|s s1 s2 _ Hstep _ IH]; [reflexivity|].
  etransitivity; [|exact IH].
  change (globDecs s `prefix_of` globDecs s1).
  apply action_globDecs. now apply (step_action tokens props).
Qed.

(** The decorator list of a page stays what it is along a run. *)
Lemma steps_list_at (s s' : PState) (r : nat * nat) (l : list Dec.t) :
  steps tokens props s s' ->
  list_at (namespaces s) r = Some l -> list_at (namespaces s') r = Some l.
Proof.
  induction 1 as [|s s1 s2 _ Hstep _ IH]; [auto|].
  intros Hl. apply IH.
  change (list_at (namespaces s1) r = Some l).
  apply (action_list_at s s1 r l); [now apply (step_action tokens props)|].
  now left.
Qed.

Lemma opens_page_inv (s s' : PState) :
  opens_page tokens props s s' ->
  exists n ns pg,
    namespace s = Some n /\ namespaces s !! n = Some ns
    /\ Page.decorators pg = globDecs s ++ groupDecs s ++ decs s
    /\ namespaces s'
       = <[n := Namespace.set_pages (Namespace.pages ns ++ [pg]) ns]> (namespaces s)
    /\ page s' = Some (n, length (Namespace.pages ns))
    /\ decs s' = [] /\ groupDecs s' = groupDecs s
    /\ globDecs s' = globDecs s /\ next_oid s' = next_oid s.
Proof.
  intros (Hst & Hstep & Hst').
  apply step_action in Hstep.
  destruct Hstep as
    [_ _ _ _ _ Hq | _ _ _ _ _ _ Hq | n ns pg _ _ ? ? ? ? ? ? ? ? ?
    | dec _ Hq _ _ _ _ _ | _ Hq _ _ _ _ _]; try congruence.
  - exfalso. apply Hq. split; assumption.
  - exists n, ns, pg. repeat split; assumption.
Qed.

Lemma page_at_added nss n ns pg :
  nss !! n = Some ns ->
  page_at (<[n := Namespace.set_pages (Namespace.pages ns ++ [pg]) ns]> nss)
    (n, length (Namespace.pages ns)) = Some pg
  /\ page_at nss (n, length (Namespace.pages ns)) = None.
Proof.
  intros Hn. unfold page_at. simpl.
  rewrite list_lookup_insert_eq by (eapply lookup_lt_Some; exact Hn).
  rewrite Hn. simpl. split.
  - rewrite lookup_app_r by lia. now rewrite Nat.sub_diag.
  - apply lookup_ge_None. lia.
Qed.

Lemma page_at_steps (s s' : PState) (r : nat * nat) (pg : Page.t) :
  steps tokens props s s' ->
  page_at (namespaces s) r = Some pg ->
  exists pg', page_at (namespaces s') r = Some pg'
              /\ Page.decorators pg' = Page.decorators pg.
Proof.
  intros Hsteps Hpg.
  pose proof (steps_list_at s s' r (Page.decorators pg) Hsteps) as H.
  rewrite !list_at_page_at, Hpg in H. specialize (H eq_refl).
  destruct (page_at (namespaces s') r) as [pg'|]; [|discriminate].
  exists pg'. split; [reflexivity|]. now inversion H.
Qed.

Lemma steps_trans (s1 s2 s3 : PState) :
  steps tokens props s1 s2 -> steps tokens props s2 s3 ->
  steps tokens props s1 s3.
Proof.
  induction 1 as [|s s1' s2' Hlt Hstep _ IH]; [auto|].
  intros H. eapply steps_next; eauto.
Qed.

Lemma step_in_range (s : PState) (f : flow) :
  step tokens props s = Ok f -> i s < length tokens.
Proof.
  unfold step. destruct (at_index tokens (i s)) eqn:E; [|discriminate].
  intros _. apply at_index_Ok in E. eapply lookup_lt_Some. exact E.
Qed.

Lemma iterate_steps (k : nat) (s s' : PState) :
  iterate tokens props k s = Some s' -> steps tokens props s s'.
Proof.
  revert s. induction k as [|k IH]; intros s; simpl.
  - intros [= ->]. apply steps_refl.
  - destruct (step tokens props s) as [[s1|]|] eqn:E; try discriminate.
    intros H. eapply steps_next; [|exact E|apply IH, H].
    eapply step_in_range. exact E.
Qed.

(** The loop returns from, or throws in, a state that the run reaches. *)
Lemma loop_steps (fuel : nat) (s : PState) (o : outcome) :
  loop tokens props fuel s = Some o ->
  exists s', steps tokens props s s'
             /\ match o with
                | Returned s'' => s'' = s'
                | Thrown e s'' => s'' = s' /\ step tokens props s' = Throw e
                end.
Proof.
  revert s. induction fuel as [|fuel IH]; intros s; simpl.
  - destruct (length tokens <=? i s)%nat; [|discriminate].
    intros [= <-]. exists s. split; [apply steps_refl|reflexivity].
  - destruct (length tokens <=? i s)%nat eqn:Hlen.
    { intros [= <-]. exists s. split; [apply steps_refl|reflexivity]. }
    destruct (step tokens props s) as [[s1|s1]|e] eqn:E.
    + intros H. apply IH in H as (s' & Hs & Ho).
      exists s'. split; [|exact Ho].
      eapply steps_next; [|exact E|exact Hs].
      eapply step_in_range. exact E.
    + intros [= <-]. exists s. split; [apply steps_refl|].
      symmetry. now apply step_Break in E.
    + intros [= <-]. exists s. split; [apply steps_refl|]. now split.
Qed.

(** One iteration per token is enough for the loop to finish. *)
Lemma loop_finishes (fuel : nat) (s : PState) :
  length tokens - i s <= fuel ->
  exists o, loop tokens props fuel s = Some o.
Proof.
  revert s. induction fuel as [|fuel IH]; intros s Hfuel; simpl.
  - assert (H : (length tokens <=? i s)%nat = true) by (apply Nat.leb_le; lia).
    rewrite H. eauto.
  - destruct (length tokens <=? i s)%nat; [eauto|].
    destruct (step tokens props s) as [[s1|s1]|e] eqn:E; eauto.
    apply IH. apply step_index in E. simpl. lia.
Qed.

Lemma init_buffers_ok (this : Pages.t) :
  pages_ok this -> buffers_ok (init_state this).
Proof.
  intros H. split; simpl.
  - apply distinct_below_nil.
  - exact H.
  - apply Forall_forall. intros; constructor.
Qed.

End Runs.

(** ** Scope of the buffers *)

Section Scope.
Variable tokens : list Token.t.
Variable props : option Props.

Lemma declared_is_fresh (s0 s1 : PState) (d : Dec.t) :
  step tokens props s0 = Ok (Continue s1) ->
  d ∈ globDecs s1 -> d ∉ globDecs s0 ->
  Dec.oid d = next_oid s0.
Proof.
  intros Hstep Hin Hnot. apply step_action in Hstep.
  destruct Hstep as
    [_ _ Hg _ _ _ | _ _ _ Hg _ _ _ | ? ? ? _ _ _ _ _ _ _ _ _ Hg _
    | dec _ _ Hoid _ _ _ [[_ Hg] | [_ Hg]] | _ _ _ _ Hg _ _];
    rewrite Hg in Hin; try contradiction.
  apply elem_of_app in Hin as [Hin|Hin]; [contradiction|].
  apply list_elem_of_singleton in Hin as ->. exact Hoid.
Qed.

(** C4 (amended).  A global decorator is attached to the pages opened
    after its declaration, and to no page opened before it: when an
    iteration of a call of [add] on a document whose pages hold
    distinct objects has put the object [d] into the global buffer, every page
    opened from then on in the same call has [d] in its decorator list,
    and the pages that were there before the declaration keep their
    decorator list, which does not hold [d]. *)
Theorem global_decorator_reaches_later_pages_only
  (this : Pages.t) (s0 s1 s2 s3 : PState) (d : Dec.t) :
  pages_ok this ->
  steps tokens props (init_state this) s0 ->
  step tokens props s0 = Ok (Continue s1) ->
  d ∈ globDecs s1 -> d ∉ globDecs s0 ->
  steps tokens props (incr s1) s2 ->
  opens_page tokens props s2 s3 ->
  (exists r pg,
      page s3 = Some r /\ page_at (namespaces s2) r = None
      /\ page_at (namespaces s3) r = Some pg /\ d ∈ Page.decorators pg)
  /\ (forall r pg,
        page_at (namespaces s0) r = Some pg ->
        ~ holds (Page.decorators pg) d
        /\ exists pg', page_at (namespaces s3) r = Some pg'
                       /\ Page.decorators pg' = Page.decorators pg).
Proof.
  intros Hthis Hreach Hstep Hin Hnot Hsteps Hopen.
  assert (Hok : buffers_ok s0).
  { eapply steps_buffers_ok; [exact Hreach|]. now apply init_buffers_ok. }
  split.
  - destruct (opens_page_inv tokens props _ _ Hopen)
      as (n & ns & pg & Hn & Hlk & Hpg & Hns & Hpage & _ & _ & _ & _).
    destruct (page_at_added (namespaces s2) n ns pg Hlk) as [Hnew Hold].
    exists (n, length (Namespace.pages ns)), pg.
    rewrite Hns. repeat split; try assumption.
    rewrite Hpg. apply elem_of_app. left.
    apply (steps_globDecs tokens props) in Hsteps.
    destruct Hsteps as [k Hk]. simpl in Hk. rewrite Hk.
    apply elem_of_app. now left.
  - intros r pg Hpg. split.
    + apply (holds_fresh (next_oid s0)).
      * destruct Hok as [_ Hp _]. rewrite Forall_forall in Hp.
        apply Hp. eapply page_at_lists_of. exact Hpg.
      * eapply declared_is_fresh; eassumption.
    + change (namespaces s3) with (namespaces (incr s3)).
      apply (page_at_steps tokens props s0 (incr s3)); [|exact Hpg].
      destruct Hopen as (_ & Hstep3 & _).
      eapply steps_next with (s1 := s1); [|exact Hstep|].
      { unfold step in Hstep. destruct (at_index tokens (i s0)) eqn:E;
          [|discriminate]. apply at_index_Ok in E.
        eapply lookup_lt_Some. exact E. }
      eapply steps_trans; [exact Hsteps|].
      eapply steps_next; [|exact Hstep3|apply steps_refl].
      unfold step in Hstep3. destruct (at_index tokens (i s2)) eqn:E;
        [|discriminate]. apply at_index_Ok in E.
      eapply lookup_lt_Some. exact E.
Qed.

(** C5 (amended).  Only the group buffer is reset by a closing brace.
    In a namespace body, [}] empties the group buffer: it closes the
    group when that buffer holds something, and closes the namespace
    when it is empty.  The local and the global buffer are left as they
    are in both cases. *)
Theorem closing_brace_empties_group_buffer_only
  (s : PState) (token : Token.t) (n : nat) :
  state s = ParseState.Namespace ->
  namespace s = Some n ->
  tokens !! i s = Some token ->
  Token.val token = "}" ->
  step tokens props s
  = Ok (Continue
          (match groupDecs s with
           | [] => mkP (i s) ParseState.Top None (page s)
                     (decs s) [] (globDecs s) (namespaces s) (next_oid s)
           | _ :: _ => mkP (i s) ParseState.Namespace (Some n) (page s)
                         (decs s) [] (globDecs s) (namespaces s) (next_oid s)
           end)).
Proof.
  intros Hst Hn Htok Hval.
  unfold step. rewrite (at_index_Some _ _ _ Htok). simpl.
  rewrite Hst. unfold step_Namespace. rewrite Hn, Hval. simpl.
  destruct (groupDecs s) eqn:E; rewrite ?Hst, ?Hn; reflexivity.
Qed.


Lemma holds_submseteq (l l' : list Dec.t) (d : Dec.t) :
  l ⊆+ l' -> holds l d -> holds l' d.
Proof.
  unfold holds. intros Hsub Hin.
  eapply elem_of_submseteq; [exact Hin|].
  apply (fmap_submseteq Dec.oid). exact Hsub.
Qed.

Lemma holds_elem_of (l : list Dec.t) (d : Dec.t) : d ∈ l -> holds l d.
Proof. intros H. apply list_elem_of_fmap. eauto. Qed.

(** What an action does to the content of the three buffers: it takes
    objects out, or it adds the one just created. *)
Lemma action_buffers (s s' : PState) :
  action s s' ->
  next_oid s <= next_oid s'
  /\ (globDecs s' ++ groupDecs s' ++ decs s' ⊆+ globDecs s ++ groupDecs s ++ decs s
      \/ exists dec, Dec.oid dec = next_oid s
                     /\ globDecs s' ++ groupDecs s' ++ decs s'
                        ≡ₚ dec :: globDecs s ++ groupDecs s ++ decs s).
Proof.
  intros Hact.
  destruct Hact as
    [Hd Hg Hgl Hnx _ _
    | _ Hd Hg Hgl Hnx _ _
    | n ns pg _ _ _ _ _ _ _ Hd Hg Hgl Hnx
    | dec _ _ Hoid Hnx Hg _ Hdg
    | _ _ Hd Hg Hgl Hnx _].
  1,2,3,5: split; [lia|left; rewrite Hd, Hg, Hgl; solve_submseteq].
  split; [lia|]. right. exists dec. split; [exact Hoid|].
  rewrite Hg. destruct Hdg as [[-> ->] | [-> ->]]; solve_Permutation.
Qed.

Lemma action_settled (s s' : PState) (d : Dec.t) (r0 : nat * nat) :
  action s s' -> settled d r0 s -> settled d r0 s'.
Proof.
  intros Hact (Hbuf & Hlt & Hlists).
  destruct (action_buffers s s' Hact) as [Hnx Hsub].
  assert (Hbuf' : ~ holds (globDecs s' ++ groupDecs s' ++ decs s') d).
  { intros Hin. destruct Hsub as [Hsub | (dec & Hoid & Hperm)].
    - apply Hbuf. eapply holds_submseteq; eassumption.
    - unfold holds in Hin. rewrite Hperm in Hin. simpl in Hin.
      apply elem_of_cons in Hin as [Heq | Hin]; [lia|].
      now apply Hbuf. }
  split; [exact Hbuf'|]. split; [lia|].
  intros r l Hl Hin.
  apply (action_list_at s s' r l Hact) in Hl
    as [Hl | (_ & _ & _ & _ & ->)].
  - eapply Hlists; eassumption.
  - contradiction.
Qed.

Lemma steps_settled (s s' : PState) (d : Dec.t) (r0 : nat * nat) :
  steps tokens props s s' -> settled d r0 s -> settled d r0 s'.
Proof.
  induction 1 as [|s s1 s2 _ Hstep _ IH]; [auto|].
  intros H. apply IH.
  assert (H1 : settled d r0 s1).
  { eapply action_settled; [|exact H]. now apply (step_action tokens props). }
  exact H1.
Qed.

Lemma list_at_lists_of nss r l : list_at nss r = Some l -> l ∈ lists_of nss.
Proof.
  rewrite list_at_page_at.
  destruct (page_at nss r) as [pg|] eqn:E; [|discriminate].
  intros [= <-]. eapply page_at_lists_of. exact E.
Qed.

(** C6 (amended).  No decorator list holds an object twice, and a
    decorator object that is in the local buffer when a page is opened
    belongs to the decorator list of that page and of no other page, for
    the rest of the call.  (Objects of the global and of the group buffer
    are shared by the pages they are attached to.) *)
Theorem local_decorator_belongs_to_one_page
  (this : Pages.t) (s s3 s4 : PState) (d : Dec.t) :
  pages_ok this ->
  steps tokens props (init_state this) s ->
  opens_page tokens props s s3 ->
  d ∈ decs s ->
  steps tokens props (incr s3) s4 ->
  forall r pg,
    page_at (namespaces s4) r = Some pg ->
    NoDup (map Dec.oid (Page.decorators pg))
    /\ (holds (Page.decorators pg) d <-> page s3 = Some r).
Proof.
  intros Hthis Hreach Hopen Hd Hsteps r pg Hpg.
  assert (Hok : buffers_ok s).
  { eapply steps_buffers_ok; [exact Hreach|]. now apply init_buffers_ok. }
  assert (Hact : action s s3) by (destruct Hopen as (_ & H & _);
                                   now apply (step_action tokens props)).
  assert (Hok4 : buffers_ok s4).
  { eapply steps_buffers_ok; [exact Hsteps|]. apply buffers_ok_incr.
    eapply action_buffers_ok; eassumption. }
  destruct (opens_page_inv tokens props _ _ Hopen)
    as (n & ns & pg0 & Hn & Hlk & Hpg0 & Hns & Hpage & Hd3 & Hg3 & Hgl3 & Hnx3).
  split.
  { destruct Hok4 as [_ Hp _]. rewrite Forall_forall in Hp.
    apply (Hp (Page.decorators pg)). eapply page_at_lists_of. exact Hpg. }
  assert (Hset : settled d (n, length (Namespace.pages ns)) (incr s3)).
  { destruct Hok as [Hb Hp Hl]. repeat split; simpl.
    - rewrite Hd3, Hg3, Hgl3, app_nil_r.
      destruct Hb as [Hnd _]. rewrite app_assoc, map_app in Hnd.
      apply NoDup_app in Hnd as (_ & Hx & _).
      intros Hin. apply (Hx (Dec.oid d) Hin). now apply holds_elem_of.
    - rewrite Hnx3. eapply distinct_below_lt; [exact Hb|].
      rewrite !elem_of_app. auto.
    - intros r' l Hl' Hin.
      apply (action_list_at s s3 r' l Hact) in Hl'
        as [Hl' | (_ & _ & Hr & _)].
      + exfalso. rewrite Forall_forall in Hl.
        specialize (Hl l (list_at_lists_of _ _ _ Hl')).
        rewrite Forall_forall in Hl. exact (Hl d Hd Hin).
      + rewrite Hpage in Hr. now inversion Hr. }
  apply (steps_settled _ _ _ _ Hsteps) in Hset as (_ & _ & Hlists).
  rewrite Hpage. split.
  - intros Hin. f_equal. symmetry. eapply Hlists; [|exact Hin].
    rewrite list_at_page_at, Hpg. reflexivity.
  - intros [= <-].
    assert (H3 : list_at (namespaces (incr s3)) (n, length (Namespace.pages ns))
                 = Some (Page.decorators pg0)).
    { simpl. rewrite Hns, list_at_page_at.
      destruct (page_at_added (namespaces s) n ns pg0 Hlk) as [-> _].
      reflexivity. }
    apply (steps_list_at tokens props _ _ _ _ Hsteps) in H3.
    rewrite list_at_page_at, Hpg in H3. inversion H3 as [H3'].
    rewrite H3', Hpg0. apply holds_elem_of. rewrite !elem_of_app. auto.
Qed.

End Scope.

(** ** The call [add] as a whole *)

(** The loop over the tokens finishes: [add] returns or throws. *)
Lemma add_finishes (this : Pages.t) (source : Source.t) (props : option Props) :
  exists r, add this source props = Some r.
Proof.
  unfold add.
  destruct (loop_finishes (tokenize source) props (length (tokenize source))
              (init_state this)) as [o Ho]; [simpl; lia|].
  rewrite Ho. destruct o; eauto.
Qed.

(** Whether it returns or throws, [add] leaves a document whose pages hold
    pairwise distinct decorator objects, if it was given one. *)
Lemma add_pages_ok (this this' : Pages.t) (source : Source.t)
  (props : option Props) (e : option Error) :
  pages_ok this ->
  add this source props = Some (this', e) ->
  pages_ok this'.
Proof.
  intros Hok. unfold add.
  destruct (loop (tokenize source) props (length (tokenize source))
              (init_state this)) as [o|] eqn:Ho; [|discriminate].
  apply loop_steps in Ho as (s' & Hsteps & Ho).
  assert (Hb : buffers_ok s').
  { eapply steps_buffers_ok; [exact Hsteps|]. now apply init_buffers_ok. }
  destruct Hb as [_ Hp _].
  destruct o as [s''|err s'']; intros [= <- _].
  - subst s''. exact Hp.
  - destruct Ho as [-> _]. exact Hp.
Qed.

Lemma new_pages_ok : pages_ok Pages.new.
Proof. constructor. Qed.

(** ** The scope of the buffers on sample inputs *)

Lemma buffers_sample :
  buffers_tokens = tokens_of buffers_text
  /\ buffers_state = state_after buffers_text 5.
Proof. split; vm_compute; reflexivity. Qed.

(** C3, on a sample: in [(n){%%g %a {%b [p]{}}}] the page [p] is opened
    with the global buffer holding [g], the group buffer [a] and the local
    buffer [b]. *)
Lemma page_open_snapshots_buffers_witness :
  let s := buffers_state in
  exists token nx ns,
    state s = ParseState.Namespace
    /\ namespace s = Some 0
    /\ namespaces s !! 0 = Some ns
    /\ buffers_tokens !! i s = Some token
    /\ Token.isPage token = true
    /\ buffers_tokens !! S (i s) = Some nx
    /\ Token.val nx = "{"
    /\ map Dec.name (globDecs s) = ["g"]
    /\ map Dec.name (groupDecs s) = ["a"]
    /\ map Dec.name (decs s) = ["b"]
    /\ step buffers_tokens None s
       = Ok (Continue
               (mkP (S (i s)) ParseState.Page (Some 0)
                  (Some (0, length (Namespace.pages ns)))
                  [] (groupDecs s) (globDecs s)
                  (<[0 := Namespace.set_pages
                            (Namespace.pages ns
                               ++ [Page.mk (Token.loc token)
                                     (JS.slice_1_m1 (Token.val token)) None ∅
                                     (globDecs s ++ groupDecs s ++ decs s)]) ns]>
                     (namespaces s))
                  (next_oid s))).
Proof.
  intros s.
  eexists _, _, _.
  split; [reflexivity|]. split; [reflexivity|]. split; [reflexivity|].
  split; [reflexivity|]. split; [reflexivity|]. split; [reflexivity|].
  split; [reflexivity|]. split; [reflexivity|]. split; [reflexivity|].
  split; [reflexivity|].
  eapply (page_open_snapshots_buffers buffers_tokens None s); reflexivity.
Defined.

Lemma global_sample :
  global_tokens = tokens_of global_text
  /\ global_s0 = state_after global_text 3
  /\ step global_tokens None global_s0 = Ok (Continue global_s1)
  /\ step global_tokens None (incr global_s1) = Ok (Continue global_s3)
  /\ globDecs global_s0 = [] /\ globDecs global_s1 = [global_a].
Proof. repeat split; vm_compute; reflexivity. Qed.

(** C4, as stated, fails: in [(n){[p]{} %%a [q]{}}] the page [p], declared
    before [%%a] in the same namespace, does not receive the global
    decorator [a]; the page [q] does. *)
Lemma global_decorator_skips_earlier_page :
  exists this p q a,
    parse "(n){[p]{} %%a [q]{}}" = Some (this, None)
    /\ map Namespace.pages (Pages.namespaces this) = [[p; q]]
    /\ Page.name p = "p" /\ Page.decorators p = []
    /\ Page.name q = "q" /\ Page.decorators q = [a]
    /\ Dec.name a = "a" /\ Dec.props a !! "__glb" = Some (JS.VBool true).
Proof.
  vm_compute. eexists _, _, _, _. repeat split.
Qed.

(** C4 (amended), on the sample [(n){[p]{} %%a [q]{}}]. *)
Lemma global_decorator_reaches_later_pages_only_witness :
  pages_ok Pages.new
  /\ steps global_tokens None (init_state Pages.new) global_s0
  /\ step global_tokens None global_s0 = Ok (Continue global_s1)
  /\ (global_a ∈ globDecs global_s1)
  /\ (global_a ∉ globDecs global_s0)
  /\ steps global_tokens None (incr global_s1) (incr global_s1)
  /\ opens_page global_tokens None (incr global_s1) global_s3
  /\ ((exists r pg,
          page global_s3 = Some r
          /\ page_at (namespaces (incr global_s1)) r = None
          /\ page_at (namespaces global_s3) r = Some pg
          /\ global_a ∈ Page.decorators pg)
      /\ (forall r pg,
            page_at (namespaces global_s0) r = Some pg ->
            ~ holds (Page.decorators pg) global_a
            /\ exists pg', page_at (namespaces global_s3) r = Some pg'
                           /\ Page.decorators pg' = Page.decorators pg)).
Proof.
  assert (H1 : pages_ok Pages.new) by exact new_pages_ok.
  assert (H2 : steps global_tokens None (init_state Pages.new) global_s0)
    by (apply (iterate_steps _ _ 3); reflexivity).
  assert (H3 : step global_tokens None global_s0 = Ok (Continue global_s1))
    by reflexivity.
  assert (H4 : global_a ∈ globDecs global_s1) by (simpl; left).
  assert (H5 : global_a ∉ globDecs global_s0) by (simpl; apply not_elem_of_nil).
  assert (H6 : steps global_tokens None (incr global_s1) (incr global_s1))
    by apply steps_refl.
  assert (H7 : opens_page global_tokens None (incr global_s1) global_s3)
    by (repeat split; reflexivity).
  repeat (split; [assumption|]).
  exact (global_decorator_reaches_later_pages_only global_tokens None
           Pages.new global_s0 global_s1 (incr global_s1) global_s3 global_a
           H1 H2 H3 H4 H5 H6 H7).
Defined.

Lemma leak_sample :
  leak_tokens = tokens_of leak_text /\ leak_state = state_after leak_text 3.
Proof. split; vm_compute; reflexivity. Qed.

(** C5, as stated, fails: in [(a){%%g %l} (b){[p]{} [q]{}}] the global
    decorator [g] and the local decorator [l], buffered in the namespace
    [a] and not consumed there, are attached to pages of the later
    namespace [b]. *)
Lemma pending_decorators_reach_next_namespace :
  exists this a b p q g l,
    parse "(a){%%g %l} (b){[p]{} [q]{}}" = Some (this, None)
    /\ Pages.namespaces this = [a; b]
    /\ Namespace.name a = "a" /\ Namespace.pages a = []
    /\ Namespace.name b = "b" /\ Namespace.pages b = [p; q]
    /\ Page.decorators p = [g; l] /\ Page.decorators q = [g]
    /\ Dec.name g = "g" /\ Dec.name l = "l".
Proof.
  vm_compute. eexists _, _, _, _, _, _, _. repeat split.
Qed.

(** C5 (amended), on the sample [(a){%%g %l} (b){[p]{} [q]{}}]: the brace
    that closes the namespace [a] leaves [l] in the local and [g] in the
    global buffer. *)
Lemma closing_brace_empties_group_buffer_only_witness :
  exists token,
    state leak_state = ParseState.Namespace
    /\ namespace leak_state = Some 0
    /\ leak_tokens !! i leak_state = Some token
    /\ Token.val token = "}"
    /\ map Dec.name (decs leak_state) = ["l"]
    /\ map Dec.name (globDecs leak_state) = ["g"]
    /\ groupDecs leak_state = []
    /\ step leak_tokens None leak_state
       = Ok (Continue
               (match groupDecs leak_state with
                | [] => mkP (i leak_state) ParseState.Top None (page leak_state)
                          (decs leak_state) [] (globDecs leak_state)
                          (namespaces leak_state) (next_oid leak_state)
                | _ :: _ => mkP (i leak_state) ParseState.Namespace (Some 0)
                              (page leak_state) (decs leak_state) []
                              (globDecs leak_state) (namespaces leak_state)
                              (next_oid leak_state)
                end)).
Proof.
  eexists _.
  split; [reflexivity|]. split; [reflexivity|]. split; [reflexivity|].
  split; [reflexivity|]. split; [reflexivity|]. split; [reflexivity|].
  split; [reflexivity|].
  eapply (closing_brace_empties_group_buffer_only leak_tokens None leak_state);
    reflexivity.
Defined.

Lemma shared_sample :
  shared_tokens = tokens_of shared_text
  /\ shared_s = state_after shared_text 3
  /\ step shared_tokens None shared_s = Ok (Continue shared_s3)
  /\ shared_s4 = state_after shared_text 6
  /\ decs shared_s = [shared_l].
Proof. repeat split; vm_compute; reflexivity. Qed.

(** C6, as stated, fails: in [(n){%%a [p]{} [q]{}}] the decorator lists of
    the pages [p] and [q] hold the same decorator object. *)
Lemma global_decorator_object_is_shared :
  exists this p q a,
    parse "(n){%%a [p]{} [q]{}}" = Some (this, None)
    /\ map Namespace.pages (Pages.namespaces this) = [[p; q]]
    /\ Page.name p = "p" /\ Page.name q = "q"
    /\ Page.decorators p = [a] /\ Page.decorators q = [a]
    /\ holds (Page.decorators p) a /\ holds (Page.decorators q) a.
Proof.
  vm_compute. eexists _, _, _, _.
  repeat split; apply list_elem_of_here.
Qed.

(** C6 (amended), on the sample [(n){%%g %l [p]{} [q]{}}]: the local
    decorator [l] belongs to the page [p] only. *)
Lemma local_decorator_belongs_to_one_page_witness :
  pages_ok Pages.new
  /\ steps shared_tokens None (init_state Pages.new) shared_s
  /\ opens_page shared_tokens None shared_s shared_s3
  /\ (shared_l ∈ decs shared_s)
  /\ steps shared_tokens None (incr shared_s3) shared_s4
  /\ (forall r pg,
        page_at (namespaces shared_s4) r = Some pg ->
        NoDup (map Dec.oid (Page.decorators pg))
        /\ (holds (Page.decorators pg) shared_l <-> page shared_s3 = Some r)).
Proof.
  assert (H1 : pages_ok Pages.new) by exact new_pages_ok.
  assert (H2 : steps shared_tokens None (init_state Pages.new) shared_s)
    by (apply (iterate_steps _ _ 3); reflexivity).
  assert (H3 : opens_page shared_tokens None shared_s shared_s3)
    by (repeat split; reflexivity).
  assert (H4 : shared_l ∈ decs shared_s) by (simpl; left).
  assert (H5 : steps shared_tokens None (incr shared_s3) shared_s4)
    by (apply (iterate_steps _ _ 2); reflexivity).
  repeat (split; [assumption|]).
  exact (local_decorator_belongs_to_one_page shared_tokens None
           Pages.new shared_s shared_s3 shared_s4 shared_l H1 H2 H3 H4 H5).
Defined.

(** ** Macro expansion: the claim and a sample *)

(** C2.  On a page whose decorator objects are pairwise distinct and
    older than the allocation counter, the macro expansion of [build] is
    the single pass [expand_spec] over the decorator list as it is before
    the pass: every entry flagged as a macro is expanded once and its
    [replacement] takes its place, which is the list of its stubs in their
    order, as new objects; the stubs are not looked at again, whatever
    their names and properties.  When the macro is flagged negated, every
    entry of its replacement has the property [__not] set to [true], and
    so is flagged negated. *)
Theorem macros_expand_once_in_place
  (macros : gmap string MacImpl) (page : Page.t) (next : nat) :
  distinct_below next (Page.decorators page) ->
  expand macros (filter (fun d => Is_true (Dec.is_mac d)) (Page.decorators page))
    page next
  = expand_spec macros [] (Page.decorators page) page next
  /\ forall d n stubs,
       Dec.is_not d = true ->
       Forall (fun e => Dec.props e !! "__not" = Some (JS.VBool true)
                        /\ Dec.is_not e = true)
         (replacement d n stubs).
Proof.
  intros H. split.
  - rewrite <- (expand_as_spec macros (Page.decorators page) [] page next H)
      by constructor.
    destruct page; reflexivity.
  - intros d n stubs Hd. unfold replacement. rewrite Hd.
    apply Forall_forall. intros e He.
    apply elem_of_lookup_imap in He as (k & st & -> & _).
    unfold Dec.is_not. cbn [Dec.props].
    rewrite lookup_insert_eq. split; reflexivity.
Qed.

Lemma macro_sample : Some macro_page = first_page macro_text.
Proof. vm_compute. reflexivity. Qed.

(** C2, on the sample [(n){%%!auto %-!auto %x [p]{}}] with [auto]
    registered as a macro that produces a stub named [auto]. *)
Lemma macros_expand_once_in_place_witness :
  distinct_below 3 (Page.decorators macro_page)
  /\ expand macro_registry
       (filter (fun d => Is_true (Dec.is_mac d)) (Page.decorators macro_page))
       macro_page 3
     = expand_spec macro_registry [] (Page.decorators macro_page) macro_page 3
  /\ forall d n stubs,
       Dec.is_not d = true ->
       Forall (fun e => Dec.props e !! "__not" = Some (JS.VBool true)
                        /\ Dec.is_not e = true)
         (replacement d n stubs).
Proof.
  assert (H : distinct_below 3 (Page.decorators macro_page)).
  { split; apply (bool_decide_unpack _); vm_compute; exact I. }
  split; [exact H|].
  exact (macros_expand_once_in_place macro_registry macro_page 3 H).
Defined.

(** The sample expanded: the two macros give way to their stubs, those of
    the negated macro flagged negated, and the stubs named [auto] stay. *)
Example macro_sample_expanded :
  let '(page, next, e) :=
    expand macro_registry
      (filter (fun d => Is_true (Dec.is_mac d)) (Page.decorators macro_page))
      macro_page 3 in
  (map (fun d => (Dec.oid d, Dec.name d, Dec.is_not d, Dec.is_mac d))
     (Page.decorators page), next, e)
  = ([(3, "kind", false, false); (4, "auto", false, false);
      (5, "kind", true, false); (6, "auto", true, false);
      (2, "x", false, false)], 7, None).
Proof. vm_compute. reflexivity. Qed.

(** The cancellation on the usage example of the documentation,
    [%!auto %-min]: the list after expansion is [kind], [min], negated
    [min]; the negated entry removes itself only. *)
Example cancel_after_macro :
  let L := Loc.mk (Source.mk EmptyString EmptyString) 0 0 0 in
  let kind := Dec.mk 1 L "kind" ∅ [] in
  let min := Dec.mk 2 L "min" ∅ [] in
  let not_min := Dec.mk 0 L "min" {["__not" := JS.VBool true]} [] in
  cancel [kind; min; not_min] = Ok [kind; min].
Proof. vm_compute. reflexivity. Qed.

(** ** A page without decorators *)

(** Resolution leaves a page without decorators as it is. *)
Lemma resolve_undecorated (decorators : gmap string DecImpl)
  (macros : gmap string MacImpl) (page : Page.t) (next : nat) :
  Page.decorators page = [] ->
  resolve decorators macros page next = (page, next, None).
Proof.
  destruct page as [l n p ps ds]. simpl. intros ->. reflexivity.
Qed.

(** Whether it returns or throws, [build] leaves a page without
    decorators as it is. *)
Lemma build_pages_undecorated (decorators : gmap string DecImpl)
  (macros : gmap string MacImpl) (pages : list Page.t) :
  forall next pages' next' e k pg,
    build_pages decorators macros pages next = (pages', next', e) ->
    pages !! k = Some pg -> Page.decorators pg = [] ->
    pages' !! k = Some pg.
Proof.
  induction pages as [|p0 pages IH]; intros next pages' next' e k pg; simpl.
  - intros _ Hk. now rewrite lookup_nil in Hk.
  - destruct (resolve decorators macros p0 next) as [[p1 nx1] [e1|]] eqn:Hres.
    + intros [= <- _ _] Hk Hpg. destruct k as [|k]; [|exact Hk].
      simpl in Hk. inversion Hk; subst p0.
      rewrite (resolve_undecorated decorators macros pg next Hpg) in Hres.
      discriminate.
    + destruct (build_pages decorators macros pages nx1) as [[rest' nx2] e2] eqn:Hb.
      intros [= <- _ _] Hk Hpg. destruct k as [|k].
      * simpl in Hk. inversion Hk; subst p0.
        rewrite (resolve_undecorated decorators macros pg next Hpg) in Hres.
        simpl. congruence.
      * simpl. eapply IH; eassumption.
Qed.

Lemma build_namespaces_undecorated (decorators : gmap string DecImpl)
  (macros : gmap string MacImpl) (nss : list Namespace.t) :
  forall next nss' next' e r pg,
    build_namespaces decorators macros nss next = (nss', next', e) ->
    page_at nss r = Some pg -> Page.decorators pg = [] ->
    page_at nss' r = Some pg.
Proof.
  induction nss as [|ns nss IH]; intros next nss' next' e [n k] pg; simpl.
  - intros _ Hr. discriminate Hr.
  - destruct (build_pages decorators macros (Namespace.pages ns) next)
      as [[pages1 nx1] [e1|]] eqn:Hb.
    + intros [= <- _ _] Hr Hpg. destruct n as [|n]; [|exact Hr].
      unfold page_at in *. simpl in *.
      eapply build_pages_undecorated; eassumption.
    + destruct (build_namespaces decorators macros nss nx1)
        as [[rest' nx2] e2] eqn:Hn.
      intros [= <- _ _] Hr Hpg. destruct n as [|n].
      * unfold page_at in *. simpl in *.
        eapply build_pages_undecorated; eassumption.
      * change (page_at rest' (n, k) = Some pg).
        eapply IH; eassumption.
Qed.

Section PlainPages.
Variable tokens : list Token.t.
Variable props : option Props.

Ltac page_split H :=
  repeat (try unfold mbind, result_bind in H; cbv beta iota in H;
          match type of H with
          | (match ?x with _ => _ end) = _ => destruct x eqn:?
          | _ => discriminate H
          end).

Lemma page_at_update_ne (r r' : nat * nat) (f : Page.t -> Page.t)
  (nss : list Namespace.t) :
  r' <> r -> page_at (update_page r' f nss) r = page_at nss r.
Proof.
  destruct r as [n k], r' as [n' k']. intros Hne.
  unfold page_at, update_page. simpl.
  destruct (decide (n' = n)) as [->|Hn].
  - rewrite list_lookup_alter_eq. destruct (nss !! n) as [ns|]; [|reflexivity].
    simpl. apply list_lookup_alter_ne. congruence.
  - now rewrite list_lookup_alter_ne.
Qed.

Lemma page_at_update_eq (r : nat * nat) (f : Page.t -> Page.t)
  (nss : list Namespace.t) (pg : Page.t) :
  page_at nss r = Some pg -> page_at (update_page r f nss) r = Some (f pg).
Proof.
  destruct r as [n k]. unfold page_at, update_page. simpl.
  rewrite list_lookup_alter_eq. destruct (nss !! n) as [ns|]; [|discriminate].
  simpl. rewrite list_lookup_alter_eq. now intros ->.
Qed.

Lemma page_at_alter_props (n : nat) (f : Props -> Props)
  (nss : list Namespace.t) (r : nat * nat) :
  page_at (alter (fun ns => Namespace.set_props (f (Namespace.props ns)) ns) n nss) r
  = page_at nss r.
Proof.
  unfold page_at. destruct (decide (n = r.1)) as [->|Hn].
  - rewrite list_lookup_alter_eq. now destruct (nss !! r.1).
  - now rewrite list_lookup_alter_ne.
Qed.

Lemma page_at_alter_pages (n : nat) (new : Page.t)
  (nss : list Namespace.t) (r : nat * nat) (pg : Page.t) :
  page_at nss r = Some pg ->
  page_at (alter (fun ns => Namespace.set_pages (Namespace.pages ns ++ [new]) ns)
             n nss) r
  = Some pg.
Proof.
  unfold page_at. destruct (decide (n = r.1)) as [->|Hn].
  - rewrite list_lookup_alter_eq. destruct (nss !! r.1) as [ns|]; [|discriminate].
    simpl. intros H. now apply lookup_app_l_Some.
  - now rewrite list_lookup_alter_ne.
Qed.

(** A page that is not the one whose body is being read is left as it is
    by an iteration, and it is not the one that the iteration opens. *)
Lemma step_keeps_page (s s' : PState) (r : nat * nat) (pg : Page.t) :
  step tokens props s = Ok (Continue s') ->
  page_at (namespaces s) r = Some pg ->
  (state s = ParseState.Page -> page s <> Some r) ->
  page_at (namespaces s') r = Some pg
  /\ (state s' = ParseState.Page -> page s' <> Some r).
Proof.
  intros H Hpg Hcur. unfold step in H. cbn [mbind result_bind] in H.
  destruct (at_index tokens (i s)) as [token|] eqn:Htok; [|discriminate].
  destruct (state s) eqn:Hst.
  - unfold step_Top in H. page_split H.
    inversion H; subst; clear H. simpl. split; [|discriminate].
    unfold page_at in *. destruct (namespaces s !! r.1) as [ns|] eqn:E;
      [|discriminate].
    now rewrite (lookup_app_l_Some _ _ _ _ E).
  - unfold step_Namespace, declaration in H. page_split H.
    all: inversion H; subst; clear H; simpl.
    all: try (split; [exact Hpg|try discriminate; rewrite Hst; discriminate]).
    + split; [|rewrite Hst; discriminate].
      rewrite <- Hpg. apply page_at_alter_props.
    + split; [now apply page_at_alter_pages|].
      intros _ [= <-].
      match goal with Hn : at_index (namespaces s) _ = Ok _ |- _ =>
        apply at_index_Ok in Hn; unfold page_at in Hpg; simpl in Hpg;
        rewrite Hn in Hpg; simpl in Hpg; apply lookup_lt_Some in Hpg; lia
      end.
  - specialize (Hcur eq_refl).
    unfold step_Page in H. page_split H.
    all: inversion H; subst; clear H; simpl.
    all: try (split; [|try discriminate; rewrite Hst; intros _; exact Hcur]).
    all: try exact Hpg.
    all: rewrite page_at_update_ne; [exact Hpg|congruence].
Qed.

Lemma steps_keep_page (s s' : PState) (r : nat * nat) (pg : Page.t) :
  steps tokens props s s' ->
  page_at (namespaces s) r = Some pg ->
  (state s = ParseState.Page -> page s <> Some r) ->
  page_at (namespaces s') r = Some pg.
Proof.
  induction 1 as [|s s1 s2 _ Hstep _ IH]; [auto|].
  intros Hpg Hcur.
  destruct (step_keeps_page s s1 r pg Hstep Hpg Hcur) as [Hpg1 Hcur1].
  apply IH; assumption.
Qed.

(** The page that an iteration opens: it has no path and no properties,
    and its decorators are those of the three buffers. *)
Lemma opens_page_new (s s' : PState) :
  opens_page tokens props s s' ->
  exists r token,
    tokens !! i s = Some token
    /\ page s' = Some r /\ i s' = S (i s)
    /\ page_at (namespaces s') r
       = Some (Page.mk (Token.loc token) (JS.slice_1_m1 (Token.val token)) None ∅
                 (globDecs s ++ groupDecs s ++ decs s)).
Proof.
  intros (Hst & H & Hst'). unfold step in H. cbn [mbind result_bind] in H.
  destruct (at_index tokens (i s)) as [token|] eqn:Htok; [|discriminate].
  rewrite Hst in H. unfold step_Namespace, declaration in H. page_split H.
  all: inversion H; subst; clear H; simpl in Hst'; try congruence.
  match goal with Hn : at_index (namespaces s) ?n = Ok ?ns |- _ =>
    apply at_index_Ok in Hn; exists (n, length (Namespace.pages ns)), token
  end.
  simpl. split; [now apply at_index_Ok|]. split; [reflexivity|].
  split; [reflexivity|].
  unfold page_at. simpl. rewrite list_lookup_alter_eq.
  match goal with Hn : namespaces s !! _ = Some _ |- _ => rewrite Hn end.
  simpl. rewrite lookup_app_r by lia. now rewrite Nat.sub_diag.
Qed.

(** The iteration at [@] in the body of a page sets the path of that
    page to the text between the quotes of the next token. *)
Lemma step_path (s s' : PState) (r : nat * nat) (t0 : Token.t) :
  state s = ParseState.Page -> page s = Some r ->
  tokens !! i s = Some t0 -> Token.val t0 = "@" ->
  step tokens props s = Ok (Continue s') ->
  exists t,
    tokens !! S (i s) = Some t
    /\ namespaces s'
       = update_page r (Page.set_path (JS.slice_1_m1 (Token.val t))) (namespaces s)
    /\ state s' = ParseState.Page /\ page s' = Some r.
Proof.
  intros Hst Hr Htok Hval H. unfold step in H.
  rewrite (at_index_Some _ _ _ Htok) in H. cbn [mbind result_bind] in H.
  rewrite Hst in H. unfold step_Page in H. rewrite Hr in H.
  unfold Token.isIdentifier in H. rewrite Hval in H.
  cbn [String.eqb Ascii.eqb Bool.eqb andb] in H.
  change (JS.is_identifier "@") with false in H. cbv iota in H.
  page_split H. inversion H; subst; clear H. simpl.
  match goal with Ht : at_index tokens _ = Ok ?t |- _ =>
    apply at_index_Ok in Ht; exists t
  end.
  repeat split; assumption.
Qed.

(** An iteration in the body of a page that ends in a namespace body is
    the one that closes the page: it changes no namespace. *)
Lemma step_closes_page (s s' : PState) :
  state s = ParseState.Page ->
  step tokens props s = Ok (Continue s') ->
  state s' = ParseState.Namespace ->
  namespaces s' = namespaces s.
Proof.
  intros Hst H Hst'. unfold step in H. cbn [mbind result_bind] in H.
  destruct (at_index tokens (i s)) as [token|] eqn:Htok; [|discriminate].
  rewrite Hst in H. unfold step_Page in H. page_split H.
  all: inversion H; subst; clear H; simpl in *; congruence.
Qed.

(** C7 (amended).  A page with a path and nothing else in its body,
    [[p]{@"x"}], that is opened while the three decorator buffers are
    empty (so that nothing declared earlier in the call is pending, in
    its namespace or in one before it), whatever comes before and after
    it in the source and whatever the registries.  In every later state
    [s4] of the call of [add] the page has an empty decorator list, the
    text between the quotes as its path and no properties; and [build]
    (without output), run on the document that [add] leaves when it ends
    in [s4], leaves the page exactly as it is, whether it returns or
    throws on another page. *)
Theorem plain_page_round_trip
  (this : Pages.t) (s0 s1 s2 s3 s4 : PState) (r : nat * nat) (t0 : Token.t) :
  opens_page tokens props s0 s1 ->
  globDecs s0 = [] -> groupDecs s0 = [] -> decs s0 = [] ->
  page s1 = Some r ->
  tokens !! S (i s1) = Some t0 -> Token.val t0 = "@" ->
  step tokens props (incr s1) = Ok (Continue s2) ->
  step tokens props (incr s2) = Ok (Continue s3) ->
  state s3 = ParseState.Namespace ->
  steps tokens props (incr s3) s4 ->
  exists t pg,
    tokens !! S (S (i s1)) = Some t
    /\ page_at (namespaces s4) r = Some pg
    /\ Page.decorators pg = []
    /\ Page.path pg = Some (JS.slice_1_m1 (Token.val t))
    /\ Page.props pg = ∅
    /\ page_at (Pages.namespaces (build (commit this s4)).1) r = Some pg.
Proof.
  intros Hopen Hglob Hgroup Hdecs Hr Htok Hval Hstep2 Hstep3 Hst3 Hsteps.
  pose proof Hopen as (_ & _ & Hst1).
  destruct (opens_page_new s0 s1 Hopen) as (r' & token & _ & Hr' & _ & Hnew).
  rewrite Hr in Hr'. inversion Hr'; subst r'; clear Hr'.
  rewrite Hglob, Hgroup, Hdecs in Hnew. simpl in Hnew.
  destruct (step_path (incr s1) s2 r t0 Hst1 Hr Htok Hval Hstep2)
    as (t & Ht & Hns2 & Hst2 & Hr2).
  pose proof (step_closes_page (incr s2) s3 Hst2 Hstep3 Hst3) as Hns3.
  set (pg := Page.mk (Token.loc token) (JS.slice_1_m1 (Token.val token))
               (Some (JS.slice_1_m1 (Token.val t))) ∅ []).
  assert (Hpg3 : page_at (namespaces (incr s3)) r = Some pg).
  { change (namespaces (incr s3)) with (namespaces s3).
    rewrite Hns3. change (namespaces (incr s2)) with (namespaces s2).
    rewrite Hns2.
    rewrite (page_at_update_eq r _ (namespaces (incr s1)) _ Hnew). reflexivity. }
  assert (Hpg4 : page_at (namespaces s4) r = Some pg).
  { apply (steps_keep_page (incr s3) s4 r pg Hsteps Hpg3).
    simpl. rewrite Hst3. discriminate. }
  exists t, pg. split; [exact Ht|]. split; [exact Hpg4|].
  split; [reflexivity|]. split; [reflexivity|]. split; [reflexivity|].
  unfold build.
  destruct (build_namespaces _ _ _ _) as [[nss next] e] eqn:Hb.
  simpl. eapply build_namespaces_undecorated; [exact Hb|exact Hpg4|reflexivity].
Qed.

End PlainPages.

(** C7 (amended), on the source [(n){[p]{@"x"}}], with the state in which
    [add] returns as the later state. *)
Lemma plain_page_round_trip_witness :
  opens_page plain_tokens None plain_s0 plain_s1
  /\ globDecs plain_s0 = [] /\ groupDecs plain_s0 = [] /\ decs plain_s0 = []
  /\ page plain_s1 = Some (0, 0)
  /\ add Pages.new (Source.new "(input)" (src plain_text)) None
     = Some (commit Pages.new plain_s4, None)
  /\ exists t pg,
       plain_tokens !! S (S (i plain_s1)) = Some t
       /\ page_at (namespaces plain_s4) (0, 0) = Some pg
       /\ Page.decorators pg = []
       /\ Page.path pg = Some (JS.slice_1_m1 (Token.val t))
       /\ Page.props pg = ∅
       /\ page_at (Pages.namespaces (build (commit Pages.new plain_s4)).1) (0, 0)
          = Some pg.
Proof.
  assert (H1 : opens_page plain_tokens None plain_s0 plain_s1)
    by (repeat split; reflexivity).
  assert (H2 : steps plain_tokens None (incr plain_s3) plain_s4)
    by (apply (iterate_steps _ _ 1); reflexivity).
  split; [exact H1|]. do 4 (split; [reflexivity|]).
  split; [vm_compute; reflexivity|].
  exact (plain_page_round_trip plain_tokens None Pages.new
           plain_s0 plain_s1 plain_s2 plain_s3 plain_s4 (0, 0) _
           H1 eq_refl eq_refl eq_refl eq_refl eq_refl eq_refl eq_refl eq_refl
           eq_refl H2).
Defined.

(** The path of the sample is [x]. *)
Example plain_sample_path :
  (fun t => JS.slice_1_m1 (Token.val t)) <$> plain_tokens !! S (S (i plain_s1))
  = Some "x".
Proof. reflexivity. Qed.

(** C7, as stated, fails: in [(a){%l} (n){[p]{@"x"}}] the namespace [n]
    has no decorators, but the local decorator [l], declared in the
    namespace [a] and pending when [a] is closed, is attached to the page
    [p].  With no decorator registered [build] throws for [l]; with [l]
    registered, its implementation is called and writes to the properties
    of [p]. *)
Lemma pending_decorator_reaches_plain_page :
  parse pending_text = Some (pending_parsed, None)
  /\ exists a n p l,
       Pages.namespaces pending_parsed = [a; n]
       /\ Namespace.name a = "a" /\ Namespace.pages a = []
       /\ Namespace.name n = "n" /\ Namespace.pages n = [p]
       /\ Page.name p = "p" /\ Page.path p = Some "x" /\ Page.props p = ∅
       /\ Page.decorators p = [l] /\ Dec.name l = "l"
       /\ (build pending_parsed).2
          = Some (buildError (Dec.loc l) "Unknown decorator `l`" EmptyString)
       /\ exists p',
            build (use pending_parsed (Some {["l" := mark_impl]}) None)
            = (Pages.mk [a; Namespace.set_pages [p'] n] {["l" := mark_impl]} ∅ 1,
               None)
            /\ Page.decorators p' = []
            /\ Page.props p' = {["l" := JS.VBool true]}.
Proof.
  split; [vm_compute; reflexivity|].
  eexists _, _, _, _.
  split; [reflexivity|].
  do 9 (split; [reflexivity|]).
  split; [vm_compute; reflexivity|].
  eexists. split; [vm_compute; reflexivity|].
  split; reflexivity.
Qed.

(** ** Sources without a namespace *)

Section NoNamespace.

Lemma space_is_no_operator (c : ascii) :
  JS.is_space c = true -> JS.is_op c = false.
Proof.
  destruct c as [[] [] [] [] [] [] [] []]; vm_compute; congruence.
Qed.

(** Scanning blanks with nothing pending leaves nothing pending and
    produces no token. *)
Lemma scan_blank (s : Source.t) (body : string) (x : Tokenizer.st) :
  JS.all_chars JS.is_space body = true ->
  Tokenizer.tokens x = [] -> Tokenizer.t x = EmptyString ->
  Tokenizer.tokens (Tokenizer.scan s body x) = []
  /\ Tokenizer.t (Tokenizer.scan s body x) = EmptyString.
Proof.
  unfold Tokenizer.scan. revert x.
  induction body as [|c body IH]; intros x Hall Htok Ht; simpl; [auto|].
  simpl in Hall. apply andb_true_iff in Hall as [Hc Hall].
  apply IH; [exact Hall| |].
  - unfold Tokenizer.step. rewrite Ht. simpl.
    rewrite (space_is_no_operator c Hc), Hc.
    unfold Tokenizer.pushtoken. simpl. rewrite Ht. simpl.
    destruct (Ascii.eqb c JS.lf); exact Htok.
  - unfold Tokenizer.step. rewrite Ht. simpl.
    rewrite (space_is_no_operator c Hc), Hc.
    destruct (Ascii.eqb c JS.lf); reflexivity.
Qed.

(** A source made of blanks only has the end marker as its only token. *)
Lemma tokenize_blank (source : Source.t) :
  JS.all_chars JS.is_space (Source.body source) = true ->
  exists col row, tokenize source = [Token.new_EOF col row source].
Proof.
  intros Hall. unfold tokenize.
  destruct (scan_blank source (Source.body source) Tokenizer.init Hall
              eq_refl eq_refl) as [Htok Ht].
  unfold Tokenizer.pushtoken. rewrite Ht. simpl. rewrite Htok. simpl. eauto.
Qed.

Lemma commit_init (this : Pages.t) : commit this (init_state this) = this.
Proof. destruct this; reflexivity. Qed.

(** For a source made of blanks only, [add] returns and adds nothing. *)
Lemma blank_source_adds_nothing
  (this : Pages.t) (source : Source.t) (props : option Props) :
  JS.all_chars JS.is_space (Source.body source) = true ->
  add this source props = Some (this, None).
Proof.
  intros Hall. destruct (tokenize_blank source Hall) as (col & row & Htok).
  unfold add. rewrite Htok. simpl. now rewrite commit_init.
Qed.

Lemma append_not_empty (t : string) (c : ascii) : (t ++ JS.chr c)%string <> EmptyString.
Proof. destruct t; discriminate. Qed.

Lemma nonempty_true (t : string) : t <> EmptyString -> JS.nonempty t = true.
Proof. destruct t; [congruence|reflexivity]. Qed.

Lemma pushtoken_content (s : Source.t) (tt : string) (x : Tokenizer.st) :
  has_content x -> Tokenizer.tokens (Tokenizer.pushtoken s tt x) <> [].
Proof.
  intros [H|H]; unfold Tokenizer.pushtoken.
  - destruct (JS.nonempty (Tokenizer.t x)); simpl; [|exact H].
    intros E. apply app_eq_nil in E as [_ E]. discriminate.
  - rewrite (nonempty_true _ H). simpl.
    intros E. apply app_eq_nil in E as [_ E]. discriminate.
Qed.

Lemma step_content (s : Source.t) (x : Tokenizer.st) (c : ascii) :
  has_content x \/ JS.is_space c = false ->
  has_content (Tokenizer.step s x c).
Proof.
  intros H. unfold Tokenizer.step.
  assert (Hkeep : forall y, has_content y ->
            has_content (if Ascii.eqb c JS.lf
                         then Tokenizer.mk (Tokenizer.tokens y) (Tokenizer.t y) 0
                                (Tokenizer.row y + 1)
                         else Tokenizer.add_col 1 y)).
  { intros y Hy. destruct (Ascii.eqb c JS.lf); exact Hy. }
  apply Hkeep.
  destruct (Tokenizer.closer (Tokenizer.t x)) as [close|] eqn:Hclose.
  - assert (Ht : Tokenizer.t x <> EmptyString).
    { intros E. rewrite E in Hclose. discriminate. }
    destruct (Ascii.eqb c close).
    + left. apply pushtoken_content. now right.
    + right. simpl. apply append_not_empty.
  - destruct (JS.is_op c).
    + left. simpl. intros E. apply app_eq_nil in E as [_ E]. discriminate.
    + destruct (JS.is_space c) eqn:Hsp.
      * destruct H as [H|H]; [|discriminate].
        left. simpl. apply (pushtoken_content s EmptyString (Tokenizer.add_col (-1) x)).
        exact H.
      * right. simpl. apply append_not_empty.
Qed.

Lemma scan_content (s : Source.t) (body : string) (x : Tokenizer.st) :
  has_content x \/ JS.all_chars JS.is_space body = false ->
  has_content (Tokenizer.scan s body x).
Proof.
  unfold Tokenizer.scan. revert x.
  induction body as [|c body IH]; intros x H; simpl.
  - destruct H as [H|H]; [exact H|discriminate].
  - apply IH. simpl in H.
    destruct (JS.is_space c) eqn:Hc.
    + destruct H as [H|H]; [|now right].
      left. apply step_content. now left.
    + left. apply step_content. now right.
Qed.

Lemma pushtk_no_marker s tk x :
  no_marker x -> no_marker (Tokenizer.pushtk s tk x).
Proof.
  intros H. unfold no_marker. simpl. apply Forall_app. split; [exact H|].
  apply Forall_singleton. reflexivity.
Qed.

Lemma pushtoken_no_marker s tt x :
  no_marker x -> no_marker (Tokenizer.pushtoken s tt x).
Proof.
  intros H. unfold Tokenizer.pushtoken.
  destruct (JS.nonempty (Tokenizer.t x)); [|exact H].
  apply (pushtk_no_marker s _ x H).
Qed.

Lemma step_no_marker s x c : no_marker x -> no_marker (Tokenizer.step s x c).
Proof.
  intros H. unfold Tokenizer.step.
  assert (Hkeep : forall y, no_marker y ->
            no_marker (if Ascii.eqb c JS.lf
                       then Tokenizer.mk (Tokenizer.tokens y) (Tokenizer.t y) 0
                              (Tokenizer.row y + 1)
                       else Tokenizer.add_col 1 y)).
  { intros y Hy. destruct (Ascii.eqb c JS.lf); exact Hy. }
  apply Hkeep.
  destruct (Tokenizer.closer (Tokenizer.t x)) as [close|].
  - destruct (Ascii.eqb c close); [|exact H].
    now apply pushtoken_no_marker.
  - destruct (JS.is_op c).
    + apply pushtk_no_marker. now apply pushtoken_no_marker.
    + destruct (JS.is_space c); [|exact H].
      apply (pushtoken_no_marker s EmptyString (Tokenizer.add_col (-1) x)).
      exact H.
Qed.

Lemma scan_no_marker s body x :
  no_marker x -> no_marker (Tokenizer.scan s body x).
Proof.
  unfold Tokenizer.scan. revert x.
  induction body as [|c body IH]; intros x H; simpl; [exact H|].
  apply IH. now apply step_no_marker.
Qed.

(** A source with a character that is no blank has a first token that is
    not the end marker. *)
Lemma tokenize_not_blank (source : Source.t) :
  JS.all_chars JS.is_space (Source.body source) = false ->
  exists tk rest, tokenize source = tk :: rest /\ Token.eof tk = false.
Proof.
  intros Hall. unfold tokenize.
  set (x := Tokenizer.scan source (Source.body source) Tokenizer.init).
  assert (Hc : has_content x) by (apply scan_content; now right).
  assert (Hm : no_marker x) by (apply scan_no_marker; constructor).
  apply (pushtoken_content source EmptyString) in Hc.
  apply (pushtoken_no_marker source EmptyString) in Hm.
  unfold no_marker in Hm.
  destruct (Tokenizer.tokens (Tokenizer.pushtoken source EmptyString x))
    as [|tk rest]; [congruence|].
  exists tk, (rest ++ [Token.new_EOF
                          (Tokenizer.col (Tokenizer.pushtoken source EmptyString x))
                          (Tokenizer.row (Tokenizer.pushtoken source EmptyString x))
                          source]).
  split; [reflexivity|].
  apply Forall_cons in Hm as [Hm _]. exact Hm.
Qed.

(** When the first token is not a namespace header, [add] adds nothing
    and throws what [parseError] makes of the location of that token. *)
Lemma first_token_not_namespace
  (this : Pages.t) (source : Source.t) (props : option Props)
  (tk : Token.t) (rest : list Token.t) :
  tokenize source = tk :: rest ->
  Token.eof tk = false ->
  Token.isNamespace tk = false ->
  add this source props
  = Some (this,
          Some (parseError (Token.loc tk) "Expected a namespace declaration"
                  (if Token.isIdentifier tk
                   then "Maybe you meant `(" ++ Token.val tk ++ ")`?"
                   else EmptyString))).
Proof.
  intros Htok Heof Hns. unfold add. rewrite Htok. simpl.
  unfold step. simpl. unfold step_Top. rewrite Hns, Heof.
  now rewrite commit_init.
Qed.

(** A source without a namespace header among its tokens: [add] adds
    nothing; it returns when the source is made of blanks, and otherwise it
    throws what [parseError] makes of the location of the first token. *)
Lemma source_without_namespace
  (this : Pages.t) (source : Source.t) (props : option Props) :
  Forall (fun t => Token.isNamespace t = false) (tokenize source) ->
  if JS.all_chars JS.is_space (Source.body source)
  then add this source props = Some (this, None)
  else exists tk rest hint,
      tokenize source = tk :: rest /\ Token.eof tk = false
      /\ add this source props
         = Some (this,
                 Some (parseError (Token.loc tk)
                         "Expected a namespace declaration" hint)).
Proof.
  intros Hns. destruct (JS.all_chars JS.is_space (Source.body source)) eqn:Hb.
  - now apply blank_source_adds_nothing.
  - destruct (tokenize_not_blank source Hb) as (tk & rest & Htok & Heof).
    exists tk, rest. eexists. split; [exact Htok|]. split; [exact Heof|].
    eapply first_token_not_namespace; [exact Htok|exact Heof|].
    rewrite Htok in Hns. apply Forall_cons in Hns as [Hns _]. exact Hns.
Qed.

(** [parseError] and [buildError] give an error located at [loc] when
    the row is a line of the source and the caret offset is not
    negative; they raise a [RangeError] when it is negative. *)
Lemma diagnostic_cases (mk : Diag -> Error) (loc : Loc.t) (message hint : string) :
  (0 <= Loc.row loc)%Z -> (0 <= Loc.len loc)%Z ->
  forall trueline,
    JS.split_lines (Source.body (Loc.src loc)) !! Z.to_nat (Loc.row loc)
    = Some trueline ->
    let line := JS.trim_end (JS.trim_start trueline) in
    let col := (Loc.col loc - JS.len trueline + JS.len line)%Z in
    diagnostic mk loc message hint
    = if (col <? 0)%Z then RangeError
      else mk (mkDiag message loc line col hint).
Proof.
  intros Hrow Hlen trueline Hline. unfold diagnostic.
  assert (H1 : (Loc.row loc <? 0)%Z = false) by (apply Z.ltb_ge; lia).
  assert (H2 : (Loc.len loc <? 0)%Z = false) by (apply Z.ltb_ge; lia).
  rewrite H1, Hline, H2. reflexivity.
Qed.

(** C9 fails on the source [x] followed by one blank: it has no
    namespace declaration and is not made of blanks, and [add] raises a
    [RangeError], which carries no location, instead of a syntax error:
    the caret offset that [parseError] computes is [-1]. *)
Theorem trailing_blank_gives_RangeError :
  parse "x " = Some (Pages.new, Some RangeError)
  /\ JS.all_chars JS.is_space "x " = false
  /\ Forall (fun t => Token.isNamespace t = false) (tokens_of "x ")
  /\ parse "x"
     = Some (Pages.new,
             Some (SyntaxError
                     (mkDiag "Expected a namespace declaration"
                        (Loc.mk (Source.mk "(input)" "x") 1 0 1) "x" 1
                        "Maybe you meant `(x)`?"))).
Proof.
  repeat split; try (vm_compute; reflexivity).
  apply (bool_decide_unpack _). vm_compute. exact I.
Qed.

End NoNamespace.

(** ** Unknown names *)

Section Unknown.
Variable decorators : gmap string DecImpl.
Variable macros : gmap string MacImpl.

(** The cancellation pass does not throw. *)
Lemma cancel_returns (l : list Dec.t) : cancel l = Ok (survivors l).
Proof. rewrite survivors_visit. apply cancel_visit. Qed.

(** What ends the expansion belongs to an entry of the filtered array for
    whose name the macro registry has no own member: it is the error
    ["Unknown macro"] of [buildError] at the location of the entry, or what
    the inherited member of that name leads to. *)
Lemma expand_failure (snapshot : list Dec.t) :
  forall page next page' next' e,
    expand macros snapshot page next = (page', next', Some e) ->
    exists d, d ∈ snapshot
              /\ match registry_get macros (Dec.name d) with
                 | Missing =>
                     e = buildError (Dec.loc d)
                           ("Unknown macro `" ++ Dec.name d ++ "`") EmptyString
                 | Proto m => e = inherited_expansion m d
                 | Own _ => False
                 end.
Proof.
  induction snapshot as [|m rest IH]; intros page next page' next' e; simpl.
  - discriminate.
  - destruct (registry_get macros (Dec.name m)) as [impl|im|] eqn:E.
    + intros H. apply IH in H as (d & Hd & He).
      exists d. split; [now right|exact He].
    + intros [= _ _ <-]. exists m. split; [now left|]. now rewrite E.
    + intros [= _ _ <-]. exists m. split; [now left|]. now rewrite E.
Qed.

(** An error of the invocation belongs to the first remaining decorator
    for whose name the decorator registry has no own member that can be
    called: it is the error ["Unknown decorator"] of [buildError] at the
    location of the decorator, or the [TypeError] of an inherited member
    that throws. *)
Lemma invoke_failure (ds : list Dec.t) :
  forall page page' e,
    invoke decorators ds page = (page', Some e) ->
    exists d, d ∈ ds
              /\ match registry_get decorators (Dec.name d) with
                 | Missing =>
                     e = buildError (Dec.loc d)
                           ("Unknown decorator `" ++ Dec.name d ++ "`") EmptyString
                 | Proto inh_throwing => e = TypeError
                 | _ => False
                 end.
Proof.
  induction ds as [|x rest IH]; intros page page' e; simpl.
  - discriminate.
  - destruct (registry_get decorators (Dec.name x)) as [impl|[]|] eqn:E.
    1-3: intros H; apply IH in H as (d & Hd & He);
         exists d; (split; [now right|exact He]).
    all: intros [= _ <-]; exists x; (split; [now left|]); now rewrite E.
Qed.

(** A decorator whose name no registry member has stops the invocation. *)
Lemma invoke_unknown (d : Dec.t) (rest : list Dec.t) (page : Page.t) :
  registry_get decorators (Dec.name d) = Missing ->
  invoke decorators (d :: rest) page
  = (page, Some (buildError (Dec.loc d)
                   ("Unknown decorator `" ++ Dec.name d ++ "`") EmptyString)).
Proof. intros H. cbn [invoke]. now rewrite H. Qed.

(** Whatever [resolve] throws belongs to a decorator: it is built by
    [buildError] at the location of a decorator of unknown name, never at
    the location of the page, or it comes from an inherited member of a
    registry. *)
Lemma resolve_failure (page page' : Page.t) (next next' : nat) (e : Error) :
  resolve decorators macros page next = (page', next', Some e) ->
  exists d, thrown_for decorators macros d e.
Proof.
  unfold resolve.
  destruct (expand macros _ page next) as [[pg nx] [e1|]] eqn:Hexp.
  - intros [= _ _ <-]. apply expand_failure in Hexp as (d & Hd & He).
    exists d. left. split; [|exact He].
    apply list_elem_of_filter in Hd as [Hd _]. now apply Is_true_eq_true.
  - rewrite cancel_returns.
    destruct (invoke decorators _ _) as [pg2 [e2|]] eqn:Hinv.
    + intros [= _ _ <-]. apply invoke_failure in Hinv as (d & _ & He).
      exists d. right. exact He.
    + discriminate.
Qed.

(** When [build] throws on a page, the pages after it are left as the
    parser made them. *)
Lemma build_pages_failure (pages : list Page.t) :
  forall next pages' next' e,
    build_pages decorators macros pages next = (pages', next', Some e) ->
    exists before page rest before' page' n1 n2,
      pages = before ++ page :: rest
      /\ pages' = before' ++ page' :: rest
      /\ length before' = length before
      /\ resolve decorators macros page n1 = (page', n2, Some e).
Proof.
  induction pages as [|pg pages IH]; intros next pages' next' e; simpl.
  - discriminate.
  - destruct (resolve decorators macros pg next) as [[pg1 nx1] [e1|]] eqn:Hres.
    + intros [= <- _ <-]. exists [], pg, pages, [], pg1, next, nx1.
      repeat split. exact Hres.
    + destruct (build_pages decorators macros pages nx1)
        as [[rest' nx2] e2] eqn:Hrest.
      intros [= <- _ ->].
      apply IH in Hrest
        as (before & page & rest & before' & page' & n1 & n2
            & -> & -> & Hlen & Hres').
      exists (pg :: before), page, rest, (pg1 :: before'), page', n1, n2.
      repeat split; simpl; auto.
Qed.

End Unknown.

(** C8 fails on a page whose unknown decorator is declared on a line that
    ends with a blank: [build] aborts, but with a [RangeError], which
    carries no location; the caret offset that [buildError] computes is
    [-1].  Without the blank the error is the located one: it carries the
    location of the decorator (row 1, column 0) and not the one of the page
    (row 2), and in both cases the page [q] after the failing one keeps its
    decorator list. *)
Theorem unknown_decorator_on_blank_ended_line :
  (exists this this' p q p' q',
      parse unknown_blank_text = Some (this, None)
      /\ map Namespace.pages (Pages.namespaces this) = [[p; q]]
      /\ map Dec.name (Page.decorators p) = ["foo"]
      /\ build this = (this', Some RangeError)
      /\ map Namespace.pages (Pages.namespaces this') = [[p'; q']]
      /\ q' = q)
  /\ (exists this this' p q p' q' d,
      parse unknown_text = Some (this, None)
      /\ map Namespace.pages (Pages.namespaces this) = [[p; q]]
      /\ map Dec.name (Page.decorators p) = ["foo"]
      /\ build this = (this', Some (EvalError d))
      /\ d_message d = "Unknown decorator `foo`"
      /\ map Dec.loc (Page.decorators p) = [d_loc d]
      /\ (Loc.row (d_loc d), Loc.col (d_loc d)) = (1, 0)%Z
      /\ (Loc.row (Page.loc p), Loc.col (Page.loc p)) = (2, 0)%Z
      /\ map Namespace.pages (Pages.namespaces this') = [[p'; q']]
      /\ q' = q).
Proof.
  split.
  - eexists _, _, _, _, _, _.
    split; [vm_compute; reflexivity|].
    split; [reflexivity|]. split; [reflexivity|].
    split; [vm_compute; reflexivity|].
    split; reflexivity.
  - eexists _, _, _, _, _, _, _.
    split; [vm_compute; reflexivity|].
    split; [reflexivity|]. split; [reflexivity|].
    split; [vm_compute; reflexivity|].
    repeat (split; [reflexivity|]). reflexivity.
Qed.

(** ** The resolver keeps the objects of a page distinct *)

Section Resolved.
Variable decorators : gmap string DecImpl.
Variable macros : gmap string MacImpl.

Lemma distinct_below_alloc (next : nat) (stubs : list Stub) (neg : bool) :
  distinct_below (next + length stubs)
    (if neg then map negate (alloc next stubs) else alloc next stubs).
Proof.
  assert (Hoid : map Dec.oid (if neg then map negate (alloc next stubs)
                              else alloc next stubs)
                 = seq next (length stubs)).
  { destruct neg; [rewrite negate_oid|]; apply alloc_oid. }
  split.
  - rewrite Hoid. apply NoDup_seq.
  - apply Forall_forall. intros d Hd.
    assert (Hin : Dec.oid d ∈ seq next (length stubs)).
    { rewrite <- Hoid. apply list_elem_of_fmap. eauto. }
    apply elem_of_seq in Hin. lia.
Qed.

Lemma alloc_above (next : nat) (stubs : list Stub) (neg : bool) (d : Dec.t) :
  d ∈ (if neg then map negate (alloc next stubs) else alloc next stubs) ->
  next <= Dec.oid d.
Proof.
  intros Hd.
  assert (Hoid : map Dec.oid (if neg then map negate (alloc next stubs)
                              else alloc next stubs)
                 = seq next (length stubs)).
  { destruct neg; [rewrite negate_oid|]; apply alloc_oid. }
  assert (Hin : Dec.oid d ∈ seq next (length stubs)).
  { rewrite <- Hoid. apply list_elem_of_fmap. eauto. }
  apply elem_of_seq in Hin. lia.
Qed.

(** The single pass leaves a list of pairwise distinct objects, older
    than the counter it returns. *)
Lemma expand_spec_distinct (todo : list Dec.t) :
  forall done page next page' next' e,
    distinct_below next (done ++ todo) ->
    expand_spec macros done todo page next = (page', next', e) ->
    next <= next' /\ distinct_below next' (Page.decorators page').
Proof.
  induction todo as [|d rest IH]; intros done page next page' next' e Hd; simpl.
  - intros [= <- <- _]. rewrite app_nil_r in Hd. split; [lia|exact Hd].
  - destruct (Dec.is_mac d).
    + destruct (registry_get macros (Dec.name d)) as [impl|m|];
        [|intros [= <- <- _]; split; [lia|exact Hd]..].
      * set (stubs := impl (Page.set_decorators (done ++ d :: rest) page) d).
        rewrite <- (replacement_alloc d next stubs).
        intros H. apply IH in H; [destruct H; split; [lia|auto]|].
        apply distinct_below_app in Hd as (Hdone & Hrest & Hx).
        apply (distinct_below_app _ [d] rest) in Hrest as (_ & Hrest & _).
        rewrite <- app_assoc. apply distinct_below_app. split; [|split].
        -- eapply distinct_below_mono; [|exact Hdone]. lia.
        -- apply distinct_below_app. split; [apply distinct_below_alloc|].
           split; [eapply distinct_below_mono; [|exact Hrest]; lia|].
           intros d1 d2 H1 H2. apply alloc_above in H1.
           pose proof (distinct_below_lt _ _ _ Hrest H2). lia.
        -- intros d1 d2 H1 H2. apply elem_of_app in H2 as [H2|H2].
           ++ apply alloc_above in H2.
              pose proof (distinct_below_lt _ _ _ Hdone H1). lia.
           ++ apply Hx; [exact H1|]. now right.
    + intros H. apply IH in H; [exact H|].
      rewrite <- app_assoc. exact Hd.
Qed.

Lemma survivors_from_sublist (l : list Dec.t) :
  forall seen, survivors_from seen l `sublist_of` l.
Proof.
  induction l as [|d r IH]; intros seen; simpl; [constructor|].
  destruct (struck (seen ++ [d]) d).
  - apply sublist_cons. apply IH.
  - apply sublist_skip. apply IH.
Qed.

Lemma invoke_decorators (ds : list Dec.t) :
  forall page page' e,
    invoke decorators ds page = (page', e) ->
    Page.decorators page' = Page.decorators page.
Proof.
  induction ds as [|d rest IH]; intros page page' e; simpl.
  - now intros [= <- _].
  - destruct (registry_get decorators (Dec.name d)) as [impl|[]|];
      try (now intros [= <- _]); intros H; apply IH in H; exact H.
Qed.

(** On a page of pairwise distinct objects, [resolve] is the single-pass
    expansion, followed by the removal of the struck entries and by the
    calls of the implementations on what is left. *)
Lemma resolve_as_spec (page : Page.t) (next : nat) :
  distinct_below next (Page.decorators page) ->
  resolve decorators macros page next
  = match expand_spec macros [] (Page.decorators page) page next with
    | (page1, next1, Some e) => (page1, next1, Some e)
    | (page1, next1, None) =>
        let ds := survivors (Page.decorators page1) in
        match invoke decorators ds (Page.set_decorators ds page1) with
        | (page2, Some e) => (page2, next1, Some e)
        | (page2, None) => (Page.set_decorators [] page2, next1, None)
        end
    end.
Proof.
  intros H. unfold resolve.
  assert (Hexp : expand macros
                   (filter (fun d => Is_true (Dec.is_mac d)) (Page.decorators page))
                   page next
                 = expand_spec macros [] (Page.decorators page) page next).
  { rewrite <- (expand_as_spec macros (Page.decorators page) [] page next H)
      by constructor.
    destruct page; reflexivity. }
  rewrite Hexp.
  destruct (expand_spec macros [] (Page.decorators page) page next)
    as [[page1 next1] [e|]]; [reflexivity|].
  rewrite cancel_returns. reflexivity.
Qed.

(** [resolve] leaves a page of pairwise distinct objects, whether it
    returns or throws. *)
Lemma resolve_distinct (page page' : Page.t) (next next' : nat) (e : option Error) :
  distinct_below next (Page.decorators page) ->
  resolve decorators macros page next = (page', next', e) ->
  next <= next' /\ distinct_below next' (Page.decorators page').
Proof.
  intros H. rewrite (resolve_as_spec page next H).
  destruct (expand_spec macros [] (Page.decorators page) page next)
    as [[page1 next1] e1] eqn:Hexp.
  apply expand_spec_distinct in Hexp as [Hle Hd]; [|exact H].
  destruct e1 as [e1|].
  - intros [= <- <- _]. now split.
  - cbv zeta.
    destruct (invoke decorators _ _) as [page2 [e2|]] eqn:Hinv;
      intros [= <- <- _]; (split; [exact Hle|]).
    + apply invoke_decorators in Hinv. rewrite Hinv. simpl.
      eapply distinct_below_submseteq; [|exact Hd].
      apply sublist_submseteq, survivors_from_sublist.
    + apply distinct_below_nil.
Qed.

Lemma build_pages_distinct (pages : list Page.t) :
  forall next pages' next' e,
    Forall (fun pg => distinct_below next (Page.decorators pg)) pages ->
    build_pages decorators macros pages next = (pages', next', e) ->
    next <= next'
    /\ Forall (fun pg => distinct_below next' (Page.decorators pg)) pages'.
Proof.
  induction pages as [|pg pages IH]; intros next pages' next' e Hall; simpl.
  - intros [= <- <- _]. split; [lia|constructor].
  - apply Forall_cons in Hall as [Hpg Hall].
    destruct (resolve decorators macros pg next) as [[pg1 nx1] e1] eqn:Hres.
    apply resolve_distinct in Hres as [Hle Hd]; [|exact Hpg].
    assert (Hall1 : Forall (fun pg => distinct_below nx1 (Page.decorators pg)) pages).
    { eapply Forall_impl; [exact Hall|]. intros x. now apply distinct_below_mono. }
    destruct e1 as [e1|].
    + intros [= <- <- _]. split; [exact Hle|]. now apply Forall_cons.
    + destruct (build_pages decorators macros pages nx1)
        as [[rest' nx2] e2] eqn:Hrest.
      intros [= <- <- _]. apply IH in Hrest as [Hle2 Hrest]; [|exact Hall1].
      split; [lia|]. apply Forall_cons. split; [|exact Hrest].
      eapply distinct_below_mono; [|exact Hd]. lia.
Qed.

Lemma build_namespaces_distinct (nss : list Namespace.t) :
  forall next nss' next' e,
    Forall (distinct_below next) (lists_of nss) ->
    build_namespaces decorators macros nss next = (nss', next', e) ->
    next <= next' /\ Forall (distinct_below next') (lists_of nss').
Proof.
  induction nss as [|ns nss IH]; intros next nss' next' e Hall; simpl.
  - intros [= <- <- _]. split; [lia|constructor].
  - rewrite lists_of_cons in Hall. apply Forall_app in Hall as [Hns Hall].
    assert (Hpages : Forall (fun pg => distinct_below next (Page.decorators pg))
                       (Namespace.pages ns)).
    { apply Forall_forall. intros pg Hpg. rewrite Forall_forall in Hns.
      apply Hns. apply list_elem_of_fmap. eauto. }
    destruct (build_pages decorators macros (Namespace.pages ns) next)
      as [[pages1 nx1] e1] eqn:Hb.
    apply build_pages_distinct in Hb as [Hle Hd]; [|exact Hpages].
    assert (Hd' : forall m, nx1 <= m ->
              Forall (distinct_below m) (map Page.decorators pages1)).
    { intros m Hm. apply Forall_forall. intros l Hl.
      apply list_elem_of_fmap in Hl as (pg & -> & Hpg).
      rewrite Forall_forall in Hd. eapply distinct_below_mono; [exact Hm|].
      now apply Hd. }
    destruct e1 as [e1|].
    + intros [= <- <- _]. split; [exact Hle|].
      rewrite lists_of_cons. simpl. apply Forall_app. split; [now apply Hd'|].
      eapply Forall_impl; [exact Hall|]. intros x. now apply distinct_below_mono.
    + destruct (build_namespaces decorators macros nss nx1)
        as [[rest' nx2] e2] eqn:Hrest.
      intros [= <- <- _].
      apply IH in Hrest as [Hle2 Hrest].
      * split; [lia|]. rewrite lists_of_cons. simpl.
        apply Forall_app. split; [now apply Hd'|exact Hrest].
      * eapply Forall_impl; [exact Hall|]. intros x. now apply distinct_below_mono.
Qed.

End Resolved.

(** Whether it returns or throws, [build] leaves a document whose pages
    hold pairwise distinct decorator objects, if it was given one. *)
Lemma build_pages_ok (this : Pages.t) :
  pages_ok this -> pages_ok (build this).1.
Proof.
  intros H. unfold build.
  destruct (build_namespaces _ _ _ _) as [[nss next] e] eqn:Hb.
  apply build_namespaces_distinct in Hb as [_ Hb]; [|exact H].
  exact Hb.
Qed.

(** ** A user parameter named like an internal flag *)

Section NamedNot.

Lemma identifier_is_no_operator (s : string) :
  JS.is_identifier s = true ->
  String.eqb s "%" = false /\ String.eqb s "!" = false
  /\ String.eqb s ">" = false /\ String.eqb s "}" = false.
Proof.
  intros H. repeat split.
  all: match goal with
       | |- String.eqb ?x ?c = false =>
           destruct (String.eqb x c) eqn:E; [|reflexivity];
           apply String.eqb_eq in E; subst x; discriminate H
       end.
Qed.

(** One named parameter of a parameter list. *)
Lemma params_named (tk eq v : Token.t) (rest : list Token.t)
  (k : nat) (dec : Dec.t) :
  Token.isIdentifier tk = true ->
  Token.val eq = "=" ->
  Token.eof v = false -> Token.isString v = true ->
  params (tk :: eq :: v :: rest) k dec
  = params rest (k + 3)
      (Dec.set_props
         (assign (Token.val tk) (JS.VStr (JS.slice_1_m1 (Token.val v)))) dec).
Proof.
  intros Hid Heq Heof Hstr. simpl.
  destruct (identifier_is_no_operator _ Hid) as (_ & _ & Hgt & _).
  rewrite Hgt, Hid, Heq. simpl.
  unfold resolveValue. rewrite Heof, Hstr. reflexivity.
Qed.

(** The declaration [%name<__not="value">] in a namespace body: the
    decorator object that goes into the local buffer has the value of
    the parameter under the key [__not] of its [props], the key of the
    flag that [-] sets. *)
Lemma declaration_with_parameter_not
  (tokens : list Token.t) (props : option Props) (s : PState) (n : nat)
  (t0 t1 t2 t3 t4 t5 t6 : Token.t) :
  state s = ParseState.Namespace -> namespace s = Some n ->
  drop (i s) tokens = t0 :: t1 :: t2 :: t3 :: t4 :: t5 :: t6 :: drop (i s + 7) tokens ->
  Token.val t0 = "%" ->
  Token.isIdentifier t1 = true -> Token.val t1 <> "-" ->
  Token.val t2 = "<" ->
  Token.val t3 = "__not" -> Token.val t4 = "=" ->
  Token.eof t5 = false -> Token.isString t5 = true ->
  Token.val t6 = ">" ->
  step tokens props s
  = Ok (Continue
          (mkP (i s + 6) ParseState.Namespace (Some n) (page s)
             (decs s
                ++ [Dec.mk (next_oid s) (Token.loc t0) (Token.val t1)
                      {["__not" := JS.VStr (JS.slice_1_m1 (Token.val t5))]} []])
             (groupDecs s) (globDecs s) (namespaces s) (S (next_oid s)))).
Proof.
  intros Hst Hn Hdrop H0 H1 H1' H2 H3 H4 H5 H5' H6.
  assert (Hlk : forall k t, (t0 :: t1 :: t2 :: t3 :: t4 :: t5 :: t6
                                :: drop (i s + 7) tokens) !! k = Some t ->
                            tokens !! (i s + k) = Some t).
  { intros k t Hk. rewrite <- Hdrop in Hk. now rewrite lookup_drop in Hk. }
  pose proof (Hlk 0 t0 eq_refl) as L0. rewrite Nat.add_0_r in L0.
  pose proof (Hlk 1 t1 eq_refl) as L1. rewrite Nat.add_1_r in L1.
  pose proof (Hlk 2 t2 eq_refl) as L2.
  replace (i s + 2) with (S (S (i s))) in L2 by lia.
  destruct (identifier_is_no_operator _ H1) as (E1 & E2 & E3 & E4).
  assert (E5 : String.eqb (Token.val t1) "-" = false)
    by (now apply String.eqb_neq).
  assert (Hrest : drop (S (i s) + 2) tokens
                  = t3 :: t4 :: t5 :: t6 :: drop (i s + 7) tokens).
  { replace (S (i s) + 2) with (i s + 3) by lia.
    rewrite <- drop_drop, Hdrop. reflexivity. }
  unfold step. rewrite (at_index_Some _ _ _ L0). cbn [mbind result_bind].
  rewrite Hst. unfold step_Namespace. rewrite Hn.
  assert (F0 : String.eqb (Token.val t0) "}" = false) by (rewrite H0; reflexivity).
  assert (F1 : Token.isIdentifier t0 = false)
    by (unfold Token.isIdentifier; rewrite H0; reflexivity).
  assert (F2 : Token.isPage t0 = false)
    by (unfold Token.isPage; rewrite H0; reflexivity).
  assert (F3 : String.eqb (Token.val t0) "%" = true) by (rewrite H0; reflexivity).
  rewrite F0, F1, F2, F3.
  unfold declaration. cbv zeta.
  rewrite (at_index_Some _ _ _ L1). cbn [mbind result_bind].
  rewrite E1. cbv iota.
  rewrite (at_index_Some _ _ _ L1). cbn [mbind result_bind].
  rewrite E5. cbv iota.
  rewrite (at_index_Some _ _ _ L1). cbn [mbind result_bind].
  rewrite E2. cbv iota.
  rewrite (at_index_Some _ _ _ L1). cbn [mbind result_bind].
  rewrite H1. cbn [negb].
  rewrite (at_index_Some _ _ _ L2). cbn [mbind result_bind].
  rewrite H2. cbn [String.eqb Ascii.eqb Bool.eqb andb].
  rewrite Hrest.
  assert (H3' : Token.isIdentifier t3 = true)
    by (unfold Token.isIdentifier; rewrite H3; reflexivity).
  rewrite (params_named t3 t4 t5 _ _ _ H3' H4 H5 H5').
  cbn [params]. rewrite H6. cbn [String.eqb Ascii.eqb Bool.eqb andb].
  cbn [mbind result_bind]. rewrite H3.
  replace (S (S (S (i s)) + 3)) with (i s + 6) by lia.
  rewrite Hst, Hn. reflexivity.
Qed.







End NamedNot.

Lemma not_sample : Some not_page = first_page not_text.
Proof. vm_compute. reflexivity. Qed.


(** The sample resolved with both names registered: the two decorators
    named [a] are gone before the implementations are called, and only the
    one of [b] leaves its mark. *)
Example not_sample_resolved :
  let '(page, next, e) := resolve mark_registry ∅ not_page 3 in
  (map_to_list (Page.props page), Page.decorators page, e)
  = ([("b", JS.VBool true)], [], None).
Proof. vm_compute. reflexivity. Qed.


(** * Further properties of the code *)

(** ** The tokenizer *)


(** ** The classes of tokens *)

(** X1.  The four classes of tokens exclude one another: a token is a
    namespace header, a page header, an identifier or a string literal, or
    none of them, and the end marker is none of them. *)
Theorem token_classes_exclusive (t : Token.t) :
  Nat.b2n (Token.isNamespace t) + Nat.b2n (Token.isPage t)
  + Nat.b2n (Token.isIdentifier t) + Nat.b2n (Token.isString t) <= 1
  /\ forall col row s,
       Token.isNamespace (Token.new_EOF col row s) = false
       /\ Token.isPage (Token.new_EOF col row s) = false
       /\ Token.isIdentifier (Token.new_EOF col row s) = false
       /\ Token.isString (Token.new_EOF col row s) = false.
Proof.
  split; [|intros; repeat split].
  unfold Token.isNamespace, Token.isPage, Token.isIdentifier, Token.isString.
  destruct (Token.val t) as [|a r]; [simpl; lia|].
  unfold JS.is_identifier, JS.startsWith.
  destruct a as [[] [] [] [] [] [] [] []]; simpl;
    repeat match goal with
           | |- context [Nat.b2n ?b] => destruct b; cbn [Nat.b2n]
           end; lia.
Qed.

(** ** What the tokenizer puts out *)

Lemma scanned_wider (s : Source.t) (lo hi lo' hi' : Z) (t : Token.t) :
  (lo' <= lo)%Z -> (hi <= hi')%Z -> scanned s lo hi t -> scanned s lo' hi' t.
Proof.
  intros Hlo Hhi (col & row & tk & -> & Hne & Hrow).
  exists col, row, tk. repeat split; try assumption; lia.
Qed.

Lemma pushtk_scanned (s : Source.t) (tk : string) (x : Tokenizer.st) :
  tk <> EmptyString ->
  exists t, Tokenizer.tokens (Tokenizer.pushtk s tk x) = Tokenizer.tokens x ++ [t]
            /\ scanned s (Tokenizer.row x) (Tokenizer.row x) t
            /\ Token.val t = tk.
Proof.
  intros Hne. eexists. split; [reflexivity|]. split; [|reflexivity].
  eexists _, _, _. split; [reflexivity|]. split; [exact Hne|lia].
Qed.

(** [pushtoken] puts out the pending text, if there is any, as one token
    on the current row. *)
Lemma pushtoken_scanned (s : Source.t) (tt : string) (x : Tokenizer.st) :
  exists news,
    Tokenizer.tokens (Tokenizer.pushtoken s tt x) = Tokenizer.tokens x ++ news
    /\ Forall (scanned s (Tokenizer.row x) (Tokenizer.row x)) news
    /\ Tokenizer.row (Tokenizer.pushtoken s tt x) = Tokenizer.row x
    /\ Tokenizer.t (Tokenizer.pushtoken s tt x) = EmptyString
    /\ token_chars news
       = if JS.nonempty (Tokenizer.t x)
         then list_ascii_of_string (Tokenizer.t x ++ tt) else [].
Proof.
  unfold Tokenizer.pushtoken.
  destruct (JS.nonempty (Tokenizer.t x)) eqn:Hne.
  - assert (Hne' : (Tokenizer.t x ++ tt)%string <> EmptyString).
    { destruct (Tokenizer.t x); [discriminate|]. discriminate. }
    destruct (pushtk_scanned s _ x Hne') as (t & Ht & Hs & Hv).
    exists [t]. simpl. repeat split; try assumption.
    + now apply Forall_singleton.
    + unfold token_chars. simpl. now rewrite Hv, app_nil_r.
  - exists []. simpl. rewrite app_nil_r. repeat split. constructor.
Qed.

Lemma list_ascii_app (a b : string) :
  list_ascii_of_string (a ++ b) = list_ascii_of_string a ++ list_ascii_of_string b.
Proof. induction a as [|c a IH]; simpl; [reflexivity|]. now rewrite IH. Qed.

Lemma nonempty_false (t : string) : JS.nonempty t = false -> t = EmptyString.
Proof. destruct t; [reflexivity|discriminate]. Qed.

(** One character: the tokens put out lie on the current row, the row
    moves on after a line feed, and of the text only a blank is lost. *)
Lemma step_scanned (s : Source.t) (x : Tokenizer.st) (c : ascii) :
  exists news,
    Tokenizer.tokens (Tokenizer.step s x c) = Tokenizer.tokens x ++ news
    /\ Forall (scanned s (Tokenizer.row x) (Tokenizer.row x)) news
    /\ Tokenizer.row (Tokenizer.step s x c)
       = (Tokenizer.row x + if Ascii.eqb c JS.lf then 1 else 0)%Z
    /\ squeeze (token_chars news
                ++ list_ascii_of_string (Tokenizer.t (Tokenizer.step s x c)))
       = squeeze (list_ascii_of_string (Tokenizer.t x) ++ [c]).
Proof.
  unfold Tokenizer.step.
  set (x1 := match Tokenizer.closer (Tokenizer.t x) with
             | Some close => _
             | None => _
             end).
  assert (H1 : exists news,
             Tokenizer.tokens x1 = Tokenizer.tokens x ++ news
             /\ Forall (scanned s (Tokenizer.row x) (Tokenizer.row x)) news
             /\ Tokenizer.row x1 = Tokenizer.row x
             /\ squeeze (token_chars news ++ list_ascii_of_string (Tokenizer.t x1))
                = squeeze (list_ascii_of_string (Tokenizer.t x) ++ [c])).
  { subst x1.
    destruct (Tokenizer.closer (Tokenizer.t x)) as [close|] eqn:Hclose.
    - assert (Ht : JS.nonempty (Tokenizer.t x) = true).
      { destruct (Tokenizer.t x); [discriminate|reflexivity]. }
      destruct (Ascii.eqb c close).
      + destruct (pushtoken_scanned s (JS.chr c) x)
          as (news & Htok & Hsc & Hrow & Hemp & Hch).
        exists news. rewrite Htok, Hrow, Hemp, Hch, Ht. simpl.
        rewrite app_nil_r, list_ascii_app. repeat split; auto.
      + exists []. simpl. rewrite app_nil_r, list_ascii_app.
        repeat split; auto.
    - destruct (JS.is_op c) eqn:Hop.
      + destruct (pushtoken_scanned s EmptyString x)
          as (news & Htok & Hsc & Hrow & Hemp & Hch).
        assert (Hc : JS.chr c <> EmptyString) by discriminate.
        destruct (pushtk_scanned s (JS.chr c) (Tokenizer.pushtoken s EmptyString x) Hc)
          as (t & Ht & Hs & Hv).
        exists (news ++ [t]). rewrite Ht, Htok, <- app_assoc.
        rewrite Hrow in Hs. repeat split.
        * apply Forall_app. split; [exact Hsc|]. now apply Forall_singleton.
        * simpl. exact Hrow.
        * cbn [Tokenizer.t Tokenizer.pushtk]. rewrite Hemp. unfold token_chars in *.
          rewrite flat_map_app, Hch. cbn [flat_map]. rewrite Hv, !app_nil_r.
          cbn [list_ascii_of_string JS.chr].
          destruct (JS.nonempty (Tokenizer.t x)) eqn:Hne.
          -- rewrite list_ascii_app. simpl. now rewrite app_nil_r.
          -- now rewrite (nonempty_false _ Hne).
      + destruct (JS.is_space c) eqn:Hsp.
        * destruct (pushtoken_scanned s EmptyString (Tokenizer.add_col (-1) x))
            as (news & Htok & Hsc & Hrow & Hemp & Hch).
          exists news.
          cbn [Tokenizer.tokens Tokenizer.t Tokenizer.row Tokenizer.add_col] in *.
          rewrite Htok, Hemp, Hch. repeat split; auto.
          unfold squeeze. rewrite !List.filter_app. simpl. rewrite Hsp. simpl.
          rewrite !app_nil_r.
          destruct (JS.nonempty (Tokenizer.t x)) eqn:Hne.
          -- rewrite list_ascii_app. simpl. now rewrite app_nil_r.
          -- now rewrite (nonempty_false _ Hne).
        * exists []. simpl. rewrite app_nil_r, list_ascii_app.
          repeat split; auto. }
  destruct H1 as (news & Htok & Hsc & Hrow & Hsq).
  exists news. destruct (Ascii.eqb c JS.lf); simpl; rewrite ?Hrow;
    repeat split; auto; lia.
Qed.

(** The scan of [body]: the tokens put out lie on the rows passed, the
    row moves on by the line feeds of [body], and only blanks are lost. *)
Lemma scan_scanned (s : Source.t) (body : string) :
  forall x : Tokenizer.st,
  exists news,
    Tokenizer.tokens (Tokenizer.scan s body x) = Tokenizer.tokens x ++ news
    /\ Forall (scanned s (Tokenizer.row x)
                 (Tokenizer.row x + Z.of_nat (count_lf body))) news
    /\ Tokenizer.row (Tokenizer.scan s body x)
       = (Tokenizer.row x + Z.of_nat (count_lf body))%Z
    /\ squeeze (token_chars news
                ++ list_ascii_of_string (Tokenizer.t (Tokenizer.scan s body x)))
       = squeeze (list_ascii_of_string (Tokenizer.t x) ++ list_ascii_of_string body).
Proof.
  unfold Tokenizer.scan.
  induction body as [|c body IH]; intros x; simpl.
  - exists []. rewrite !app_nil_r. repeat split; [constructor|lia].
  - destruct (step_scanned s x c) as (n1 & Htok1 & Hsc1 & Hrow1 & Hsq1).
    destruct (IH (Tokenizer.step s x c)) as (n2 & Htok2 & Hsc2 & Hrow2 & Hsq2).
    exists (n1 ++ n2). rewrite Htok2, Htok1, <- app_assoc.
    assert (Hlf : (0 <= (if Ascii.eqb c JS.lf then 1 else 0))%Z)
      by (destruct (Ascii.eqb c JS.lf); lia).
    repeat split.
    + apply Forall_app. split.
      * eapply Forall_impl; [exact Hsc1|]. intros t. apply scanned_wider; lia.
      * eapply Forall_impl; [exact Hsc2|]. intros t. apply scanned_wider.
        -- rewrite Hrow1. lia.
        -- rewrite Hrow1. destruct (Ascii.eqb c JS.lf); lia.
    + rewrite Hrow2, Hrow1. destruct (Ascii.eqb c JS.lf); lia.
    + unfold token_chars in *. rewrite flat_map_app, <- app_assoc.
      unfold squeeze in *. rewrite List.filter_app, Hsq2.
      rewrite <- List.filter_app, app_assoc, List.filter_app, Hsq1.
      rewrite <- !List.filter_app, <- !app_assoc. reflexivity.
Qed.

(** The tokens of a source: scanned tokens, then the end marker on the
    last row. *)
Lemma tokenize_scanned (source : Source.t) :
  exists toks col,
    tokenize source
    = toks ++ [Token.new_EOF col (Z.of_nat (count_lf (Source.body source))) source]
    /\ Forall (scanned source 0 (Z.of_nat (count_lf (Source.body source)))) toks
    /\ squeeze (token_chars toks)
       = squeeze (list_ascii_of_string (Source.body source)).
Proof.
  unfold tokenize.
  destruct (scan_scanned source (Source.body source) Tokenizer.init)
    as (n1 & Htok1 & Hsc1 & Hrow1 & Hsq1).
  set (x := Tokenizer.scan source (Source.body source) Tokenizer.init) in *.
  destruct (pushtoken_scanned source EmptyString x)
    as (n2 & Htok2 & Hsc2 & Hrow2 & Hemp2 & Hch2).
  simpl in Htok1, Hsc1, Hrow1, Hsq1.
  exists (n1 ++ n2), (Tokenizer.col (Tokenizer.pushtoken source EmptyString x)).
  rewrite Htok2, Htok1, Hrow2, Hrow1. simpl. repeat split.
  - apply Forall_app. split; [exact Hsc1|].
    eapply Forall_impl; [exact Hsc2|]. intros t. rewrite Hrow1.
    apply scanned_wider; lia.
  - unfold token_chars in *. rewrite flat_map_app, Hch2.
    rewrite <- Hsq1. unfold squeeze. rewrite !List.filter_app. f_equal.
    destruct (JS.nonempty (Tokenizer.t x)) eqn:Hne.
    + rewrite list_ascii_app. simpl. now rewrite app_nil_r.
    + now rewrite (nonempty_false _ Hne).
Qed.

Lemma split_lines_length (s : string) :
  length (JS.split_lines s) = S (count_lf s).
Proof.
  induction s as [|a r IH]; [reflexivity|]. simpl.
  destruct (Ascii.eqb a JS.lf); simpl; [now rewrite IH|].
  destruct (JS.split_lines r) as [|l ls]; [discriminate|]. simpl in *. lia.
Qed.

(** A location on a row of its source with a length that is not negative
    gives a located error or a [RangeError]. *)
Lemma diagnostic_on_row (mk : Diag -> Error) (loc : Loc.t) (message hint : string) :
  (0 <= Loc.row loc <= Z.of_nat (count_lf (Source.body (Loc.src loc))))%Z ->
  (0 <= Loc.len loc)%Z ->
  diagnostic mk loc message hint = RangeError
  \/ exists line caret,
       diagnostic mk loc message hint = mk (mkDiag message loc line caret hint).
Proof.
  intros Hrow Hlen.
  destruct (JS.split_lines (Source.body (Loc.src loc)) !! Z.to_nat (Loc.row loc))
    as [trueline|] eqn:Hline.
  - rewrite (diagnostic_cases mk loc message hint (proj1 Hrow) Hlen trueline Hline).
    cbv zeta. destruct (_ <? 0)%Z; [now left|]. right. eauto.
  - apply lookup_ge_None in Hline. rewrite split_lines_length in Hline. lia.
Qed.

Lemma scanned_token (s : Source.t) (lo hi : Z) (t : Token.t) :
  scanned s lo hi t ->
  Token.eof t = false /\ Token.val t <> EmptyString
  /\ Loc.src (Token.loc t) = s
  /\ (lo <= Loc.row (Token.loc t) <= hi)%Z
  /\ Loc.len (Token.loc t) = JS.len (Token.val t).
Proof.
  intros (col & row & tk & -> & Hne & Hrow). simpl. repeat split; auto; lia.
Qed.

(** X2.  The tokens of a source are tokens with a value that is not
    empty, each on a row of the source and as long as its value, followed
    by one end marker, which lies on the last row. *)
Theorem tokenize_ends_with_marker (source : Source.t) :
  exists toks col,
    tokenize source
    = toks ++ [Token.new_EOF col (Z.of_nat (count_lf (Source.body source))) source]
    /\ Forall (fun t =>
                 Token.eof t = false /\ Token.val t <> EmptyString
                 /\ Loc.src (Token.loc t) = source
                 /\ (0 <= Loc.row (Token.loc t)
                     <= Z.of_nat (count_lf (Source.body source)))%Z
                 /\ Loc.len (Token.loc t) = JS.len (Token.val t)) toks.
Proof.
  destruct (tokenize_scanned source) as (toks & col & Htok & Hsc & _).
  exists toks, col. split; [exact Htok|].
  eapply Forall_impl; [exact Hsc|]. intros t. apply scanned_token.
Qed.

(** X3.  Tokenizing loses blanks only: the characters of the values of
    the tokens that are no blanks are, in order, the characters of the
    source that are no blanks. *)
Theorem tokenize_loses_blanks_only (source : Source.t) :
  squeeze (token_chars (tokenize source))
  = squeeze (list_ascii_of_string (Source.body source)).
Proof.
  destruct (tokenize_scanned source) as (toks & col & Htok & _ & Hsq).
  rewrite Htok. unfold token_chars in *. rewrite flat_map_app.
  unfold squeeze in *. rewrite List.filter_app, Hsq. simpl.
  now rewrite app_nil_r.
Qed.

Lemma token_location_ok (source : Source.t) :
  Forall (fun t =>
            Loc.src (Token.loc t) = source
            /\ (0 <= Loc.row (Token.loc t)
                <= Z.of_nat (count_lf (Source.body source)))%Z
            /\ (0 <= Loc.len (Token.loc t))%Z)
    (tokenize source).
Proof.
  destruct (tokenize_scanned source) as (toks & col & Htok & Hsc & _).
  rewrite Htok. apply Forall_app. split.
  - eapply Forall_impl; [exact Hsc|]. intros t Ht.
    apply scanned_token in Ht as (_ & _ & Hsrc & Hrow & Hlen).
    rewrite Hlen. unfold JS.len. repeat split; auto; lia.
  - apply Forall_singleton. simpl. unfold JS.len.
    repeat split; try reflexivity; lia.
Qed.

(** X4.  An error built by [parseError] at the location of a token of the
    source is a syntax error at that location or a [RangeError]: the row
    of a token is always a line of the source. *)
Theorem token_error_is_located_or_range (source : Source.t) :
  Forall (fun t =>
            forall message hint,
              parseError (Token.loc t) message hint = RangeError
              \/ exists line caret,
                   parseError (Token.loc t) message hint
                   = SyntaxError (mkDiag message (Token.loc t) line caret hint))
    (tokenize source).
Proof.
  eapply Forall_impl; [apply token_location_ok|].
  intros t (Hsrc & Hrow & Hlen) message hint.
  apply diagnostic_on_row; [rewrite Hsrc; exact Hrow|exact Hlen].
Qed.

(** ** The parser reads no token behind the end marker *)

Section InRange.
Variable tokens : list Token.t.
Variable props : option Props.
Hypothesis Hended : well_ended tokens.

Lemma next_token (k : nat) (t : Token.t) :
  tokens !! k = Some t -> Token.val t <> " " ->
  exists t', tokens !! S k = Some t'.
Proof.
  intros Hk Hval. destruct Hended as (pre & e & Htok & He).
  assert (Hlt : S k < length tokens).
  { rewrite Htok, length_app. simpl.
    destruct (decide (k < length pre)) as [Hlt|Hge]; [lia|].
    exfalso. apply Hval. rewrite Htok in Hk.
    rewrite lookup_app_r in Hk by lia.
    destruct (k - length pre) as [|j] eqn:E; simpl in Hk; [|discriminate].
    inversion Hk; subst. exact He. }
  apply lookup_lt_is_Some_2 in Hlt as [t' Ht']. eauto.
Qed.

Lemma next_token_or_same (k : nat) (t : Token.t) (b : bool) :
  tokens !! k = Some t -> (b = true -> Token.val t <> " ") ->
  exists t', tokens !! (if b then S k else k) = Some t'.
Proof.
  intros Hk Hb. destruct b; [|eauto]. eapply next_token; eauto.
Qed.

Hypothesis Hloc : Forall locatable tokens.

Lemma lookup_locatable (k : nat) (t : Token.t) :
  tokens !! k = Some t -> locatable t.
Proof.
  intros Hk. rewrite Forall_forall in Hloc. apply Hloc.
  eapply list_elem_of_lookup_2. exact Hk.
Qed.

Lemma eqb_not_marker (t : Token.t) (c : string) :
  String.eqb (Token.val t) c = true -> c <> " " -> Token.val t <> " ".
Proof. intros H Hc E. apply String.eqb_eq in H. congruence. Qed.

Lemma identifier_not_marker (t : Token.t) :
  Token.isIdentifier t = true -> Token.val t <> " ".
Proof. unfold Token.isIdentifier. intros H E. rewrite E in H. discriminate. Qed.

Lemma namespace_not_marker (t : Token.t) :
  Token.isNamespace t = true -> Token.val t <> " ".
Proof. unfold Token.isNamespace. intros H E. rewrite E in H. discriminate. Qed.

Lemma page_not_marker (t : Token.t) :
  Token.isPage t = true -> Token.val t <> " ".
Proof. unfold Token.isPage. intros H E. rewrite E in H. discriminate. Qed.

Lemma string_not_marker (t : Token.t) :
  Token.isString t = true -> Token.val t <> " ".
Proof. unfold Token.isString. intros H E. rewrite E in H. discriminate. Qed.

Lemma resolveValue_thrown (v : Token.t) (e : Error) :
  locatable v -> resolveValue v = Throw e -> syntax_or_range e.
Proof.
  intros Hv. unfold resolveValue.
  destruct (Token.eof v); [intros [= <-]; apply Hv|].
  destruct (Token.isString v); [discriminate|].
  destruct (Token.isIdentifier v); intros [= <-]; apply Hv.
Qed.

Lemma resolveValue_not_marker (v : Token.t) (value : JS.value) :
  resolveValue v = Ok value -> Token.val v <> " ".
Proof.
  unfold resolveValue. destruct (Token.eof v); [discriminate|].
  destruct (Token.isString v) eqn:E; [intros _; now apply string_not_marker|].
  destruct (Token.isIdentifier v); discriminate.
Qed.

Lemma well_ended_tail (t : Token.t) (l : list Token.t) :
  well_ended (t :: l) -> Token.val t <> " " -> well_ended l.
Proof.
  intros (pre & e & Heq & He) Hval. destruct pre as [|p pre]; simpl in Heq.
  - inversion Heq; subst. contradiction.
  - inversion Heq; subst. exists pre, e. now split.
Qed.

Lemma well_ended_not_nil : ~ well_ended [].
Proof. intros (pre & e & Heq & _). destruct pre; discriminate. Qed.

(** The loop over a parameter list throws syntax errors only. *)
Lemma params_thrown (rest : list Token.t) :
  forall (k : nat) (dec : Dec.t) (e : Error),
    well_ended rest -> Forall locatable rest ->
    params rest k dec = Throw e -> syntax_or_range e.
Proof.
  remember (length rest) as m eqn:Hm.
  revert rest Hm. induction m as [m IH] using lt_wf_ind.
  intros rest Hm k dec e Hwe Hl H.
  destruct rest as [|tk rest1]; [now apply well_ended_not_nil in Hwe|].
  apply Forall_cons in Hl as [Htk Hl1]. simpl in H.
  destruct (String.eqb (Token.val tk) ">"); [discriminate|].
  destruct (Token.isIdentifier tk) eqn:Hid.
  - apply well_ended_tail in Hwe; [|now apply identifier_not_marker].
    destruct rest1 as [|eq rest2]; [now apply well_ended_not_nil in Hwe|].
    apply Forall_cons in Hl1 as [Heq Hl2].
    destruct (String.eqb (Token.val eq) "=") eqn:Eeq; simpl in H;
      [|inversion H; apply Heq].
    apply well_ended_tail in Hwe; [|eapply eqb_not_marker; [exact Eeq|discriminate]].
    destruct rest2 as [|v rest3]; [now apply well_ended_not_nil in Hwe|].
    apply Forall_cons in Hl2 as [Hv Hl3].
    destruct (resolveValue v) as [value|e'] eqn:Ev; simpl in H.
    + eapply (IH (length rest3)); [subst m; simpl; lia|reflexivity| | |exact H].
      * eapply well_ended_tail; [exact Hwe|].
        eapply resolveValue_not_marker. exact Ev.
      * exact Hl3.
    + inversion H; subst. eapply resolveValue_thrown; eassumption.
  - destruct (resolveValue tk) as [value|e'] eqn:Ev; simpl in H.
    + eapply (IH (length rest1)); [subst m; simpl; lia|reflexivity| | |exact H].
      * eapply well_ended_tail; [exact Hwe|].
        eapply resolveValue_not_marker. exact Ev.
      * exact Hl1.
    + inversion H; subst. eapply resolveValue_thrown; eassumption.
Qed.

Lemma well_ended_drop (k : nat) :
  k < length tokens -> well_ended (drop k tokens).
Proof.
  intros Hk. destruct Hended as (pre & e & Htok & He).
  exists (drop k pre), e. split; [|exact He].
  rewrite Htok. rewrite Htok, length_app in Hk. simpl in Hk.
  rewrite drop_app_le by lia. reflexivity.
Qed.

Lemma locatable_drop (k : nat) : Forall locatable (drop k tokens).
Proof. apply Forall_drop. exact Hloc. Qed.

(** A declaration throws syntax errors only. *)
Lemma declaration_thrown (token : Token.t) (s : PState) (e : Error) :
  tokens !! i s = Some token -> String.eqb (Token.val token) "%" = true ->
  declaration tokens token s = Throw e -> syntax_or_range e.
Proof.
  intros Htok Hpc. unfold declaration. cbv zeta.
  destruct (next_token _ _ Htok) as [t1 H1];
    [eapply eqb_not_marker; [exact Hpc|discriminate]|].
  rewrite (at_index_Some _ _ _ H1). cbn [mbind result_bind].
  set (glb := String.eqb (Token.val t1) "%").
  destruct (next_token_or_same _ _ glb H1) as [t2 H2].
  { intros E. eapply eqb_not_marker; [exact E|discriminate]. }
  rewrite (at_index_Some _ _ _ H2). cbn [mbind result_bind].
  set (not := String.eqb (Token.val t2) "-").
  destruct (next_token_or_same _ _ not H2) as [t3 H3].
  { intros E. eapply eqb_not_marker; [exact E|discriminate]. }
  rewrite (at_index_Some _ _ _ H3). cbn [mbind result_bind].
  set (mac := String.eqb (Token.val t3) "!").
  destruct (next_token_or_same _ _ mac H3) as [t4 H4].
  { intros E. eapply eqb_not_marker; [exact E|discriminate]. }
  rewrite (at_index_Some _ _ _ H4). cbn [mbind result_bind].
  destruct (Token.isIdentifier t4) eqn:Hid; cbn [negb];
    [|intros [= <-]; eapply lookup_locatable; exact H4].
  destruct (next_token _ _ H4) as [nx Hnx]; [now apply identifier_not_marker|].
  rewrite (at_index_Some _ _ _ Hnx). cbn [mbind result_bind].
  destruct (String.eqb (Token.val nx) "<") eqn:Hlt.
  - destruct not.
    + cbn [mbind result_bind]. intros [= <-].
      eapply lookup_locatable. exact Hnx.
    + match goal with
      | |- context [params ?r ?k ?d] => destruct (params r k d) as [[j d']|e'] eqn:Hp
      end; cbn [mbind result_bind]; [discriminate|].
      intros [= <-]. eapply params_thrown; [| |exact Hp].
      * apply well_ended_drop.
        destruct (next_token _ _ Hnx) as [t' Ht'];
          [eapply eqb_not_marker; [exact Hlt|discriminate]|].
        apply lookup_lt_Some in Ht'. lia.
      * apply locatable_drop.
  - cbn [mbind result_bind]. discriminate.
Qed.

(** An iteration throws syntax errors only, when the reference
    [namespace] is one of [this.namespaces]. *)
Lemma step_thrown (old : list Namespace.t) (s : PState) (e : Error) :
  refs_ok old s -> i s < length tokens ->
  step tokens props s = Throw e -> syntax_or_range e.
Proof.
  intros Hrefs Hi H. unfold step in H.
  apply lookup_lt_is_Some_2 in Hi as [token Htok].
  rewrite (at_index_Some _ _ _ Htok) in H. cbn [mbind result_bind] in H.
  pose proof (lookup_locatable _ _ Htok) as Ltok.
  destruct (state s).
  - unfold step_Top in H.
    destruct (Token.isNamespace token) eqn:Hns.
    + destruct (negb _); [inversion H; apply Ltok|].
      destruct (next_token _ _ Htok) as [nx Hnx]; [now apply namespace_not_marker|].
      rewrite (at_index_Some _ _ _ Hnx) in H. cbn [mbind result_bind] in H.
      destruct (negb _); [|discriminate].
      inversion H. eapply lookup_locatable. exact Hnx.
    + destruct (Token.eof token); [discriminate|]. inversion H. apply Ltok.
  - unfold step_Namespace in H.
    destruct (namespace s) as [n|] eqn:Hn; [|inversion H; apply Ltok].
    destruct (String.eqb (Token.val token) "}"); [destruct (groupDecs s); discriminate|].
    destruct (Token.isIdentifier token) eqn:Hid.
    { destruct (next_token _ _ Htok) as [nx Hnx]; [now apply identifier_not_marker|].
      rewrite (at_index_Some _ _ _ Hnx) in H. cbn [mbind result_bind] in H.
      destruct (String.eqb (Token.val nx) "=") eqn:Heq; cbn [negb] in H;
        [|inversion H; eapply lookup_locatable; exact Hnx].
      destruct (next_token _ _ Hnx) as [v Hv];
        [eapply eqb_not_marker; [exact Heq|discriminate]|].
      replace (i s + 2) with (S (S (i s))) in H by lia.
      rewrite (at_index_Some _ _ _ Hv) in H. cbn [mbind result_bind] in H.
      destruct (resolveValue v) as [value|e'] eqn:Ev; cbn [mbind result_bind] in H;
        [discriminate|].
      inversion H; subst. eapply resolveValue_thrown; [|exact Ev].
      eapply lookup_locatable. exact Hv. }
    destruct (Token.isPage token) eqn:Hpg.
    { destruct (next_token _ _ Htok) as [nx Hnx]; [now apply page_not_marker|].
      rewrite (at_index_Some _ _ _ Hnx) in H. cbn [mbind result_bind] in H.
      destruct (negb _); [inversion H; eapply lookup_locatable; exact Hnx|].
      destruct Hrefs as [_ Hnew _ _]. specialize (Hnew n Hn).
      destruct (lookup_lt_is_Some_2 (namespaces s) n) as [ns Hns]; [lia|].
      rewrite (at_index_Some _ _ _ Hns) in H. discriminate. }
    destruct (String.eqb (Token.val token) "%") eqn:Hpc.
    { eapply declaration_thrown; eassumption. }
    destruct (String.eqb (Token.val token) "{").
    { destruct (decs s); [inversion H; apply Ltok|discriminate]. }
    destruct (Token.isNamespace token); [inversion H; apply Ltok|].
    destruct (Token.eof token); inversion H; apply Ltok.
  - unfold step_Page in H.
    destruct (page s) as [r|]; [|inversion H; apply Ltok].
    destruct (String.eqb (Token.val token) "}"); [discriminate|].
    destruct (Token.isIdentifier token) eqn:Hid.
    { destruct (next_token _ _ Htok) as [nx Hnx]; [now apply identifier_not_marker|].
      rewrite (at_index_Some _ _ _ Hnx) in H. cbn [mbind result_bind] in H.
      destruct (String.eqb (Token.val nx) "=") eqn:Heq; cbn [negb] in H;
        [|inversion H; eapply lookup_locatable; exact Hnx].
      destruct (next_token _ _ Hnx) as [v Hv];
        [eapply eqb_not_marker; [exact Heq|discriminate]|].
      replace (i s + 2) with (S (S (i s))) in H by lia.
      rewrite (at_index_Some _ _ _ Hv) in H. cbn [mbind result_bind] in H.
      destruct (resolveValue v) as [value|e'] eqn:Ev; cbn [mbind result_bind] in H;
        [discriminate|].
      inversion H; subst. eapply resolveValue_thrown; [|exact Ev].
      eapply lookup_locatable. exact Hv. }
    destruct (String.eqb (Token.val token) "@") eqn:Hat.
    { destruct (next_token _ _ Htok) as [t Ht];
        [eapply eqb_not_marker; [exact Hat|discriminate]|].
      rewrite (at_index_Some _ _ _ Ht) in H. cbn [mbind result_bind] in H.
      destruct (negb _); [|discriminate].
      inversion H. eapply lookup_locatable. exact Ht. }
    destruct (Token.isNamespace token); [inversion H; apply Ltok|].
    destruct (Token.isPage token); inversion H; apply Ltok.
Qed.

End InRange.

(** ** What a call of [add] does to [this.namespaces] *)

Section References.
Variable tokens : list Token.t.
Variable props : option Props.
Variable old : list Namespace.t.

Lemma refs_ok_altered (s s' : PState) (f : Namespace.t -> Namespace.t) (n : nat) :
  refs_ok old s -> length old <= n ->
  (forall ns, Namespace.name (f ns) = Namespace.name ns) ->
  namespaces s' = alter f n (namespaces s) ->
  namespace s' = namespace s ->
  (forall r, page s' = Some r -> length old <= r.1) ->
  refs_ok old s'.
Proof.
  intros [H1 H2 H3 H4] Hn Hf Hnss Hns Hpg. constructor.
  - rewrite Hnss, take_alter_ge by exact Hn. exact H1.
  - intros m Hm. rewrite Hnss, length_alter. apply H2. congruence.
  - exact Hpg.
  - rewrite Hnss, drop_alter_ge by exact Hn. apply Forall_alter; [exact H4|].
    intros ns _ Hname. now rewrite Hf.
Qed.

Lemma refs_ok_kept (s s' : PState) :
  refs_ok old s ->
  namespaces s' = namespaces s ->
  namespace s' = namespace s \/ namespace s' = None ->
  page s' = page s \/ page s' = None ->
  refs_ok old s'.
Proof.
  intros [H1 H2 H3 H4] Hnss Hns Hpg. constructor.
  - now rewrite Hnss.
  - intros m Hm. rewrite Hnss. apply H2. destruct Hns; congruence.
  - intros r Hr. apply H3. destruct Hpg; congruence.
  - now rewrite Hnss.
Qed.

Lemma refs_ok_opened (s s' : PState) (ns : Namespace.t) :
  refs_ok old s -> Namespace.name ns <> EmptyString ->
  namespaces s' = namespaces s ++ [ns] ->
  namespace s' = Some (length (namespaces s)) ->
  page s' = page s ->
  refs_ok old s'.
Proof.
  intros [H1 H2 H3 H4] Hname Hnss Hns Hpg.
  assert (Hlen : length old <= length (namespaces s)).
  { rewrite <- H1 at 1. rewrite length_take. lia. }
  constructor.
  - rewrite Hnss, take_app_le by exact Hlen. exact H1.
  - intros m Hm. rewrite Hnss, length_app. simpl.
    rewrite Hns in Hm. inversion Hm. lia.
  - intros r Hr. apply H3. congruence.
  - rewrite Hnss, drop_app_le by exact Hlen. apply Forall_app. split; [exact H4|].
    now apply Forall_singleton.
Qed.

Ltac ok_split H :=
  repeat (try unfold mbind, result_bind in H; cbv beta iota in H;
          match type of H with
          | (match ?x with _ => _ end) = _ => destruct x eqn:?
          | _ => discriminate H
          end).

(** An iteration that goes on keeps the references as [refs_ok] has
    them. *)
Lemma step_refs_ok (s s' : PState) :
  refs_ok old s -> step tokens props s = Ok (Continue s') -> refs_ok old s'.
Proof.
  intros Hrefs H. unfold step in H. cbn [mbind result_bind] in H.
  destruct (at_index tokens (i s)) as [token|] eqn:Htok; [|discriminate].
  destruct (state s) eqn:Hst.
  - unfold step_Top in H. ok_split H. inversion H; subst; clear H.
    eapply refs_ok_opened; [exact Hrefs| |reflexivity..].
    simpl. destruct (JS.slice_1_m1 (Token.val token)); [discriminate|discriminate].
  - unfold step_Namespace in H.
    destruct (namespace s) as [n|] eqn:Hn; [|discriminate].
    pose proof (namespace_new old s Hrefs n Hn) as Hnew.
    ok_split H.
    all: try (unfold declaration in H; ok_split H).
    all: inversion H; subst; clear H.
    all: first [ solve [eapply refs_ok_kept; [exact Hrefs|simpl; auto..]]
               | eapply (refs_ok_altered s _ _ n);
                 [exact Hrefs|lia| |simpl; reflexivity|simpl; congruence|simpl];
                 [intros []; reflexivity|] ].
    all: first [ intros r [= <-]; simpl; lia
               | intros r Hr; eapply page_new; eassumption ].
  - unfold step_Page in H.
    destruct (page s) as [r|] eqn:Hr; [|discriminate].
    pose proof (page_new old s Hrefs r Hr) as Hnew.
    ok_split H.
    all: inversion H; subst; clear H.
    all: first [ solve [eapply refs_ok_kept; [exact Hrefs|simpl; auto..]]
               | eapply (refs_ok_altered s _ _ r.1);
                 [exact Hrefs|exact Hnew|
                 |unfold update_page; simpl; reflexivity|simpl; congruence|simpl];
                 [intros []; reflexivity|] ].
    all: intros r' [= <-]; exact Hnew.
Qed.

Lemma incr_refs_ok (s : PState) : refs_ok old s -> refs_ok old (incr s).
Proof. intros H. eapply refs_ok_kept; [exact H|simpl; auto..]. Qed.

Lemma steps_refs_ok (s s' : PState) :
  steps tokens props s s' -> refs_ok old s -> refs_ok old s'.
Proof.
  induction 1 as [|s s1 s2 _ Hstep _ IH]; [auto|].
  intros H. apply IH, incr_refs_ok. eapply step_refs_ok; eassumption.
Qed.

Lemma loop_thrown_in_range (fuel : nat) (s s' : PState) (e : Error) :
  loop tokens props fuel s = Some (Thrown e s') -> i s' < length tokens.
Proof.
  revert s. induction fuel as [|fuel IH]; intros s; simpl.
  - destruct (length tokens <=? i s)%nat; discriminate.
  - destruct (length tokens <=? i s)%nat eqn:Hlen; [discriminate|].
    apply Nat.leb_gt in Hlen.
    destruct (step tokens props s) as [[s1|s1]|e1]; [apply IH|discriminate|].
    intros [= _ <-]. exact Hlen.
Qed.

(** The loop stops, in a state with the references as [refs_ok] has them,
    and what it throws is a syntax error or a [RangeError]. *)
Lemma loop_outcome (s : PState) :
  well_ended tokens -> Forall locatable tokens -> refs_ok old s ->
  exists o, loop tokens props (length tokens) s = Some o
            /\ match o with
               | Returned s' => refs_ok old s'
               | Thrown e s' => refs_ok old s' /\ syntax_or_range e
               end.
Proof.
  intros Hwe Hloc Hrefs.
  destruct (loop_finishes tokens props (length tokens) s) as [o Ho]; [lia|].
  exists o. split; [exact Ho|].
  destruct (loop_steps tokens props _ _ _ Ho) as (s' & Hsteps & Hend).
  pose proof (steps_refs_ok _ _ Hsteps Hrefs) as Hrefs'.
  destruct o as [s''|e s'']; [now subst|].
  apply loop_thrown_in_range in Ho.
  destruct Hend as [-> Hthrow]. split; [exact Hrefs'|].
  eapply step_thrown; eassumption.
Qed.

End References.

Lemma tokenize_well_ended (source : Source.t) : well_ended (tokenize source).
Proof.
  destruct (tokenize_scanned source) as (toks & col & Htok & _).
  rewrite Htok. eexists _, _. split; reflexivity.
Qed.

Lemma tokenize_locatable (source : Source.t) :
  Forall locatable (tokenize source).
Proof.
  eapply Forall_impl; [apply token_location_ok|].
  intros t (Hsrc & Hrow & Hlen) message hint.
  destruct (diagnostic_on_row SyntaxError (Token.loc t) message hint)
    as [H|(line & caret & H)]; [rewrite Hsrc; exact Hrow|exact Hlen| |].
  - left. exact H.
  - right. eexists. exact H.
Qed.

Lemma init_refs_ok (this : Pages.t) :
  refs_ok (Pages.namespaces this) (init_state this).
Proof.
  constructor; simpl.
  - apply take_ge. lia.
  - discriminate.
  - discriminate.
  - rewrite drop_ge by lia. constructor.
Qed.

(** A call of [add] ends; it leaves the references as [refs_ok] has them
    and throws nothing but a syntax error or a [RangeError]. *)
Lemma add_outcome (this : Pages.t) (source : Source.t) (props : option Props) :
  exists s oe,
    add this source props = Some (commit this s, oe)
    /\ refs_ok (Pages.namespaces this) s
    /\ forall e, oe = Some e -> syntax_or_range e.
Proof.
  destruct (loop_outcome (tokenize source) props (Pages.namespaces this)
              (init_state this) (tokenize_well_ended source)
              (tokenize_locatable source) (init_refs_ok this)) as (o & Ho & Hend).
  unfold add. rewrite Ho. destruct o as [s|e s].
  - exists s, None. split; [reflexivity|]. split; [exact Hend|discriminate].
  - exists s, (Some e). destruct Hend as [Hrefs He].
    split; [reflexivity|]. split; [exact Hrefs|]. now intros e' [= <-].
Qed.

(** X5.  Whatever the text, a call of [add] ends and throws nothing but
    an error of [parseError]: a syntax error, or the [RangeError] of a
    caret line of negative length.  The parser never reads a token behind
    the end marker, so no read of [undefined] fails. *)
Theorem add_throws_syntax_errors_only
  (this : Pages.t) (source : Source.t) (props : option Props) :
  exists this' oe,
    add this source props = Some (this', oe)
    /\ match oe with
       | None => True
       | Some e => e = RangeError \/ exists d, e = SyntaxError d
       end.
Proof.
  destruct (add_outcome this source props) as (s & oe & Hadd & _ & He).
  exists (commit this s), oe. split; [exact Hadd|].
  destruct oe as [e|]; [|exact I]. now apply He.
Qed.

(** X6.  A call of [add] only appends to [this.namespaces], whether it
    returns or throws: the namespaces of the document before the call are
    the first ones after it, unchanged, and the registries of decorators
    and macros are as they were. *)
Theorem add_only_appends_namespaces
  (this : Pages.t) (source : Source.t) (props : option Props) :
  exists this' oe new,
    add this source props = Some (this', oe)
    /\ Pages.namespaces this' = Pages.namespaces this ++ new
    /\ Pages.decorators this' = Pages.decorators this
    /\ Pages.macros this' = Pages.macros this.
Proof.
  destruct (add_outcome this source props) as (s & oe & Hadd & Hrefs & _).
  exists (commit this s), oe, (drop (length (Pages.namespaces this)) (namespaces s)).
  split; [exact Hadd|]. split; [|split; reflexivity]. simpl.
  rewrite <- (take_drop (length (Pages.namespaces this)) (namespaces s)) at 1.
  now rewrite (old_kept _ _ Hrefs).
Qed.

(** X7.  Every namespace that a call of [add] stores has a name that is
    not empty, also when the call throws later on. *)
Theorem added_namespaces_are_named
  (this : Pages.t) (source : Source.t) (props : option Props) :
  exists this' oe,
    add this source props = Some (this', oe)
    /\ Forall (fun ns => Namespace.name ns <> EmptyString)
         (drop (length (Pages.namespaces this)) (Pages.namespaces this')).
Proof.
  destruct (add_outcome this source props) as (s & oe & Hadd & Hrefs & _).
  exists (commit this s), oe. split; [exact Hadd|]. simpl.
  apply (new_named _ _ Hrefs).
Qed.

(** ** What [build] leaves alone, and how it ends *)

Section Frames.
Variable decorators : gmap string DecImpl.
Variable macros : gmap string MacImpl.

Lemma expand_frame (snapshot : list Dec.t) :
  forall page next page' next' e,
    expand macros snapshot page next = (page', next', e) ->
    page_frame page' = page_frame page /\ Page.props page' = Page.props page.
Proof.
  induction snapshot as [|m rest IH]; intros page next page' next' e; simpl.
  - now intros [= <- _ _].
  - destruct (registry_get macros (Dec.name m)) as [impl|im|];
      [|now intros [= <- _ _]..].
    intros H. apply IH in H as [H1 H2]. rewrite H1, H2. now destruct page.
Qed.

Lemma invoke_frame (ds : list Dec.t) :
  forall page page' e,
    invoke decorators ds page = (page', e) -> page_frame page' = page_frame page.
Proof.
  induction ds as [|d rest IH]; intros page page' e; simpl.
  - now intros [= <- _].
  - destruct (registry_get decorators (Dec.name d)) as [impl|[]|];
      try (now intros [= <- _]); intros H; apply IH in H; rewrite H;
      now destruct page.
Qed.

Lemma resolve_frame (page page' : Page.t) (next next' : nat) (e : option Error) :
  resolve decorators macros page next = (page', next', e) ->
  page_frame page' = page_frame page /\ (e = None -> Page.decorators page' = []).
Proof.
  unfold resolve.
  destruct (expand macros _ page next) as [[pg nx] [e1|]] eqn:Hexp;
    apply expand_frame in Hexp as [Hf _].
  - intros [= <- _ <-]. split; [exact Hf|discriminate].
  - rewrite cancel_returns.
    destruct (invoke decorators _ _) as [pg2 [e2|]] eqn:Hinv;
      apply invoke_frame in Hinv; intros [= <- _ <-].
    + split; [|discriminate]. rewrite Hinv, <- Hf. now destruct pg.
    + split; [|reflexivity].
      transitivity (page_frame pg2); [now destruct pg2|].
      rewrite Hinv, <- Hf. now destruct pg.
Qed.

Lemma build_pages_frame (pages : list Page.t) :
  forall next pages' next' e,
    build_pages decorators macros pages next = (pages', next', e) ->
    map page_frame pages' = map page_frame pages
    /\ (e = None -> Forall (fun pg => Page.decorators pg = []) pages').
Proof.
  induction pages as [|pg pages IH]; intros next pages' next' e; simpl.
  - intros [= <- _ <-]. split; [reflexivity|constructor].
  - destruct (resolve decorators macros pg next) as [[pg1 nx1] [e1|]] eqn:Hres;
      apply resolve_frame in Hres as [Hf Hc].
    + intros [= <- _ <-]. split; [|discriminate]. simpl. now rewrite Hf.
    + destruct (build_pages decorators macros pages nx1) as [[rest' nx2] e2] eqn:Hb.
      apply IH in Hb as [Hfs Hcs]. intros [= <- _ <-]. split.
      * simpl. now rewrite Hf, Hfs.
      * intros He. constructor; auto.
Qed.

Lemma build_namespaces_frame (nss : list Namespace.t) :
  forall next nss' next' e,
    build_namespaces decorators macros nss next = (nss', next', e) ->
    frame nss' = frame nss /\ (e = None -> cleared nss').
Proof.
  induction nss as [|ns nss IH]; intros next nss' next' e; simpl.
  - intros [= <- _ <-]. split; [reflexivity|constructor].
  - destruct (build_pages decorators macros (Namespace.pages ns) next)
      as [[pages1 nx1] [e1|]] eqn:Hb; apply build_pages_frame in Hb as [Hf Hc].
    + intros [= <- _ <-]. split; [|discriminate]. simpl. rewrite Hf. now destruct ns.
    + destruct (build_namespaces decorators macros nss nx1)
        as [[rest' nx2] e2] eqn:Hn.
      apply IH in Hn as [Hfs Hcs]. intros [= <- _ <-]. split.
      * simpl. rewrite Hf, Hfs. now destruct ns.
      * intros He. unfold cleared. rewrite lists_of_cons. apply Forall_app. split.
        -- simpl. apply Forall_fmap. eapply Forall_impl; [apply Hc; reflexivity|].
           now intros pg.
        -- now apply Hcs.
Qed.

(** A document whose decorator lists are all empty is left as it is. *)
Lemma build_pages_cleared (pages : list Page.t) (next : nat) :
  Forall (fun pg => Page.decorators pg = []) pages ->
  build_pages decorators macros pages next = (pages, next, None).
Proof.
  induction 1 as [|pg pages Hpg _ IH]; [reflexivity|]. simpl.
  rewrite (resolve_undecorated decorators macros pg next Hpg), IH. reflexivity.
Qed.

Lemma build_namespaces_cleared (nss : list Namespace.t) (next : nat) :
  cleared nss ->
  build_namespaces decorators macros nss next = (nss, next, None).
Proof.
  unfold cleared. induction nss as [|ns nss IH]; [reflexivity|].
  rewrite lists_of_cons. intros H. apply Forall_app in H as [Hns Hrest]. simpl.
  rewrite build_pages_cleared, (IH Hrest); [now destruct ns|].
  apply Forall_fmap in Hns. eapply Forall_impl; [exact Hns|]. now intros pg.
Qed.

End Frames.

(** X8.  Whatever its outcome, [build] (without output) changes nothing
    but the properties and the decorator lists of the pages: namespaces
    and pages keep their number, order, locations, names and paths, the
    namespaces their properties, and the registries are as they were. *)
Theorem build_keeps_frame (this : Pages.t) :
  frame (Pages.namespaces (build this).1) = frame (Pages.namespaces this)
  /\ Pages.decorators (build this).1 = Pages.decorators this
  /\ Pages.macros (build this).1 = Pages.macros this.
Proof.
  unfold build.
  destruct (build_namespaces _ _ _ _) as [[nss next] e] eqn:Hb.
  apply build_namespaces_frame in Hb as [Hf _]. simpl. auto.
Qed.

(** X10.  A second [build] after one that returned changes nothing: the
    decorators of a page are applied by the first [build] and are gone
    for the next. *)
Theorem second_build_changes_nothing (this : Pages.t) :
  (build this).2 = None ->
  build (build this).1 = ((build this).1, None).
Proof.
  unfold build.
  destruct (build_namespaces _ _ _ _) as [[nss next] e] eqn:Hb. simpl.
  intros ->. apply build_namespaces_frame in Hb as [_ Hc].
  rewrite build_namespaces_cleared by now apply Hc. reflexivity.
Qed.

(** ** Where a failing [build] stops *)

Section Stops.
Variable decorators : gmap string DecImpl.
Variable macros : gmap string MacImpl.

Lemma expand_spec_stop (todo : list Dec.t) :
  forall done page next page' next' e,
    expand_spec macros done todo page next = (page', next', Some e) ->
    exists d, d ∈ Page.decorators page' /\ thrown_for decorators macros d e.
Proof.
  induction todo as [|d rest IH]; intros done page next page' next' e; simpl.
  - discriminate.
  - destruct (Dec.is_mac d) eqn:Em; [|apply IH].
    destruct (registry_get macros (Dec.name d)) as [impl|m|] eqn:E; [apply IH|..].
    all: intros [= <- _ <-]; exists d; split;
      [simpl; apply elem_of_app; right; apply list_elem_of_here
      |left; split; [exact Em|now rewrite E]].
Qed.

Lemma resolve_stop (page page' : Page.t) (next next' : nat) (e : Error) :
  distinct_below next (Page.decorators page) ->
  resolve decorators macros page next = (page', next', Some e) ->
  exists d, d ∈ Page.decorators page' /\ thrown_for decorators macros d e.
Proof.
  intros Hd. rewrite (resolve_as_spec decorators macros page next Hd).
  destruct (expand_spec macros [] (Page.decorators page) page next)
    as [[page1 next1] [e1|]] eqn:Hexp.
  - intros [= <- _ <-]. eapply expand_spec_stop. exact Hexp.
  - cbv zeta. destruct (invoke decorators _ _) as [page2 [e2|]] eqn:Hinv;
      [|discriminate].
    intros [= <- _ <-].
    pose proof (invoke_decorators decorators _ _ _ _ Hinv) as Hds.
    apply invoke_failure in Hinv as (d & Hin & He).
    exists d. split; [rewrite Hds; exact Hin|]. right. exact He.
Qed.

(** [build_pages] stops at the page whose resolution throws: the pages
    before it have been resolved, that page holds the decorator that the
    error belongs to, and the pages behind it are as they were. *)
Lemma build_pages_stop (pages : list Page.t) :
  forall next pages' next' e,
    Forall (fun pg => distinct_below next (Page.decorators pg)) pages ->
    build_pages decorators macros pages next = (pages', next', Some e) ->
    exists before page' d,
      pages' = before ++ page' :: drop (S (length before)) pages
      /\ length before < length pages
      /\ Forall (fun pg => Page.decorators pg = []) before
      /\ d ∈ Page.decorators page'
      /\ thrown_for decorators macros d e.
Proof.
  induction pages as [|pg pages IH]; intros next pages' next' e Hall; simpl.
  - discriminate.
  - apply Forall_cons in Hall as [Hpg Hall].
    destruct (resolve decorators macros pg next) as [[pg1 nx1] [e1|]] eqn:Hres.
    + intros [= <- _ <-]. apply resolve_stop in Hres as (d & Hin & Hun); [|exact Hpg].
      exists [], pg1, d. simpl. rewrite drop_0. repeat split; auto; lia.
    + destruct (build_pages decorators macros pages nx1)
        as [[rest' nx2] e2] eqn:Hb.
      intros [= <- _ ->].
      pose proof (resolve_frame _ _ _ _ _ _ _ Hres) as [_ Hc].
      apply resolve_distinct in Hres as [Hle _]; [|exact Hpg].
      apply IH in Hb as (before & page' & d & -> & Hlen & Hbefore & Hin & Hun).
      * exists (pg1 :: before), page', d. simpl.
        repeat split; auto; lia.
      * eapply Forall_impl; [exact Hall|]. intros x.
        now apply distinct_below_mono.
Qed.

Lemma build_namespaces_stop (nss : list Namespace.t) :
  forall next nss' next' e,
    Forall (distinct_below next) (lists_of nss) ->
    build_namespaces decorators macros nss next = (nss', next', Some e) ->
    exists done ns ns' before page' d,
      nss !! length done = Some ns
      /\ nss' = done ++ ns' :: drop (S (length done)) nss
      /\ cleared done
      /\ Namespace.pages ns'
         = before ++ page' :: drop (S (length before)) (Namespace.pages ns)
      /\ length before < length (Namespace.pages ns)
      /\ Forall (fun pg => Page.decorators pg = []) before
      /\ d ∈ Page.decorators page'
      /\ thrown_for decorators macros d e.
Proof.
  induction nss as [|ns nss IH]; intros next nss' next' e Hall; simpl.
  - discriminate.
  - rewrite lists_of_cons in Hall. apply Forall_app in Hall as [Hns Hall].
    assert (Hpages : Forall (fun pg => distinct_below next (Page.decorators pg))
                       (Namespace.pages ns)).
    { apply Forall_forall. intros pg Hpg. rewrite Forall_forall in Hns.
      apply Hns. apply list_elem_of_fmap. eauto. }
    destruct (build_pages decorators macros (Namespace.pages ns) next)
      as [[pages1 nx1] [e1|]] eqn:Hb.
    + intros [= <- _ <-].
      apply build_pages_stop in Hb as (before & page' & d & -> & Hlen & Hbefore & Hin & Hun);
        [|exact Hpages].
      exists [], ns, (Namespace.set_pages
                        (before ++ page' :: drop (S (length before)) (Namespace.pages ns)) ns),
        before, page', d.
      simpl. rewrite drop_0. repeat split; auto. constructor.
    + destruct (build_namespaces decorators macros nss nx1)
        as [[rest' nx2] e2] eqn:Hn.
      intros [= <- _ ->].
      pose proof (build_pages_frame _ _ _ _ _ _ _ Hb) as [_ Hc].
      apply build_pages_distinct in Hb as [Hle _]; [|exact Hpages].
      apply IH in Hn
        as (done & ns0 & ns' & before & page' & d
            & Hlook & -> & Hdone & Hpg & Hlen & Hbefore & Hin & Hun).
      * exists (Namespace.set_pages pages1 ns :: done), ns0, ns', before, page', d.
        simpl. repeat split; auto.
        unfold cleared. rewrite lists_of_cons. apply Forall_app. split; [|exact Hdone].
        simpl. apply Forall_fmap. eapply Forall_impl; [apply Hc; reflexivity|].
        now intros pg.
      * eapply Forall_impl; [exact Hall|]. intros x.
        now apply distinct_below_mono.
Qed.

End Stops.

(** X9.  How [build] ends on a document whose pages hold pairwise
    distinct decorator objects.  When it returns, the decorator list of
    every page is empty.  When it throws, what it throws belongs to a
    decorator [d] that a page of the document holds at that moment: the
    error ["Unknown macro"] or ["Unknown decorator"] of [buildError] at the
    location of [d], whose name no member of the registry in question has,
    or, when that registry only inherits a member of the name of [d] from
    [Object.prototype], the [TypeError] that the call of this member
    leads to.  (This is for the calls of [build] that the embedding
    follows to their end.) *)
Theorem build_outcome (this : Pages.t) :
  pages_ok this ->
  (build this).2 <> Some Untyped ->
  match (build this).2 with
  | None => cleared (Pages.namespaces (build this).1)
  | Some e =>
      exists l d,
        l ∈ lists_of (Pages.namespaces (build this).1) /\ d ∈ l
        /\ thrown_for (Pages.decorators this) (Pages.macros this) d e
  end.
Proof.
  intros Hok _. unfold build.
  destruct (build_namespaces _ _ _ _) as [[nss next] [e|]] eqn:Hb; simpl.
  - apply build_namespaces_stop in Hb
      as (done & ns & ns' & before & page' & d & _ & -> & _ & Hpg & _ & _ & Hin & He);
      [|exact Hok].
    exists (Page.decorators page'), d. split; [|split; assumption].
    rewrite lists_of_app, lists_of_cons. apply elem_of_app. right.
    apply elem_of_app. left. rewrite Hpg.
    apply list_elem_of_fmap. exists page'. split; [reflexivity|].
    apply elem_of_app. right. apply list_elem_of_here.
  - apply build_namespaces_frame in Hb as [_ Hc]. now apply Hc.
Qed.

(** X11.  A [build] that throws on a document whose pages hold pairwise
    distinct decorator objects stops at the page whose resolution throws,
    the first such page in the order of the document: what is thrown
    belongs to a decorator that this page holds at that moment (a
    decorator whose name the registry does not have as an own member),
    the namespaces and pages before that page have been resolved and have
    empty decorator lists, and the pages and namespaces behind it are as
    they were.  (This is for the calls of [build] that the embedding
    follows to their end.) *)
Theorem build_stops_at_throwing_page (this : Pages.t) (e : Error) :
  pages_ok this ->
  (build this).2 = Some e ->
  e <> Untyped ->
  exists done ns ns' before page' d,
    Pages.namespaces this !! length done = Some ns
    /\ Pages.namespaces (build this).1
       = done ++ ns' :: drop (S (length done)) (Pages.namespaces this)
    /\ cleared done
    /\ Namespace.pages ns'
       = before ++ page' :: drop (S (length before)) (Namespace.pages ns)
    /\ length before < length (Namespace.pages ns)
    /\ Forall (fun pg => Page.decorators pg = []) before
    /\ d ∈ Page.decorators page'
    /\ thrown_for (Pages.decorators this) (Pages.macros this) d e.
Proof.
  intros Hok. unfold build.
  destruct (build_namespaces _ _ _ _) as [[nss next] e'] eqn:Hb. simpl.
  intros -> _. eapply build_namespaces_stop; eassumption.
Qed.

(** ** The cancellation removes every negated entry *)

Lemma visit_not_negated (l : list Dec.t) :
  Forall (fun d => Dec.is_not d = false) (foldr visit [] l).
Proof.
  induction l as [|d r IH]; [constructor|].
  change (Forall (fun d => Dec.is_not d = false) (visit d (foldr visit [] r))).
  unfold visit. destruct (Dec.is_not d) eqn:E.
  - rewrite Forall_forall in IH. apply Forall_forall. intros x Hx.
    apply list_elem_of_filter in Hx as [_ Hx]. now apply IH.
  - constructor; assumption.
Qed.

Lemma visit_nothing_negated (l : list Dec.t) :
  Forall (fun d => Dec.is_not d = false) l -> foldr visit [] l = l.
Proof.
  induction 1 as [|d r Hd _ IH]; [reflexivity|].
  change (visit d (foldr visit [] r) = d :: r). rewrite IH. unfold visit.
  now rewrite Hd.
Qed.

(** X12.  The cancellation always returns.  What it returns are entries
    of the list in their order, none of them negated, and a second
    cancellation changes nothing. *)
Theorem cancel_removes_negated (l : list Dec.t) :
  exists l',
    cancel l = Ok l'
    /\ l' `sublist_of` l
    /\ Forall (fun d => Dec.is_not d = false) l'
    /\ cancel l' = Ok l'.
Proof.
  exists (survivors l). split; [apply cancel_returns|]. split; [|split].
  - apply survivors_from_sublist.
  - rewrite survivors_visit. apply visit_not_negated.
  - rewrite cancel_returns. f_equal. rewrite (survivors_visit (survivors l)).
    apply visit_nothing_negated. rewrite survivors_visit. apply visit_not_negated.
Qed.

(** ** Registering more names *)

Section MoreNames.
Variables decorators decorators' : gmap string DecImpl.
Variables macros macros' : gmap string MacImpl.
Hypothesis Hdecorators : decorators ⊆ decorators'.
Hypothesis Hmacros : macros ⊆ macros'.
(** The new names are none of those that a registry inherits. *)
Hypothesis Hdecorators_new :
  forall name, decorators !! name = None -> is_Some (decorators' !! name) ->
               inherited name = None.
Hypothesis Hmacros_new :
  forall name, macros !! name = None -> is_Some (macros' !! name) ->
               inherited name = None.

Lemma registry_get_more {A} (registry registry' : gmap string A) (name : string) :
  registry ⊆ registry' ->
  (forall name, registry !! name = None -> is_Some (registry' !! name) ->
                inherited name = None) ->
  registry_get registry name <> Missing ->
  registry_get registry' name = registry_get registry name.
Proof.
  intros Hsub Hnew. unfold registry_get.
  destruct (registry !! name) as [impl|] eqn:E.
  - now rewrite (lookup_weaken _ _ _ _ E Hsub).
  - destruct (inherited name) as [m|] eqn:Ei; [|congruence].
    destruct (registry' !! name) as [impl'|] eqn:E'; [|reflexivity].
    rewrite (Hnew name E) in Ei by eauto. discriminate.
Qed.

Lemma expand_more (snapshot : list Dec.t) :
  forall page next page' next',
    expand macros snapshot page next = (page', next', None) ->
    expand macros' snapshot page next = (page', next', None).
Proof.
  induction snapshot as [|m rest IH]; intros page next page' next'; simpl.
  - auto.
  - destruct (registry_get macros (Dec.name m)) as [impl|im|] eqn:E;
      [|discriminate..].
    rewrite (registry_get_more macros macros' (Dec.name m) Hmacros Hmacros_new),
      E by congruence.
    apply IH.
Qed.

Lemma invoke_more (ds : list Dec.t) :
  forall page page',
    invoke decorators ds page = (page', None) ->
    invoke decorators' ds page = (page', None).
Proof.
  induction ds as [|d rest IH]; intros page page'; simpl.
  - auto.
  - destruct (registry_get decorators (Dec.name d)) as [impl|im|] eqn:E;
      [| |discriminate].
    all: rewrite (registry_get_more decorators decorators' (Dec.name d)
                    Hdecorators Hdecorators_new), E by congruence.
    + apply IH.
    + destruct im; [apply IH..|discriminate].
Qed.

Lemma resolve_more (page page' : Page.t) (next next' : nat) :
  resolve decorators macros page next = (page', next', None) ->
  resolve decorators' macros' page next = (page', next', None).
Proof.
  unfold resolve.
  destruct (expand macros _ page next) as [[pg nx] [e1|]] eqn:Hexp; [discriminate|].
  rewrite (expand_more _ _ _ _ _ Hexp).
  destruct (cancel (Page.decorators pg)) as [ds|]; [|discriminate].
  destruct (invoke decorators _ _) as [pg2 [e2|]] eqn:Hinv; [discriminate|].
  rewrite (invoke_more _ _ _ Hinv). auto.
Qed.

Lemma build_pages_more (pages : list Page.t) :
  forall next pages' next',
    build_pages decorators macros pages next = (pages', next', None) ->
    build_pages decorators' macros' pages next = (pages', next', None).
Proof.
  induction pages as [|pg pages IH]; intros next pages' next'; simpl.
  - auto.
  - destruct (resolve decorators macros pg next) as [[pg1 nx1] [e1|]] eqn:Hres;
      [discriminate|].
    rewrite (resolve_more _ _ _ _ Hres).
    destruct (build_pages decorators macros pages nx1) as [[rest' nx2] [e2|]] eqn:Hb;
      [discriminate|].
    rewrite (IH _ _ _ Hb). auto.
Qed.

Lemma build_namespaces_more (nss : list Namespace.t) :
  forall next nss' next',
    build_namespaces decorators macros nss next = (nss', next', None) ->
    build_namespaces decorators' macros' nss next = (nss', next', None).
Proof.
  induction nss as [|ns nss IH]; intros next nss' next'; simpl.
  - auto.
  - destruct (build_pages decorators macros (Namespace.pages ns) next)
      as [[pages1 nx1] [e1|]] eqn:Hb; [discriminate|].
    rewrite (build_pages_more _ _ _ _ Hb).
    destruct (build_namespaces decorators macros nss nx1)
      as [[rest' nx2] [e2|]] eqn:Hn; [discriminate|].
    rewrite (IH _ _ _ Hn). auto.
Qed.

End MoreNames.

(** X13.  A library of new names does not change a [build] that
    returns: when no name of the library is registered yet, nor is one of
    the names that the registries inherit from [Object.prototype], then
    after [use] of the library [build] returns as well and leaves the same
    namespaces. *)
Theorem use_of_new_names_keeps_build
  (this : Pages.t) (decorators : gmap string DecImpl)
  (macros : gmap string MacImpl) :
  decorators ##ₘ Pages.decorators this ->
  macros ##ₘ Pages.macros this ->
  (forall name, is_Some (decorators !! name) -> inherited name = None) ->
  (forall name, is_Some (macros !! name) -> inherited name = None) ->
  (build this).2 = None ->
  (build (use this (Some decorators) (Some macros))).2 = None
  /\ Pages.namespaces (build (use this (Some decorators) (Some macros))).1
     = Pages.namespaces (build this).1.
Proof.
  intros Hd Hm Hdn Hmn. unfold build, use. simpl.
  destruct (build_namespaces (Pages.decorators this) _ _ _)
    as [[nss next] e] eqn:Hb. simpl. intros ->.
  rewrite (build_namespaces_more _ (decorators ∪ Pages.decorators this)
             _ (macros ∪ Pages.macros this)
             (map_union_subseteq_r _ _ Hd) (map_union_subseteq_r _ _ Hm))
    with (nss' := nss) (next' := next).
  - now split.
  - intros name Hnone Hsome. apply Hdn.
    destruct Hsome as [impl Hsome].
    apply lookup_union_Some_raw in Hsome as [Hsome|[_ Hsome]]; [eauto|congruence].
  - intros name Hnone Hsome. apply Hmn.
    destruct Hsome as [impl Hsome].
    apply lookup_union_Some_raw in Hsome as [Hsome|[_ Hsome]]; [eauto|congruence].
  - exact Hb.
Qed.

(** ** The resolver on sample documents *)

Lemma use_pages_ok (this : Pages.t) (decorators : option (gmap string DecImpl))
  (macros : option (gmap string MacImpl)) :
  pages_ok this -> pages_ok (use this decorators macros).
Proof. intros H. exact H. Qed.

Lemma stop_sample_parsed :
  add Pages.new (Source.new "(input)" (src stop_text)) None
  = Some (stop_parsed, None).
Proof. vm_compute. reflexivity. Qed.

Lemma stop_sample_ok : pages_ok stop_sample.
Proof.
  apply use_pages_ok.
  exact (add_pages_ok Pages.new stop_parsed
           (Source.new "(input)" (src stop_text)) None None new_pages_ok
           stop_sample_parsed).
Qed.

(** X10, on the sample [(n){%a %b [p]{} [q]{}}] with [a] and [b]
    registered: the first [build] returns, and leaves marks in the
    properties of [p]; the second changes nothing. *)
Lemma second_build_changes_nothing_witness :
  (build marked_sample).2 = None
  /\ Pages.namespaces (build marked_sample).1 <> Pages.namespaces marked_sample
  /\ build (build marked_sample).1 = ((build marked_sample).1, None).
Proof.
  assert (H : (build marked_sample).2 = None) by (vm_compute; reflexivity).
  split; [exact H|]. split; [vm_compute; discriminate|].
  exact (second_build_changes_nothing marked_sample H).
Defined.

(** X9, on the sample [(n){%a [p]{} %zz [q]{} %b [r]{}}] with [a] and
    [b] registered: [build] throws for [zz]. *)
Lemma build_outcome_witness :
  pages_ok stop_sample
  /\ (build stop_sample).2 <> Some Untyped
  /\ match (build stop_sample).2 with
     | None => cleared (Pages.namespaces (build stop_sample).1)
     | Some e =>
         exists l d,
           l ∈ lists_of (Pages.namespaces (build stop_sample).1) /\ d ∈ l
           /\ thrown_for (Pages.decorators stop_sample) (Pages.macros stop_sample) d e
     end.
Proof.
  assert (H : (build stop_sample).2 <> Some Untyped)
    by (vm_compute; discriminate).
  split; [exact stop_sample_ok|]. split; [exact H|].
  exact (build_outcome stop_sample stop_sample_ok H).
Defined.

(** What [build] throws on that sample is the error for [zz], at the
    location of the decorator. *)
Example stop_sample_thrown :
  exists dg,
    (build stop_sample).2 = Some (EvalError dg)
    /\ d_message dg = "Unknown decorator `zz`"
    /\ (Loc.row (d_loc dg), Loc.col (d_loc dg)) = (0, 13)%Z.
Proof. eexists. split; [vm_compute; reflexivity|]. split; reflexivity. Qed.

(** X11, on the sample [(n){%a [p]{} %zz [q]{} %b [r]{}}] with [a] and
    [b] registered: [build] throws for [zz] at the page [q]. *)
Lemma build_stops_at_throwing_page_witness :
  pages_ok stop_sample
  /\ exists e done ns ns' before page' d,
    (build stop_sample).2 = Some e
    /\ e <> Untyped
    /\ Pages.namespaces stop_sample !! length done = Some ns
    /\ Pages.namespaces (build stop_sample).1
       = done ++ ns' :: drop (S (length done)) (Pages.namespaces stop_sample)
    /\ cleared done
    /\ Namespace.pages ns'
       = before ++ page' :: drop (S (length before)) (Namespace.pages ns)
    /\ length before < length (Namespace.pages ns)
    /\ Forall (fun pg => Page.decorators pg = []) before
    /\ d ∈ Page.decorators page'
    /\ thrown_for (Pages.decorators stop_sample) (Pages.macros stop_sample) d e.
Proof.
  split; [exact stop_sample_ok|].
  destruct (build stop_sample).2 as [e|] eqn:He; [|vm_compute in He; discriminate].
  assert (Hne : e <> Untyped) by (vm_compute in He; congruence).
  destruct (build_stops_at_throwing_page stop_sample e stop_sample_ok He Hne)
    as (done & ns & ns' & before & page' & d & H).
  exists e, done, ns, ns', before, page', d.
  split; [reflexivity|]. split; [exact Hne|exact H].
Defined.

(** X13, on the sample [(n){%a %b [p]{} [q]{}}] with [a] and [b]
    registered, and a library with a decorator [c] and the macro
    [auto]. *)
Lemma use_of_new_names_keeps_build_witness :
  (build marked_sample).2 = None
  /\ (build (use marked_sample (Some {["c" := mark_impl]}) (Some macro_registry))).2
     = None
  /\ Pages.namespaces
       (build (use marked_sample (Some {["c" := mark_impl]}) (Some macro_registry))).1
     = Pages.namespaces (build marked_sample).1.
Proof.
  assert (H : (build marked_sample).2 = None) by (vm_compute; reflexivity).
  split; [exact H|].
  apply (use_of_new_names_keeps_build marked_sample {["c" := mark_impl]} macro_registry).
  - apply map_disjoint_singleton_l_2. vm_compute. reflexivity.
  - replace (Pages.macros marked_sample) with (∅ : gmap string MacImpl)
      by (vm_compute; reflexivity).
    apply map_disjoint_empty_r.
  - intros name [impl Hname].
    apply lookup_singleton_Some in Hname as [<- _]. reflexivity.
  - intros name [impl Hname]. unfold macro_registry in Hname.
    apply lookup_singleton_Some in Hname as [<- _]. reflexivity.
  - exact H.
Defined.

(** ** The normalisation of line ends *)

Lemma crlf_to_lf_cons (a : ascii) (t : string) :
  JS.crlf_to_lf (String a t)
  = match t with
    | String b r =>
        if (Ascii.nat_of_ascii a =? 13)%nat && Ascii.eqb b JS.lf
        then String JS.lf (JS.crlf_to_lf r)
        else String a (JS.crlf_to_lf t)
    | EmptyString => String a EmptyString
    end.
Proof. destruct t; reflexivity. Qed.

(** A property of the normalised text that holds when it holds for the
    empty text, is kept by a character that is copied, and by a pair of a
    carriage return and a line feed that becomes a line feed. *)
Lemma crlf_to_lf_ind (P : string -> string -> Prop) :
  P EmptyString EmptyString ->
  (forall a s s', P s s' -> P (String a s) (String a s')) ->
  (forall a s s', Ascii.nat_of_ascii a = 13 ->
                  P s s' -> P (String a (String JS.lf s)) (String JS.lf s')) ->
  forall s, P s (JS.crlf_to_lf s).
Proof.
  intros Hnil Hcopy Hpair s.
  remember (String.length s) as n eqn:Hn. revert s Hn.
  induction n as [n IH] using lt_wf_ind. intros s Hn.
  destruct s as [|a t]; [exact Hnil|]. rewrite crlf_to_lf_cons.
  destruct t as [|b r]; [apply Hcopy, Hnil|].
  destruct ((Ascii.nat_of_ascii a =? 13)%nat && Ascii.eqb b JS.lf) eqn:E.
  - apply andb_true_iff in E as [Ha Hb].
    apply Nat.eqb_eq in Ha. apply Ascii.eqb_eq in Hb. subst b.
    apply Hpair; [exact Ha|]. apply (IH (String.length r)); [simpl in Hn; lia|reflexivity].
  - apply Hcopy. apply (IH (String.length (String b r))); [simpl in *; lia|reflexivity].
Qed.

Lemma carriage_return_is_blank (a : ascii) :
  Ascii.nat_of_ascii a = 13 -> JS.is_space a = true /\ Ascii.eqb a JS.lf = false.
Proof.
  intros H. split.
  - unfold JS.is_space. rewrite H. reflexivity.
  - apply Ascii.eqb_neq. intros ->. discriminate.
Qed.

Lemma crlf_to_lf_count (s : string) : count_lf (JS.crlf_to_lf s) = count_lf s.
Proof.
  apply (crlf_to_lf_ind (fun s s' => count_lf s' = count_lf s)).
  - reflexivity.
  - intros a t t' H. simpl. now rewrite H.
  - intros a t t' Ha H. apply carriage_return_is_blank in Ha as [_ Ha].
    simpl. rewrite Ha, H. reflexivity.
Qed.

Lemma crlf_to_lf_squeeze (s : string) :
  squeeze (list_ascii_of_string (JS.crlf_to_lf s))
  = squeeze (list_ascii_of_string s).
Proof.
  apply (crlf_to_lf_ind (fun s s' => squeeze (list_ascii_of_string s')
                                     = squeeze (list_ascii_of_string s))).
  - reflexivity.
  - intros a t t' H. unfold squeeze in *. simpl. now rewrite H.
  - intros a t t' Ha H. apply carriage_return_is_blank in Ha as [Ha _].
    unfold squeeze in *. simpl. rewrite Ha, H. reflexivity.
Qed.

Lemma crlf_to_lf_without_cr (s : string) :
  JS.all_chars (fun a => negb (Ascii.nat_of_ascii a =? 13)%nat) s = true ->
  JS.crlf_to_lf s = s.
Proof.
  remember (String.length s) as n eqn:Hn. revert s Hn.
  induction n as [n IH] using lt_wf_ind. intros s Hn.
  destruct s as [|a t]; [reflexivity|]. intros H.
  cbn [JS.all_chars] in H. apply andb_true_iff in H as [Ha Ht].
  rewrite crlf_to_lf_cons. destruct t as [|b r]; [reflexivity|].
  apply negb_true_iff in Ha. rewrite Ha. cbn [andb]. f_equal.
  apply (IH (String.length (String b r))); [simpl in *; lia|reflexivity|exact Ht].
Qed.

(** X14.  What [new Source] does to the text it is given: the number of
    lines stays, so that the rows of the tokens are rows of the text as
    given; the characters of the tokens that are no blanks are the ones of
    the text as given; and a text without a carriage return is taken as
    it is. *)
Theorem source_keeps_rows_and_text (name text : string) :
  count_lf (Source.body (Source.new name text)) = count_lf text
  /\ squeeze (token_chars (tokenize (Source.new name text)))
     = squeeze (list_ascii_of_string text)
  /\ (JS.all_chars (fun a => negb (Ascii.nat_of_ascii a =? 13)%nat) text = true ->
      Source.new name text = Source.mk name text).
Proof.
  split; [apply crlf_to_lf_count|]. split.
  - destruct (tokenize_scanned (Source.new name text)) as (toks & col & Htok & _ & Hsq).
    rewrite Htok. unfold token_chars in *. rewrite flat_map_app.
    unfold squeeze in *. rewrite List.filter_app, Hsq. simpl.
    rewrite app_nil_r. apply crlf_to_lf_squeeze.
  - intros H. unfold Source.new. now rewrite crlf_to_lf_without_cr.
Qed.

(** ** Blocks: namespace headers, page headers and string literals *)

Lemma closer_opener (o c : ascii) :
  Tokenizer.closer (JS.chr o) = Some c ->
  JS.is_op o = false /\ JS.is_space o = false.
Proof.
  unfold Tokenizer.closer, JS.chr, JS.startsWith.
  destruct (Ascii.eqb o JS.dq) eqn:E1; [apply Ascii.eqb_eq in E1; subst; now split|].
  destruct (Ascii.eqb o "[") eqn:E2; [apply Ascii.eqb_eq in E2; subst; now split|].
  destruct (Ascii.eqb o "(") eqn:E3; [apply Ascii.eqb_eq in E3; subst; now split|].
  discriminate.
Qed.

Lemma closer_append (t : string) (a : ascii) :
  t <> EmptyString -> Tokenizer.closer (t ++ JS.chr a) = Tokenizer.closer t.
Proof. destruct t; [contradiction|reflexivity]. Qed.

Lemma string_app_nil_r (t : string) : (t ++ EmptyString)%string = t.
Proof.
  induction t as [|a t IH]; [reflexivity|].
  change (String a (t ++ EmptyString)%string = String a t). now rewrite IH.
Qed.

Lemma string_app_assoc (a b c : string) :
  ((a ++ b) ++ c)%string = (a ++ (b ++ c))%string.
Proof.
  induction a as [|x a IH]; [reflexivity|].
  change (String x ((a ++ b) ++ c)%string = String x (a ++ (b ++ c))%string).
  now rewrite IH.
Qed.

Lemma string_length_app (a b : string) :
  String.length (a ++ b) = String.length a + String.length b.
Proof.
  induction a as [|x a IH]; [reflexivity|].
  change (S (String.length (a ++ b)) = S (String.length a + String.length b)).
  now rewrite IH.
Qed.

(** Inside a block, the characters other than the closing one are added
    to the pending text. *)
Lemma scan_inside_block (s : Source.t) (c : ascii) (w : string) :
  forall x : Tokenizer.st,
    Tokenizer.closer (Tokenizer.t x) = Some c ->
    JS.all_chars (fun a => negb (Ascii.eqb a c)) w = true ->
    Tokenizer.tokens (Tokenizer.scan s w x) = Tokenizer.tokens x
    /\ Tokenizer.t (Tokenizer.scan s w x) = (Tokenizer.t x ++ w)%string.
Proof.
  unfold Tokenizer.scan.
  induction w as [|a w IH]; intros x Hc Hw; simpl.
  - split; [reflexivity|]. symmetry. apply string_app_nil_r.
  - apply andb_true_iff in Hw as [Ha Hw]. apply negb_true_iff in Ha.
    assert (Hne : Tokenizer.t x <> EmptyString).
    { intros E. rewrite E in Hc. discriminate. }
    assert (Hstep : Tokenizer.tokens (Tokenizer.step s x a) = Tokenizer.tokens x
                    /\ Tokenizer.t (Tokenizer.step s x a)
                       = (Tokenizer.t x ++ JS.chr a)%string).
    { unfold Tokenizer.step. rewrite Hc, Ha.
      destruct (Ascii.eqb a JS.lf); split; reflexivity. }
    destruct Hstep as [Htok Ht].
    destruct (IH (Tokenizer.step s x a)) as [IH1 IH2]; [|exact Hw|].
    + rewrite Ht, closer_append by exact Hne. exact Hc.
    + rewrite IH1, IH2, Htok, Ht. split; [reflexivity|].
      rewrite string_app_assoc. reflexivity.
Qed.

(** A block, scanned from a state without pending text, gives one token,
    whose value is the text of the block with its delimiters. *)
Lemma scan_block (s : Source.t) (o c : ascii) (w : string) (x : Tokenizer.st) :
  Tokenizer.closer (JS.chr o) = Some c ->
  JS.all_chars (fun a => negb (Ascii.eqb a c)) w = true ->
  Tokenizer.t x = EmptyString ->
  exists col row,
    Tokenizer.tokens (Tokenizer.scan s (String o (w ++ JS.chr c)) x)
    = Tokenizer.tokens x ++ [Token.new col row (String o (w ++ JS.chr c)) s]
    /\ Tokenizer.t (Tokenizer.scan s (String o (w ++ JS.chr c)) x) = EmptyString.
Proof.
  intros Hoc Hw Ht.
  destruct (closer_opener o c Hoc) as [Hop Hsp].
  set (x1 := Tokenizer.step s x o).
  assert (H1 : Tokenizer.tokens x1 = Tokenizer.tokens x /\ Tokenizer.t x1 = JS.chr o).
  { unfold x1, Tokenizer.step. rewrite Ht. cbn [Tokenizer.closer JS.startsWith].
    rewrite Hop, Hsp. destruct (Ascii.eqb o JS.lf); split; simpl; now rewrite ?Ht. }
  destruct H1 as [Htok1 Ht1].
  destruct (scan_inside_block s c w x1) as [Htok2 Ht2]; [now rewrite Ht1|exact Hw|].
  set (x2 := Tokenizer.scan s w x1) in *.
  assert (Hscan : Tokenizer.scan s (String o (w ++ JS.chr c)) x
                  = Tokenizer.step s x2 c).
  { unfold Tokenizer.scan. simpl. rewrite list_ascii_app, fold_left_app. reflexivity. }
  rewrite Hscan.
  assert (Hc2 : Tokenizer.closer (Tokenizer.t x2) = Some c).
  { rewrite Ht2, Ht1. exact Hoc. }
  exists (Tokenizer.col x2 - Z.max 0 (JS.len (String o (w ++ JS.chr c)) - 1))%Z,
    (Tokenizer.row x2).
  unfold Tokenizer.step. rewrite Hc2, Ascii.eqb_refl.
  unfold Tokenizer.pushtoken. rewrite Ht2, Ht1. cbn [JS.nonempty JS.chr append].
  unfold Tokenizer.pushtk. rewrite Ht2, Ht1, Htok2, Htok1.
  destruct (Ascii.eqb c JS.lf); split; reflexivity.
Qed.

Lemma endsWith_append (w : string) (c : ascii) :
  JS.endsWith (w ++ JS.chr c) c = true.
Proof.
  induction w as [|a w IH]; simpl; [apply Ascii.eqb_refl|].
  destruct (w ++ JS.chr c)%string eqn:E; [destruct w; discriminate|exact IH].
Qed.

Lemma slice_of_block (o c : ascii) (w : string) :
  JS.slice_1_m1 (String o (w ++ JS.chr c)) = w.
Proof.
  unfold JS.slice_1_m1. cbn [String.length String.substring].
  replace (S (String.length (w ++ JS.chr c)) - 2) with (String.length w).
  - induction w as [|a w IH]; [reflexivity|]. simpl. now rewrite IH.
  - rewrite string_length_app. simpl. lia.
Qed.

Lemma scan_app (s : Source.t) (a b : string) (x : Tokenizer.st) :
  Tokenizer.scan s (a ++ b) x = Tokenizer.scan s b (Tokenizer.scan s a x).
Proof. unfold Tokenizer.scan. now rewrite list_ascii_app, fold_left_app. Qed.

(** A closing brace, scanned from a state without pending text, gives one
    token. *)
Lemma scan_closing_brace (s : Source.t) (x : Tokenizer.st) :
  Tokenizer.t x = EmptyString ->
  Tokenizer.tokens (Tokenizer.step s x "}")
  = Tokenizer.tokens x ++ [Token.new (Tokenizer.col x) (Tokenizer.row x) "}" s]
  /\ Tokenizer.t (Tokenizer.step s x "}") = EmptyString.
Proof.
  intros Ht. unfold Tokenizer.step. rewrite Ht.
  change (Tokenizer.closer EmptyString) with (@None ascii). cbv iota.
  change (JS.is_op "}") with true. cbv iota.
  change (Ascii.eqb "}" JS.lf) with false. cbv iota.
  unfold Tokenizer.pushtoken. rewrite Ht.
  cbn [JS.nonempty Tokenizer.pushtk Tokenizer.add_col Tokenizer.tokens
       Tokenizer.t Tokenizer.col Tokenizer.row].
  change (Z.max 0 (JS.len (JS.chr "}") - 1)) with 0%Z.
  rewrite Z.sub_0_r. now split.
Qed.

Lemma startsWith_block (o : ascii) (r : string) :
  JS.startsWith (String o r) o = true.
Proof. apply Ascii.eqb_refl. Qed.

Lemma endsWith_block (o c : ascii) (w : string) :
  JS.endsWith (String o (w ++ JS.chr c)) c = true.
Proof.
  change (String o (w ++ JS.chr c)) with (String o w ++ JS.chr c)%string.
  apply endsWith_append.
Qed.

(** X15.  A source that is one block (a namespace header, a page header
    or a string literal whose text holds no closing character) is one
    token, whose value is the block with its delimiters: blanks, line feeds
    and operators between the delimiters are kept.  For a string literal,
    [resolveValue] gives the text between the quotes. *)
Theorem block_token_verbatim (name : string) (o c : ascii) (w : string) :
  Tokenizer.closer (JS.chr o) = Some c ->
  JS.all_chars (fun a => negb (Ascii.eqb a c)) w = true ->
  let source := Source.mk name (String o (w ++ JS.chr c)) in
  exists tok col row,
    tokenize source = [tok; Token.new_EOF col row source]
    /\ Token.val tok = String o (w ++ JS.chr c)
    /\ Token.eof tok = false
    /\ JS.slice_1_m1 (Token.val tok) = w
    /\ (o = JS.dq -> resolveValue tok = Ok (JS.VStr w)).
Proof.
  intros Hoc Hw source.
  destruct (scan_block source o c w Tokenizer.init Hoc Hw eq_refl)
    as (col & row & Htok & Ht).
  eexists _, _, _. unfold tokenize. cbn [Source.body source].
  unfold Tokenizer.pushtoken. rewrite Ht. cbn [JS.nonempty Tokenizer.tokens].
  rewrite Htok. cbn [Tokenizer.tokens Tokenizer.init app].
  split; [reflexivity|]. split; [reflexivity|]. split; [reflexivity|].
  split; [apply slice_of_block|].
  intros ->. unfold resolveValue, Token.isString. cbn [Token.eof Token.new Token.val].
  assert (Hc : Some JS.dq = Some c) by exact Hoc.
  injection Hc as <-.
  rewrite startsWith_block, endsWith_block. cbn [andb].
  now rewrite slice_of_block.
Qed.

(** X15, for a string literal with blanks, a line feed and operators. *)
Lemma block_token_verbatim_witness :
  let w := ("a b" ++ nl ++ "{%-x}")%string in
  let source := Source.mk "(input)" (String JS.dq (w ++ JS.chr JS.dq)) in
  exists tok col row,
    tokenize source = [tok; Token.new_EOF col row source]
    /\ Token.val tok = String JS.dq (w ++ JS.chr JS.dq)
    /\ Token.eof tok = false
    /\ JS.slice_1_m1 (Token.val tok) = w
    /\ (JS.dq = JS.dq -> resolveValue tok = Ok (JS.VStr w)).
Proof.
  exact (block_token_verbatim "(input)" JS.dq JS.dq ("a b" ++ nl ++ "{%-x}")
           eq_refl eq_refl).
Defined.

(** ** A page with a path *)

Section PlainPage.
Variables (tokens : list Token.t) (props : option Props).

Lemma loop_continue (fuel : nat) (s s' : PState) :
  i s < length tokens -> step tokens props s = Ok (Continue s') ->
  loop tokens props (S fuel) s = loop tokens props fuel (incr s').
Proof.
  intros Hi Hs. cbn [loop]. apply Nat.leb_gt in Hi. now rewrite Hi, Hs.
Qed.

Lemma loop_break (fuel : nat) (s s' : PState) :
  i s < length tokens -> step tokens props s = Ok (Break s') ->
  loop tokens props (S fuel) s = Some (Returned s').
Proof.
  intros Hi Hs. cbn [loop]. apply Nat.leb_gt in Hi. now rewrite Hi, Hs.
Qed.

End PlainPage.

(** The tokens of [(n){[p]{@"w"}}]. *)
Lemma plain_page_tokens (source : Source.t) (w : string) :
  JS.all_chars (fun a => negb (Ascii.eqb a JS.dq)) w = true ->
  Source.body source
  = ("(n){[p]{@" ++ String JS.dq (w ++ JS.chr JS.dq) ++ "}}")%string ->
  exists l1 l2 l3 l4 l5 l6 l7 l8 l9,
    tokenize source
    = [Token.mk "(n)" l1 false; Token.mk "{" l2 false; Token.mk "[p]" l3 false;
       Token.mk "{" l4 false; Token.mk "@" l5 false;
       Token.mk (String JS.dq (w ++ JS.chr JS.dq)) l6 false;
       Token.mk "}" l7 false; Token.mk "}" l8 false; Token.mk " " l9 true].
Proof.
  intros Hw Hbody. unfold tokenize. rewrite Hbody, !scan_app.
  set (x0 := Tokenizer.scan source "(n){[p]{@" Tokenizer.init).
  assert (H0 : Tokenizer.tokens x0
               = [Token.new 0 0 "(n)" source; Token.new 3 0 "{" source;
                  Token.new 4 0 "[p]" source; Token.new 7 0 "{" source;
                  Token.new 8 0 "@" source]
               /\ Tokenizer.t x0 = EmptyString).
  { split; vm_compute; reflexivity. }
  destruct H0 as [Htok0 Ht0].
  destruct (scan_block source JS.dq JS.dq w x0 eq_refl Hw Ht0)
    as (col & row & Htok1 & Ht1).
  set (x1 := Tokenizer.scan source (String JS.dq (w ++ JS.chr JS.dq)) x0) in *.
  change (Tokenizer.scan source "}}" x1)
    with (Tokenizer.step source (Tokenizer.step source x1 "}") "}").
  destruct (scan_closing_brace source x1 Ht1) as [Htok2 Ht2].
  set (x2 := Tokenizer.step source x1 "}") in *.
  destruct (scan_closing_brace source x2 Ht2) as [Htok3 Ht3].
  set (x3 := Tokenizer.step source x2 "}") in *.
  unfold Tokenizer.pushtoken. rewrite Ht3. cbn [JS.nonempty Tokenizer.tokens
    Tokenizer.col Tokenizer.row].
  rewrite Htok3, Htok2, Htok1, Htok0.
  eexists _, _, _, _, _, _, _, _, _. reflexivity.
Qed.

(** The parser on these tokens. *)
Lemma plain_page_parsed
  (decorators : gmap string DecImpl) (macros : gmap string MacImpl)
  (l1 l2 l3 l4 l5 l6 l7 l8 l9 : Loc.t) (w : string) :
  let tokens :=
    [Token.mk "(n)" l1 false; Token.mk "{" l2 false; Token.mk "[p]" l3 false;
     Token.mk "{" l4 false; Token.mk "@" l5 false;
     Token.mk (String JS.dq (w ++ JS.chr JS.dq)) l6 false;
     Token.mk "}" l7 false; Token.mk "}" l8 false; Token.mk " " l9 true] in
  exists s,
    loop tokens None (length tokens) (init_state (Pages.mk [] decorators macros 0))
    = Some (Returned s)
    /\ namespaces s = [Namespace.mk l1 "n" ∅ [Page.mk l3 "p" (Some w) ∅ []]]
    /\ next_oid s = 0.
Proof.
  intros tokens.
  set (nss := fun path => [Namespace.mk l1 "n" ∅ [Page.mk l3 "p" path ∅ []]]).
  change (length tokens) with 9.
  rewrite (loop_continue tokens None _ _
             (mkP 1 ParseState.Namespace (Some 0) None [] [] []
                [Namespace.mk l1 "n" ∅ []] 0));
    [|cbn; lia|vm_compute; reflexivity].
  rewrite (loop_continue tokens None _ _
             (mkP 3 ParseState.Page (Some 0) (Some (0, 0)) [] [] [] (nss None) 0));
    [|cbn; lia|vm_compute; reflexivity].
  rewrite (loop_continue tokens None _ _
             (mkP 5 ParseState.Page (Some 0) (Some (0, 0)) [] [] [] (nss (Some w)) 0));
    [|cbn; lia|].
  - rewrite (loop_continue tokens None _ _
               (mkP 6 ParseState.Namespace (Some 0) None [] [] [] (nss (Some w)) 0));
      [|cbn; lia|vm_compute; reflexivity].
    rewrite (loop_continue tokens None _ _
               (mkP 7 ParseState.Top None None [] [] [] (nss (Some w)) 0));
      [|cbn; lia|vm_compute; reflexivity].
    rewrite (loop_break tokens None _ _
               (mkP 8 ParseState.Top None None [] [] [] (nss (Some w)) 0));
      [|cbn; lia|vm_compute; reflexivity].
    eexists. split; [reflexivity|]. split; reflexivity.
  - unfold step. cbn [incr i at_index lookup list_lookup tokens mbind result_bind
      state page namespace decs groupDecs globDecs namespaces next_oid].
    unfold step_Page.
    cbn [incr i at_index lookup list_lookup tokens mbind result_bind
      state page namespace decs groupDecs globDecs namespaces next_oid Token.val].
    change (String.eqb "@" "}") with false. cbn iota.
    change (Token.isIdentifier (Token.mk "@" l5 false)) with false. cbn iota.
    change (String.eqb "@" "@") with true. cbn iota.
    unfold Token.isString. cbn [Token.val].
    rewrite startsWith_block, endsWith_block. cbn [andb negb].
    rewrite slice_of_block. reflexivity.
Qed.

(** X16.  The path of a page is the text between the quotes as it is
    written: for every text [w] without a double quote, the source
    [(n){[p]{@"w"}}] gives one namespace [n] with one page [p], whose
    path is [w], also when [w] holds blanks, line feeds, braces or [%]. *)
Theorem page_path_is_verbatim
  (decorators : gmap string DecImpl) (macros : gmap string MacImpl)
  (source : Source.t) (w : string) :
  JS.all_chars (fun a => negb (Ascii.eqb a JS.dq)) w = true ->
  Source.body source
  = ("(n){[p]{@" ++ String JS.dq (w ++ JS.chr JS.dq) ++ "}}")%string ->
  exists l1 l3,
    add (Pages.mk [] decorators macros 0) source None
    = Some (Pages.mk [Namespace.mk l1 "n" ∅ [Page.mk l3 "p" (Some w) ∅ []]]
              decorators macros 0, None).
Proof.
  intros Hw Hbody.
  destruct (plain_page_tokens source w Hw Hbody)
    as (l1 & l2 & l3 & l4 & l5 & l6 & l7 & l8 & l9 & Htok).
  destruct (plain_page_parsed decorators macros l1 l2 l3 l4 l5 l6 l7 l8 l9 w)
    as (s & Hloop & Hnss & Hnext).
  exists l1, l3. unfold add. rewrite Htok, Hloop. unfold commit.
  now rewrite Hnss, Hnext.
Qed.

(** X16, for a path with a blank, a line feed and a closing brace. *)
Lemma page_path_is_verbatim_witness :
  let w := ("a b" ++ nl ++ "}")%string in
  exists l1 l3,
    add (Pages.mk [] ∅ ∅ 0)
      (Source.new "(input)" ("(n){[p]{@" ++ String JS.dq (w ++ JS.chr JS.dq) ++ "}}"))
      None
    = Some (Pages.mk [Namespace.mk l1 "n" ∅ [Page.mk l3 "p" (Some w) ∅ []]]
              ∅ ∅ 0, None).
Proof.
  exact (page_path_is_verbatim ∅ ∅
           (Source.new "(input)"
              ("(n){[p]{@" ++ String JS.dq (("a b" ++ nl ++ "}") ++ JS.chr JS.dq) ++ "}}"))
           ("a b" ++ nl ++ "}") eq_refl eq_refl).
Defined.

(** ** What a source that [add] accepts looks like *)

Section Accepted.
Variable tokens : list Token.t.
Variable props : option Props.
Hypothesis Hended : well_ended tokens.

Lemma drop_cons_inv {A} (l : list A) (n : nat) (x : A) (r : list A) :
  drop n l = x :: r -> l !! n = Some x /\ r = drop (S n) l.
Proof.
  revert n. induction l as [|a l IH]; intros [|n]; simpl; try discriminate.
  - intros [= -> ->]. split; [reflexivity|]. now rewrite drop_0.
  - apply IH.
Qed.

(** The loop over a parameter list stops at a [>]. *)
Lemma params_lands (rest : list Token.t) :
  forall (k : nat) (dec : Dec.t) (j : nat) (dec' : Dec.t),
    rest = drop (S k) tokens ->
    params rest k dec = Ok (j, dec') ->
    exists t, tokens !! j = Some t /\ Token.val t = ">".
Proof.
  remember (length rest) as m eqn:Hm.
  revert rest Hm. induction m as [m IH] using lt_wf_ind.
  intros rest Hm k dec j dec' Hrest H.
  destruct rest as [|tk rest1]; simpl in H; [discriminate|].
  symmetry in Hrest. apply drop_cons_inv in Hrest as [Htk Hrest1].
  destruct (String.eqb (Token.val tk) ">") eqn:Egt.
  { inversion H; subst. exists tk. split; [exact Htk|]. now apply String.eqb_eq. }
  destruct (Token.isIdentifier tk).
  - destruct rest1 as [|eq rest2]; [discriminate|].
    destruct (negb (String.eqb (Token.val eq) "=")); [discriminate|].
    symmetry in Hrest1. apply drop_cons_inv in Hrest1 as [_ Hrest2].
    destruct rest2 as [|v rest3]; [discriminate|].
    symmetry in Hrest2. apply drop_cons_inv in Hrest2 as [_ Hrest3].
    destruct (resolveValue v) as [value|]; simpl in H; [|discriminate].
    eapply (IH (length rest3)) in H; [exact H|subst m; simpl; lia|reflexivity|].
    rewrite Hrest3. f_equal. lia.
  - destruct (resolveValue tk) as [value|]; simpl in H; [|discriminate].
    eapply (IH (length rest1)) in H; [exact H|subst m; simpl; lia|reflexivity|].
    exact Hrest1.
Qed.

(** A declaration stops at the name of the decorator or at the [>] of
    its parameter list, and leaves the state of the parser as it is. *)
Lemma declaration_lands (token : Token.t) (s s' : PState) :
  declaration tokens token s = Ok (Continue s') ->
  state s' = state s
  /\ exists t, tokens !! i s' = Some t /\ landed t.
Proof.
  unfold declaration. cbv zeta.
  destruct (at_index tokens (S (i s))) as [t1|] eqn:H1; [|discriminate].
  cbn [mbind result_bind].
  set (i1 := if String.eqb (Token.val t1) "%" then S (S (i s)) else S (i s)).
  destruct (at_index tokens i1) as [t2|] eqn:H2; [|discriminate].
  cbn [mbind result_bind].
  set (i2 := if String.eqb (Token.val t2) "-" then S i1 else i1).
  destruct (at_index tokens i2) as [t3|] eqn:H3; [|discriminate].
  cbn [mbind result_bind].
  set (i3 := if String.eqb (Token.val t3) "!" then S i2 else i2).
  destruct (at_index tokens i3) as [t4|] eqn:H4; [|discriminate].
  cbn [mbind result_bind].
  destruct (Token.isIdentifier t4) eqn:Hid; cbn [negb]; [|discriminate].
  destruct (at_index tokens (S i3)) as [nx|] eqn:Hnx; [|discriminate].
  cbn [mbind result_bind].
  destruct (String.eqb (Token.val nx) "<") eqn:Hlt.
  - destruct (String.eqb (Token.val t2) "-"); [discriminate|].
    match goal with
    | |- context [params ?r ?k ?d] => destruct (params r k d) as [[j d']|] eqn:Hp
    end; cbn [mbind result_bind]; [|discriminate].
    intros [= <-]. split; [reflexivity|]. cbn [i].
    apply params_lands in Hp as (t & Ht & Hv).
    + exists t. split; [exact Ht|]. unfold landed. auto.
    + f_equal. lia.
  - cbn [mbind result_bind]. intros [= <-]. split; [reflexivity|]. cbn [i].
    exists t4. split; [now apply at_index_Ok|]. unfold landed. auto.
Qed.

Ltac lands_split H :=
  repeat (try unfold mbind, result_bind in H; cbv beta iota in H;
          match type of H with
          | (match ?x with _ => _ end) = _ => destruct x eqn:?
          | _ => discriminate H
          end).

Lemma landed_eqb (t : Token.t) (c : string) :
  c = "{" \/ c = "}" \/ c = ">" ->
  String.eqb (Token.val t) c = true -> landed t.
Proof.
  intros Hc H. apply String.eqb_eq in H. unfold landed. rewrite H.
  destruct Hc as [ -> | [ -> | -> ] ]; auto.
Qed.

Lemma landed_value (t : Token.t) (v : JS.value) :
  resolveValue t = Ok v -> landed t.
Proof.
  unfold resolveValue, landed. destruct (Token.eof t); [discriminate|].
  destruct (Token.isString t); [auto|].
  destruct (Token.isIdentifier t); discriminate.
Qed.

Lemma landed_not_marker (t : Token.t) : landed t -> Token.val t <> " ".
Proof.
  unfold landed, Token.isString, Token.isIdentifier.
  intros H E. rewrite E in H.
  destruct H as [H|[H|[H|[H|H]]]]; discriminate.
Qed.

Lemma landed_no_header (t : Token.t) :
  landed t -> Token.isNamespace t = false /\ Token.isPage t = false.
Proof.
  unfold landed, Token.isString, Token.isIdentifier, Token.isNamespace, Token.isPage.
  intros [H|[H|[H|[H|H]]]]; try (rewrite H; split; reflexivity).
  - apply andb_true_iff in H as [H _].
    destruct (Token.val t) as [|a r]; [discriminate|]. simpl in H.
    apply Ascii.eqb_eq in H. subst a. split; reflexivity.
  - destruct (Token.val t) as [|a r]; [discriminate|].
    unfold JS.is_identifier in H. cbn [JS.startsWith].
    destruct (Ascii.eqb a "(") eqn:E1.
    { apply Ascii.eqb_eq in E1. subst a. destruct r; discriminate. }
    destruct (Ascii.eqb a "[") eqn:E2.
    { apply Ascii.eqb_eq in E2. subst a. destruct r; discriminate. }
    split; reflexivity.
Qed.

Ltac landed_tac :=
  first [ eapply landed_value; eassumption
        | eapply landed_eqb; [|eassumption]; auto
        | eapply landed_eqb; [|apply negb_false_iff; eassumption]; auto
        | unfold landed; right; right; right; left;
          apply negb_false_iff; assumption
        | unfold landed; right; right; right; right; assumption ].

(** An iteration that goes on stops at a brace, at the [>] of a
    parameter list, at a string or at an identifier; when it leaves the
    namespace, at a closing brace. *)
Lemma step_lands (s s' : PState) :
  step tokens props s = Ok (Continue s') ->
  exists t, tokens !! i s' = Some t /\ landed t
            /\ (state s' = ParseState.Top -> Token.val t = "}").
Proof.
  intros H. unfold step in H. cbn [mbind result_bind] in H.
  destruct (at_index tokens (i s)) as [token|] eqn:Htok; [|discriminate].
  destruct (state s) eqn:Hst.
  - unfold step_Top in H. lands_split H. inversion H; subst; clear H. cbn [i state].
    eexists. split; [apply at_index_Ok; eassumption|]. split; [landed_tac|discriminate].
  - unfold step_Namespace in H. lands_split H.
    all: try (apply declaration_lands in H as [Hs (t & Ht & Hv)];
              exists t; split; [exact Ht|]; split; [exact Hv|congruence]).
    all: inversion H; subst; clear H; cbn [i state].
    all: eexists; (split; [apply at_index_Ok; eassumption|]).
    all: split; [landed_tac|].
    all: first [discriminate | congruence
               | intros _; apply String.eqb_eq; assumption].
  - unfold step_Page in H. lands_split H.
    all: inversion H; subst; clear H; cbn [i state].
    all: eexists; (split; [apply at_index_Ok; eassumption|]).
    all: split; [landed_tac|].
    all: first [discriminate | congruence].
Qed.

Lemma step_head_ok (s s' : PState) :
  step tokens props s = Ok (Continue s') -> head_ok tokens (incr s').
Proof.
  intros H. apply step_lands in H as (t & Ht & Hv & Htop).
  destruct (next_token tokens Hended _ _ Ht (landed_not_marker _ Hv)) as [t' Ht'].
  apply lookup_lt_Some in Ht'. split; [exact Ht'|].
  intros Hst. right. exists t. cbn [incr i]. rewrite Nat.sub_1_r. simpl.
  split; [exact Ht|]. now apply Htop.
Qed.

Lemma step_Break_at_marker (s s' : PState) :
  step tokens props s = Ok (Break s') ->
  state s = ParseState.Top
  /\ exists t, tokens !! i s = Some t /\ Token.eof t = true.
Proof.
  intros H. unfold step in H. cbn [mbind result_bind] in H.
  destruct (at_index tokens (i s)) as [token|] eqn:Htok; [|discriminate].
  destruct (state s) eqn:Hst.
  - unfold step_Top in H. lands_split H. split; [reflexivity|].
    exists token. split; [now apply at_index_Ok|assumption].
  - exfalso. unfold step_Namespace in H. lands_split H.
    unfold declaration in H. lands_split H.
  - exfalso. unfold step_Page in H. lands_split H.
Qed.

(** The loop returns only from outside of every namespace, at a token
    that is an end marker. *)
Lemma loop_returns_at_marker (fuel : nat) :
  forall s s',
    head_ok tokens s ->
    loop tokens props fuel s = Some (Returned s') ->
    head_ok tokens s' /\ state s' = ParseState.Top
    /\ exists t, tokens !! i s' = Some t /\ Token.eof t = true.
Proof.
  induction fuel as [|fuel IH]; intros s s' Hok; simpl.
  - destruct Hok as [Hi _]. apply Nat.leb_gt in Hi. rewrite Hi. discriminate.
  - pose proof Hok as [Hi _]. apply Nat.leb_gt in Hi. rewrite Hi.
    destruct (step tokens props s) as [[s1|s1]|e] eqn:Hstep; [| |discriminate].
    + apply IH. eapply step_head_ok. exact Hstep.
    + intros [= <-]. pose proof (step_Break _ _ _ _ Hstep) as ->.
      apply step_Break_at_marker in Hstep as [Hst Ht]. auto.
Qed.

End Accepted.

(** The first token of a source that the loop accepts, when it is not
    the end marker, is a namespace header. *)
Lemma loop_begins_with_namespace
  (tokens : list Token.t) (props : option Props) (fuel : nat)
  (s s' : PState) (t0 : Token.t) :
  state s = ParseState.Top -> tokens !! i s = Some t0 -> Token.eof t0 = false ->
  loop tokens props (S fuel) s = Some (Returned s') ->
  Token.isNamespace t0 = true.
Proof.
  intros Hst Ht0 Heof. cbn [loop].
  pose proof (lookup_lt_Some _ _ _ Ht0) as Hi. apply Nat.leb_gt in Hi. rewrite Hi.
  unfold step. rewrite (at_index_Some _ _ _ Ht0), Hst. cbn [mbind result_bind].
  unfold step_Top. destruct (Token.isNamespace t0); [reflexivity|].
  rewrite Heof. discriminate.
Qed.

Lemma squeeze_app (l1 l2 : list ascii) : squeeze (l1 ++ l2) = squeeze l1 ++ squeeze l2.
Proof. apply List.filter_app. Qed.

(** X17.  A source that [add] accepts is blank, or it begins with the
    opening parenthesis of a namespace header and ends with a closing
    brace, blanks aside: [add] returns only from outside of every
    namespace, and it throws at an end of text inside a namespace or a
    page. *)
Theorem accepted_source_begins_and_ends
  (this this' : Pages.t) (source : Source.t) (props : option Props) :
  add this source props = Some (this', None) ->
  squeeze (list_ascii_of_string (Source.body source)) = []
  \/ exists mid,
       squeeze (list_ascii_of_string (Source.body source))
       = "("%char :: mid ++ ["}"%char].
Proof.
  unfold add.
  destruct (loop (tokenize source) props (length (tokenize source))
              (init_state this)) as [[s|e s]|] eqn:Hloop; try discriminate.
  intros _.
  destruct (tokenize_scanned source) as (toks & col & Htok & Hsc & Hsq).
  rewrite <- Hsq. clear Hsq.
  set (tokens := tokenize source) in *.
  assert (Hlen : length tokens = S (length toks)).
  { rewrite Htok, length_app. simpl. lia. }
  assert (Hinit : head_ok tokens (init_state this)).
  { split; [simpl; lia|]. intros _. now left. }
  destruct (loop_returns_at_marker tokens props (tokenize_well_ended source)
              _ _ _ Hinit Hloop) as ([Hi Hclosed] & Hst & t & Ht & Heof).
  assert (His : i s = length toks).
  { destruct (decide (i s < length toks)) as [Hlt|Hge]; [exfalso|lia].
    rewrite Htok, lookup_app_l in Ht by exact Hlt.
    rewrite Forall_forall in Hsc.
    apply list_elem_of_lookup_2, Hsc, scanned_token in Ht as (He & _). congruence. }
  destruct toks as [|t0 rest]; [now left|]. right.
  assert (Hns : Token.isNamespace t0 = true).
  { rewrite Hlen in Hloop.
    eapply (loop_begins_with_namespace tokens props _ (init_state this) s);
      [reflexivity| |  |exact Hloop].
    - rewrite Htok. reflexivity.
    - apply Forall_cons in Hsc as [Hsc _]. now apply scanned_token in Hsc as (He & _). }
  destruct (Hclosed Hst) as [H0|(tl & Htl & Hval)]; [simpl in His; lia|].
  rewrite His in Htl. simpl in Htl. rewrite Nat.sub_0_r in Htl.
  rewrite Htok, lookup_app_l in Htl by (simpl; lia).
  unfold Token.isNamespace in Hns. apply andb_true_iff in Hns as [Hopen _].
  destruct (Token.val t0) as [|a r] eqn:Hv0; [discriminate|].
  apply Ascii.eqb_eq in Hopen. subst a.
  destruct (@exists_last _ (t0 :: rest)) as (pre & tl' & Hlast); [discriminate|].
  assert (tl' = tl) as ->.
  { rewrite Hlast in Htl.
    assert (Hl : length rest = length pre).
    { apply (f_equal length) in Hlast. rewrite length_app in Hlast.
      simpl in Hlast. lia. }
    rewrite Hl, lookup_app_r in Htl by lia.
    rewrite Nat.sub_diag in Htl. now inversion Htl. }
  destruct pre as [|p pre].
  - simpl in Hlast. inversion Hlast; subst. rewrite Hv0 in Hval. discriminate.
  - simpl in Hlast. inversion Hlast; subst.
    exists (squeeze (list_ascii_of_string r ++ token_chars pre)).
    unfold token_chars. cbn [flat_map]. rewrite Hv0. rewrite flat_map_app.
    cbn [flat_map]. rewrite Hval. cbn [list_ascii_of_string].
    rewrite app_nil_r. rewrite <- app_comm_cons.
    unfold squeeze at 1. cbn [List.filter].
    change (negb (JS.is_space "(")) with true. cbv iota.
    fold (squeeze (list_ascii_of_string r ++ flat_map (fun t => list_ascii_of_string (Token.val t)) pre ++ ["}"%char])).
    rewrite app_assoc, squeeze_app. reflexivity.
Qed.

(** X17, on the source [(n){[p]{@"x"}}]. *)
Lemma accepted_source_begins_and_ends_witness :
  let source := Source.new "(input)" (src "(n){[p]{@'x'}}") in
  exists this' mid,
    add Pages.new source None = Some (this', None)
    /\ squeeze (list_ascii_of_string (Source.body source))
       = "("%char :: mid ++ ["}"%char].
Proof.
  intros source.
  destruct (add Pages.new source None) as [[this' [e|]]|] eqn:Hadd;
    [vm_compute in Hadd; discriminate| |vm_compute in Hadd; discriminate].
  exists this'.
  destruct (accepted_source_begins_and_ends Pages.new this' source None Hadd)
    as [H|[mid H]].
  - vm_compute in H. discriminate.
  - exists mid. split; [reflexivity|exact H].
Defined.

(** ** Retrieval of a page *)

Lemma find_page_app (path : string) (l1 l2 : list Page.t) :
  find_page path (l1 ++ l2)
  = match find_page path l1 with
    | Some page => Some page
    | None => find_page path l2
    end.
Proof.
  induction l1 as [|pg l1 IH]; [reflexivity|]. simpl.
  destruct (page_found path pg); [reflexivity|exact IH].
Qed.

Lemma find_in_all_pages (path : string) (nss : list Namespace.t) :
  find_in path nss = find_page path (all_pages nss).
Proof.
  unfold all_pages. induction nss as [|ns nss IH]; [reflexivity|].
  simpl. rewrite find_page_app, IH. reflexivity.
Qed.

(** The first page that is found: the pages before it are not. *)
Lemma find_page_first (path : string) (pages : list Page.t) :
  match find_page path pages with
  | Some page =>
      exists before behind,
        pages = before ++ page :: behind
        /\ page_found path page = true
        /\ Forall (fun pg => page_found path pg = false) before
  | None => Forall (fun pg => page_found path pg = false) pages
  end.
Proof.
  induction pages as [|pg pages IH]; simpl; [constructor|].
  destruct (page_found path pg) eqn:E.
  - exists [], pages. repeat split; [exact E|constructor].
  - destruct (find_page path pages) as [page|].
    + destruct IH as (before & behind & -> & Hf & Hb).
      exists (pg :: before), behind. repeat split; [exact Hf|]. now constructor.
    + now constructor.
Qed.

(** X18.  [getPage] searches the pages of the document in its order, for
    the first page whose name is the path without its outer slashes and
    that has a path that is not empty.  It gives [null] exactly when
    there is no such page, and otherwise reads the file at the path of
    the first one: a page without a path is never given. *)
Theorem getPage_gives_first_match
  (readFileSync : string -> result string) (this : Pages.t) (path : string) :
  let wanted pg :=
    Page.name pg = strip_slashes path
    /\ exists p, Page.path pg = Some p /\ p <> EmptyString in
  (Forall (fun pg => ~ wanted pg) (all_pages (Pages.namespaces this))
   /\ getPage readFileSync this path = Ok None)
  \/ exists before page behind p,
       all_pages (Pages.namespaces this) = before ++ page :: behind
       /\ Forall (fun pg => ~ wanted pg) before
       /\ Page.name page = strip_slashes path
       /\ Page.path page = Some p /\ p <> EmptyString
       /\ getPage readFileSync this path
          = match readFileSync p with
            | Ok body => Ok (Some (body, page))
            | Throw e => Throw e
            end.
Proof.
  intros wanted.
  assert (Hw : forall pg, page_found (strip_slashes path) pg = false -> ~ wanted pg).
  { intros pg Hf [Hname (p & Hp & Hne)]. unfold page_found in Hf.
    rewrite Hname, String.eqb_refl, Hp in Hf. destruct p; [now apply Hne|discriminate]. }
  unfold getPage. cbv zeta. rewrite find_in_all_pages.
  pose proof (find_page_first (strip_slashes path)
                (all_pages (Pages.namespaces this))) as H.
  destruct (find_page (strip_slashes path) (all_pages (Pages.namespaces this)))
    as [page|].
  - right. destruct H as (before & behind & Hall & Hf & Hb).
    unfold page_found in Hf. apply andb_true_iff in Hf as [Hname Hpath].
    apply String.eqb_eq in Hname.
    destruct (Page.path page) as [p|] eqn:Hp; [|discriminate].
    exists before, page, behind, p. split; [exact Hall|]. split.
    { eapply Forall_impl; [exact Hb|]. exact Hw. }
    split; [exact Hname|]. split; [exact Hp|]. split.
    { intros ->. discriminate. }
    simpl. destruct (readFileSync p); reflexivity.
  - left. split; [|reflexivity]. eapply Forall_impl; [exact H|]. exact Hw.
Qed.

Lemma drop_last_append (w : string) (c : ascii) : drop_last (w ++ JS.chr c) = w.
Proof.
  induction w as [|a w IH]; [reflexivity|].
  change (drop_last (String a (w ++ JS.chr c)) = String a w).
  cbn [drop_last]. rewrite IH.
  destruct (w ++ JS.chr c)%string eqn:E; [destruct w; discriminate|reflexivity].
Qed.

Lemma strip_slashes_wrapped (w : string) :
  strip_slashes (String "/" (w ++ "/")) = w.
Proof.
  unfold strip_slashes. cbn [Ascii.eqb Bool.eqb]. cbv iota.
  change "/"%string with (JS.chr "/").
  now rewrite endsWith_append, drop_last_append.
Qed.

Lemma strip_slashes_plain (w : string) :
  JS.startsWith w "/" = false -> JS.endsWith w "/" = false ->
  strip_slashes w = w.
Proof.
  intros Hs He. unfold strip_slashes. destruct w as [|a r]; [reflexivity|].
  simpl in Hs. rewrite Hs, He. reflexivity.
Qed.

(** X19.  A slash before and a slash behind the path make no difference
    to [getPage]: for a path [w] that neither begins nor ends with a
    slash, [/w/] gives what [w] gives. *)
Theorem getPage_ignores_outer_slashes
  (readFileSync : string -> result string) (this : Pages.t) (w : string) :
  JS.startsWith w "/" = false -> JS.endsWith w "/" = false ->
  getPage readFileSync this (String "/" (w ++ "/")) = getPage readFileSync this w.
Proof.
  intros Hs He. unfold getPage.
  now rewrite strip_slashes_wrapped, (strip_slashes_plain w Hs He).
Qed.

(** X19, on the page [p] of [(n){[p]{@"x"}}], with a file system that
    holds the text [hello] at [x]. *)
Lemma getPage_ignores_outer_slashes_witness :
  let fs := fun p => if String.eqb p "x" then Ok "hello" else Throw TypeError in
  JS.startsWith "p" "/" = false /\ JS.endsWith "p" "/" = false
  /\ getPage fs plain_parsed "/p/" = getPage fs plain_parsed "p"
  /\ exists page, getPage fs plain_parsed "p" = Ok (Some ("hello", page)).
Proof.
  intros fs. split; [reflexivity|]. split; [reflexivity|]. split.
  - exact (getPage_ignores_outer_slashes fs plain_parsed "p" eq_refl eq_refl).
  - eexists. vm_compute. reflexivity.
Defined.

(** ** The column of a word *)






(** ** The two parsers *)

Lemma plain_lookup (tokens : list Token.t) :
  plain tokens = true ->
  forall k t t',
    tokens !! k = Some t -> tokens !! S k = Some t' ->
    (Token.val t = "%" -> Token.val t' <> "%")
    /\ (Token.val t' = "{" -> Token.isNamespace t = true \/ Token.isPage t = true).
Proof.
  induction tokens as [|t0 rest IH]; intros Hp k t t' Hk Hk'; [discriminate|].
  destruct rest as [|t1 rest]; [destruct k; discriminate|].
  cbn [plain] in Hp. apply andb_true_iff in Hp as [Hp Hrest].
  apply andb_true_iff in Hp as [H1 H2].
  destruct k as [|k].
  - simpl in Hk, Hk'. inversion Hk; inversion Hk'; subst. split.
    + intros E E'. rewrite E, E' in H1. discriminate.
    + intros E. rewrite E in H2. simpl in H2.
      apply orb_true_iff in H2. exact H2.
  - apply (IH Hrest k t t'); assumption.
Qed.

Section Agreement.
Variable tokens : list Token.t.
Hypothesis Hplain : plain tokens = true.

Ltac innermost t :=
  lazymatch t with
  | match ?x with _ => _ end => innermost x
  | _ => t
  end.

Ltac both_split :=
  repeat (unfold mbind, result_bind; cbv beta iota zeta;
          match goal with
          | |- match (match ?y with _ => _ end) with _ => _ end =>
              let x := innermost y in destruct x eqn:?
          end).

(** One iteration of the second parser and one of the first, from the
    same variables. *)
Lemma step_agrees (s : Second.PState) :
  agree_ok tokens s ->
  match Second.step tokens s, step tokens None (lower s) with
  | Ok (Second.Continue s2), Ok (Continue s1) =>
      s1 = lower s2
      /\ Second.decState s2 = Second.DecState.Pending /\ Second.globDecs s2 = []
  | Ok (Second.Break s2), Ok (Break s1) => s1 = lower s2
  | Throw e2, Throw e1 => e2 = e1
  | _, _ => False
  end.
Proof.
  intros (Hpend & Hglob & Hprev).
  unfold Second.step, step. cbn [lower i state].
  destruct (at_index tokens (Second.i s)) as [token|] eqn:Htok;
    cbn [mbind result_bind]; [|reflexivity].
  destruct (Second.state s) eqn:Hst.
  - unfold Second.step_Top, step_Top. cbn [lower i state namespaces page decs
      groupDecs globDecs next_oid default].
    both_split; try reflexivity.
    unfold lower. cbn. auto.
  - unfold Second.step_Namespace, step_Namespace.
    cbn [lower i state namespace namespaces page decs groupDecs globDecs next_oid].
    destruct (Second.namespace s) as [n|] eqn:Hn; [|reflexivity].
    destruct (String.eqb (Token.val token) "}") eqn:Hcl.
    { rewrite Hpend. unfold lower. cbn. rewrite ?Hst. auto. }
    destruct (Token.isIdentifier token) eqn:Hid.
    { both_split; try reflexivity. unfold lower. cbn. rewrite ?Hst. auto. }
    destruct (Token.isPage token) eqn:Hpg.
    { both_split; try reflexivity. unfold lower. cbn.
      rewrite Hpend, Hglob, app_nil_r. cbn. auto. }
    destruct (String.eqb (Token.val token) "%") eqn:Hpc.
    { unfold Second.declaration, declaration. rewrite Hpend.
      cbn [lower i state namespace namespaces page decs groupDecs globDecs next_oid].
      destruct (at_index tokens (S (Second.i s))) as [t1|] eqn:H1;
        cbn [mbind result_bind]; [|reflexivity].
      assert (Hglb : String.eqb (Token.val t1) "%" = false).
      { apply String.eqb_neq.
        apply (plain_lookup tokens Hplain (Second.i s) token t1);
          [now apply at_index_Ok|now apply at_index_Ok|now apply String.eqb_eq]. }
      rewrite Hglb. cbv zeta iota. rewrite H1.
      both_split; try reflexivity.
      all: unfold lower; cbn; rewrite ?Hst; auto. }
    destruct (String.eqb (Token.val token) "{") eqn:Hob.
    { exfalso. destruct (Second.i s) as [|k] eqn:Hi; [congruence|].
      destruct Hprev as (t & Ht & Hl).
      apply landed_no_header in Hl as [Hl1 Hl2].
      destruct (plain_lookup tokens Hplain k t token Ht) as [_ H];
        [now apply at_index_Ok|].
      apply String.eqb_eq in Hob. destruct (H Hob); congruence. }
    cbn [andb]. both_split; reflexivity.
  - unfold Second.step_Page, step_Page.
    cbn [lower i state namespace namespaces page decs groupDecs globDecs next_oid].
    both_split; try reflexivity.
    all: unfold lower; cbn; rewrite ?Hst; auto.
Qed.

Lemma loop_agrees (fuel : nat) :
  forall s : Second.PState,
    agree_ok tokens s ->
    match Second.loop tokens fuel s, loop tokens None fuel (lower s) with
    | Some (Ok s2), Some (Returned s1) => s1 = lower s2
    | Some (Throw e2), Some (Thrown e1 _) => e2 = e1
    | None, None => True
    | _, _ => False
    end.
Proof.
  induction fuel as [|fuel IH]; intros s Hok; cbn [Second.loop loop lower i].
  - destruct (length tokens <=? Second.i s)%nat; reflexivity.
  - destruct (length tokens <=? Second.i s)%nat; [reflexivity|].
    pose proof (step_agrees s Hok) as H.
    destruct (Second.step tokens s) as [[s2|s2]|e2];
      destruct (step tokens None (lower s)) as [[s1|s1]|e1] eqn:Hstep;
      try contradiction.
    + destruct H as (-> & Hpend & Hglob).
      change (incr (lower s2)) with (lower (Second.incr s2)).
      apply IH. split; [exact Hpend|]. split; [exact Hglob|].
      cbn [Second.incr Second.i].
      apply step_lands in Hstep as (t & Ht & Hl & _). eauto.
    + exact H.
    + exact H.
Qed.

End Agreement.

(** X21.  The two parsers in the file agree on a source without global
    decorators and without groups (no [%] follows a [%], and every opening
    brace follows a header): [parse] of the second version returns the
    namespaces that [add] of the first stores in a new [Pages] object,
    with the same decorator objects, and throws what [add] throws. *)
Theorem parsers_agree_on_plain_sources (source : Source.t) :
  plain (tokenize source) = true ->
  match Second.parse source, add Pages.new source None with
  | Some (Ok (nss, next)), Some (this, None) =>
      Pages.namespaces this = nss /\ Pages.next_oid this = next
  | Some (Throw e2), Some (_, Some e1) => e2 = e1
  | _, _ => False
  end.
Proof.
  intros Hplain. unfold Second.parse, add.
  assert (Hinit : agree_ok (tokenize source) Second.init_state).
  { split; [reflexivity|]. split; reflexivity. }
  pose proof (loop_agrees (tokenize source) Hplain (length (tokenize source))
                Second.init_state Hinit) as H.
  change (lower Second.init_state) with (init_state Pages.new) in H.
  destruct (loop_finishes (tokenize source) None (length (tokenize source))
              (init_state Pages.new)) as [o Ho]; [simpl; lia|].
  rewrite Ho in *.
  destruct (Second.loop (tokenize source) (length (tokenize source))
              Second.init_state) as [[s2|e2]|]; destruct o as [s1|e1 s1];
    try contradiction.
  - subst s1. split; reflexivity.
  - exact H.
Qed.

(** X21, on the source [(n){%a<__not="x"> %a %b [p]{}}]. *)
Lemma parsers_agree_on_plain_sources_witness :
  let source := Source.new "(input)" (src not_text) in
  plain (tokenize source) = true
  /\ match Second.parse source, add Pages.new source None with
     | Some (Ok (nss, next)), Some (this, None) =>
         Pages.namespaces this = nss /\ Pages.next_oid this = next
     | Some (Throw e2), Some (_, Some e1) => e2 = e1
     | _, _ => False
     end.
Proof.
  intros source.
  assert (H : plain (tokenize source) = true) by (vm_compute; reflexivity).
  split; [exact H|].
  exact (parsers_agree_on_plain_sources source H).
Defined.

(** ** The second parser reads no token behind the end marker *)

Section SecondInRange.
Variable tokens : list Token.t.
Hypothesis Hended : well_ended tokens.
Hypothesis Hloc : Forall locatable tokens.

Ltac second_split H :=
  repeat (try unfold mbind, result_bind in H; cbv beta iota zeta in H;
          match type of H with
          | (match ?x with _ => _ end) = _ => destruct x eqn:?
          | _ => discriminate H
          end).

Ltac innermost t :=
  lazymatch t with
  | match ?x with _ => _ end => innermost x
  | _ => t
  end.

Ltac both_split :=
  repeat (unfold mbind, result_bind; cbv beta iota zeta;
          match goal with
          | |- match (match ?y with _ => _ end) with _ => _ end =>
              let x := innermost y in destruct x eqn:?
          end).

(** Outside of a group, a declaration throws in the second parser what
    it throws in the first. *)
Lemma declaration_throws_same (token : Token.t) (s : Second.PState) :
  Second.decState s = Second.DecState.Pending ->
  match Second.declaration tokens token s, declaration tokens token (lower s) with
  | Throw e2, Throw e1 => e2 = e1
  | Ok (Second.Continue s2), Ok (Continue s1) =>
      i s1 = Second.i s2 /\ namespaces s1 = Second.namespaces s2
      /\ Second.namespaces s2 = Second.namespaces s
      /\ Second.namespace s2 = Second.namespace s
      /\ Second.page s2 = Second.page s
  | _, _ => False
  end.
Proof.
  intros Hpend. unfold Second.declaration, declaration. rewrite Hpend.
  cbn [lower i state namespace namespaces page decs groupDecs globDecs next_oid].
  both_split; try reflexivity.
  all: cbn; auto.
Qed.

Lemma second_declaration_thrown (token : Token.t) (s : Second.PState) (e : Error) :
  tokens !! Second.i s = Some token -> String.eqb (Token.val token) "%" = true ->
  Second.declaration tokens token s = Throw e -> syntax_or_range e.
Proof.
  intros Htok Hpc H.
  destruct (Second.decState s) eqn:Hst.
  - pose proof (declaration_throws_same token s Hst) as Hsame. rewrite H in Hsame.
    destruct (declaration tokens token (lower s)) as [[s1|s1]|e1] eqn:Hd;
      try contradiction.
    subst e1. eapply (declaration_thrown tokens Hended Hloc token (lower s));
      [exact Htok|exact Hpc|exact Hd].
  - unfold Second.declaration in H. rewrite Hst in H. inversion H.
    eapply lookup_locatable; eassumption.
Qed.

(** An iteration of the second parser throws syntax errors only, when
    the reference [namespace] is one of the namespaces. *)
Lemma second_step_thrown (s : Second.PState) (e : Error) :
  refs_ok [] (lower s) -> Second.i s < length tokens ->
  Second.step tokens s = Throw e -> syntax_or_range e.
Proof.
  intros Hrefs Hi H. unfold Second.step in H.
  apply lookup_lt_is_Some_2 in Hi as [token Htok].
  rewrite (at_index_Some _ _ _ Htok) in H. cbn [mbind result_bind] in H.
  pose proof (lookup_locatable tokens Hloc _ _ Htok) as Ltok.
  destruct (Second.state s).
  - unfold Second.step_Top in H.
    destruct (Token.isNamespace token) eqn:Hns.
    + destruct (negb _); [inversion H; apply Ltok|].
      destruct (next_token tokens Hended _ _ Htok) as [nx Hnx];
        [now apply namespace_not_marker|].
      rewrite (at_index_Some _ _ _ Hnx) in H. cbn [mbind result_bind] in H.
      destruct (negb _); [|discriminate].
      inversion H. eapply lookup_locatable; eassumption.
    + destruct (Token.eof token); [discriminate|]. inversion H. apply Ltok.
  - unfold Second.step_Namespace in H.
    destruct (Second.namespace s) as [n|] eqn:Hn; [|inversion H; apply Ltok].
    destruct (String.eqb (Token.val token) "}");
      [destruct (Second.decState s); discriminate|].
    destruct (Token.isIdentifier token) eqn:Hid.
    { destruct (next_token tokens Hended _ _ Htok) as [nx Hnx];
        [now apply identifier_not_marker|].
      rewrite (at_index_Some _ _ _ Hnx) in H. cbn [mbind result_bind] in H.
      destruct (String.eqb (Token.val nx) "=") eqn:Heq; cbn [negb] in H;
        [|inversion H; eapply lookup_locatable; eassumption].
      destruct (next_token tokens Hended _ _ Hnx) as [v Hv];
        [eapply eqb_not_marker; [exact Heq|discriminate]|].
      replace (Second.i s + 2) with (S (S (Second.i s))) in H by lia.
      rewrite (at_index_Some _ _ _ Hv) in H. cbn [mbind result_bind] in H.
      destruct (resolveValue v) as [value|e'] eqn:Ev; cbn [mbind result_bind] in H;
        [discriminate|].
      inversion H; subst. eapply resolveValue_thrown; [|exact Ev].
      eapply lookup_locatable; eassumption. }
    destruct (Token.isPage token) eqn:Hpg.
    { destruct (next_token tokens Hended _ _ Htok) as [nx Hnx];
        [now apply page_not_marker|].
      rewrite (at_index_Some _ _ _ Hnx) in H. cbn [mbind result_bind] in H.
      destruct (negb _); [inversion H; eapply lookup_locatable; eassumption|].
      destruct Hrefs as [_ Hnew _ _]. specialize (Hnew n Hn). cbn [lower namespaces] in Hnew.
      destruct (lookup_lt_is_Some_2 (Second.namespaces s) n) as [ns Hns]; [lia|].
      rewrite (at_index_Some _ _ _ Hns) in H. discriminate. }
    destruct (String.eqb (Token.val token) "%") eqn:Hpc.
    { eapply second_declaration_thrown; eassumption. }
    destruct (String.eqb (Token.val token) "{" && _); [discriminate|].
    destruct (Token.isNamespace token); [inversion H; apply Ltok|].
    destruct (Token.eof token); inversion H; apply Ltok.
  - unfold Second.step_Page in H.
    destruct (Second.page s) as [r|]; [|inversion H; apply Ltok].
    destruct (String.eqb (Token.val token) "}"); [discriminate|].
    destruct (Token.isIdentifier token) eqn:Hid.
    { destruct (next_token tokens Hended _ _ Htok) as [nx Hnx];
        [now apply identifier_not_marker|].
      rewrite (at_index_Some _ _ _ Hnx) in H. cbn [mbind result_bind] in H.
      destruct (String.eqb (Token.val nx) "=") eqn:Heq; cbn [negb] in H;
        [|inversion H; eapply lookup_locatable; eassumption].
      destruct (next_token tokens Hended _ _ Hnx) as [v Hv];
        [eapply eqb_not_marker; [exact Heq|discriminate]|].
      replace (Second.i s + 2) with (S (S (Second.i s))) in H by lia.
      rewrite (at_index_Some _ _ _ Hv) in H. cbn [mbind result_bind] in H.
      destruct (resolveValue v) as [value|e'] eqn:Ev; cbn [mbind result_bind] in H;
        [discriminate|].
      inversion H; subst. eapply resolveValue_thrown; [|exact Ev].
      eapply lookup_locatable; eassumption. }
    destruct (String.eqb (Token.val token) "@") eqn:Hat.
    { destruct (next_token tokens Hended _ _ Htok) as [t Ht];
        [eapply eqb_not_marker; [exact Hat|discriminate]|].
      rewrite (at_index_Some _ _ _ Ht) in H. cbn [mbind result_bind] in H.
      destruct (negb _); [|discriminate].
      inversion H. eapply lookup_locatable; eassumption. }
    destruct (Token.isNamespace token); [inversion H; apply Ltok|].
    destruct (Token.isPage token); inversion H; apply Ltok.
Qed.

(** An iteration of the second parser that goes on keeps the reference
    [namespace] among the namespaces, and these keep their names. *)
Lemma second_step_refs_ok (s s' : Second.PState) :
  refs_ok [] (lower s) -> Second.step tokens s = Ok (Second.Continue s') ->
  refs_ok [] (lower s').
Proof.
  intros Hrefs H. unfold Second.step in H. cbn [mbind result_bind] in H.
  destruct (at_index tokens (Second.i s)) as [token|] eqn:Htok; [|discriminate].
  destruct (Second.state s) eqn:Hst.
  - unfold Second.step_Top in H. second_split H. inversion H; subst; clear H.
    eapply refs_ok_opened; [exact Hrefs| |reflexivity..].
    simpl. destruct (JS.slice_1_m1 (Token.val token)); discriminate.
  - unfold Second.step_Namespace in H.
    destruct (Second.namespace s) as [n|] eqn:Hn; [|discriminate].
    assert (Hnew : 0 <= n < length (Second.namespaces s)).
    { apply (namespace_new [] (lower s) Hrefs n). exact Hn. }
    destruct (String.eqb (Token.val token) "%") eqn:Hpc.
    + second_split H.
      all: try (inversion H; subst; clear H;
                first [ solve [eapply refs_ok_kept; [exact Hrefs|cbn; auto..]]
                      | eapply (refs_ok_altered [] (lower s) _ _ n);
                        [exact Hrefs|simpl; lia| |cbn; reflexivity|cbn; congruence|cbn];
                        [intros []; reflexivity|]; intros; lia ]).
      destruct (Second.decState s) eqn:Hds;
        [|unfold Second.declaration in H; rewrite Hds in H; discriminate].
      pose proof (declaration_throws_same token s Hds) as Hsame. rewrite H in Hsame.
      destruct (declaration tokens token (lower s)) as [[s1|s1]|e1];
        try contradiction.
      destruct Hsame as (_ & _ & Hnss & Hns & Hpg).
      eapply refs_ok_kept; [exact Hrefs|cbn; auto..].
    + second_split H.
      all: inversion H; subst; clear H.
      all: try first [ solve [eapply refs_ok_kept; [exact Hrefs|cbn; auto..]]
                 | eapply (refs_ok_altered [] (lower s) _ _ n);
                   [exact Hrefs|simpl; lia| |cbn; reflexivity|cbn; congruence|cbn];
                   [intros []; reflexivity|] ].
      all: intros; lia.
  - unfold Second.step_Page in H.
    destruct (Second.page s) as [r|] eqn:Hr; [|discriminate].
    second_split H.
    all: inversion H; subst; clear H.
    all: first [ solve [eapply refs_ok_kept; [exact Hrefs|cbn; auto..]]
               | eapply (refs_ok_altered [] (lower s) _ _ r.1);
                 [exact Hrefs|simpl; lia|
                 |unfold update_page; cbn; reflexivity|cbn; congruence|cbn];
                 [intros []; reflexivity|] ].
    all: intros r' Hr'; simpl; lia.
Qed.

Lemma declaration_index (token : Token.t) (s s' : PState) :
  declaration tokens token s = Ok (Continue s') -> i s <= i s'.
Proof.
  unfold declaration. cbv zeta. intros H.
  destruct (at_index tokens (S (i s))) as [t1|]; [|discriminate].
  cbn [mbind result_bind] in H.
  set (i1 := if String.eqb (Token.val t1) "%" then S (S (i s)) else S (i s)) in *.
  destruct (at_index tokens i1) as [t2|]; [|discriminate].
  cbn [mbind result_bind] in H.
  set (i2 := if String.eqb (Token.val t2) "-" then S i1 else i1) in *.
  destruct (at_index tokens i2) as [t3|]; [|discriminate].
  cbn [mbind result_bind] in H.
  set (i3 := if String.eqb (Token.val t3) "!" then S i2 else i2) in *.
  assert (Hi3 : i s <= i3).
  { unfold i3, i2, i1.
    destruct (String.eqb (Token.val t1) "%"), (String.eqb (Token.val t2) "-"),
      (String.eqb (Token.val t3) "!"); lia. }
  destruct (at_index tokens i3) as [t4|]; [|discriminate].
  cbn [mbind result_bind] in H.
  destruct (negb (Token.isIdentifier t4)); [discriminate|].
  destruct (at_index tokens (S i3)) as [nx|]; [|discriminate].
  cbn [mbind result_bind] in H.
  destruct (String.eqb (Token.val nx) "<").
  - destruct (String.eqb (Token.val t2) "-"); [discriminate|].
    match type of H with
    | context [params ?r ?k ?d] => destruct (params r k d) as [[j d']|] eqn:Hp
    end; cbn [mbind result_bind] in H; [|discriminate].
    inversion H; subst; clear H. cbn [i].
    apply params_result in Hp as [_ Hp]. lia.
  - cbn [mbind result_bind] in H. inversion H; subst; clear H. cbn [i]. exact Hi3.
Qed.

(** The index does not go back. *)
Lemma second_step_index (s s' : Second.PState) :
  Second.step tokens s = Ok (Second.Continue s') -> Second.i s <= Second.i s'.
Proof.
  intros H. unfold Second.step in H. cbn [mbind result_bind] in H.
  destruct (at_index tokens (Second.i s)) as [token|] eqn:Htok; [|discriminate].
  destruct (Second.state s) eqn:Hst.
  - unfold Second.step_Top in H. second_split H.
    inversion H; subst; simpl; lia.
  - unfold Second.step_Namespace in H.
    destruct (String.eqb (Token.val token) "%") eqn:Hpc.
    + second_split H.
      all: try (inversion H; subst; clear H; simpl; lia).
      destruct (Second.decState s) eqn:Hds;
        [|unfold Second.declaration in H; rewrite Hds in H; discriminate].
      pose proof (declaration_throws_same token s Hds) as Hsame. rewrite H in Hsame.
      destruct (declaration tokens token (lower s)) as [[s1|s1]|e1] eqn:Hd;
        try contradiction.
      destruct Hsame as (Hi & _).
      apply declaration_index in Hd. cbn [lower i] in Hd. lia.
    + second_split H.
      all: inversion H; subst; clear H; simpl; lia.
  - unfold Second.step_Page in H. second_split H.
    all: inversion H; subst; clear H; simpl; lia.
Qed.

Lemma second_step_Break (s s' : Second.PState) :
  Second.step tokens s = Ok (Second.Break s') -> s' = s.
Proof.
  intros H. unfold Second.step in H. cbn [mbind result_bind] in H.
  destruct (at_index tokens (Second.i s)) as [token|] eqn:Htok; [|discriminate].
  destruct (Second.state s) eqn:Hst.
  - unfold Second.step_Top in H. second_split H. inversion H; reflexivity.
  - unfold Second.step_Namespace, Second.declaration in H. second_split H.
  - unfold Second.step_Page in H. second_split H.
Qed.

(** The loop of the second parser stops; what it returns are namespaces
    with a name, and what it throws is a syntax error or a
    [RangeError]. *)
Lemma second_loop_outcome (fuel : nat) :
  forall s : Second.PState,
    refs_ok [] (lower s) ->
    length tokens - Second.i s <= fuel ->
    exists r, Second.loop tokens fuel s = Some r
              /\ match r with
                 | Ok s' => refs_ok [] (lower s')
                 | Throw e => syntax_or_range e
                 end.
Proof.
  induction fuel as [|fuel IH]; intros s Hrefs Hfuel; cbn [Second.loop].
  - assert (H : (length tokens <=? Second.i s)%nat = true) by (apply Nat.leb_le; lia).
    rewrite H. eauto.
  - destruct (length tokens <=? Second.i s)%nat eqn:Hlen; [eauto|].
    apply Nat.leb_gt in Hlen.
    destruct (Second.step tokens s) as [[s1|s1]|e] eqn:E.
    + apply IH.
      * change (lower (Second.incr s1)) with (incr (lower s1)).
        apply incr_refs_ok. eapply second_step_refs_ok; eassumption.
      * apply second_step_index in E. cbn [Second.incr Second.i]. lia.
    + apply second_step_Break in E. subst s1. eauto.
    + eexists. split; [reflexivity|]. eapply second_step_thrown; eassumption.
Qed.

End SecondInRange.

(** X22.  The parser of the second version ends for every source.  It
    throws nothing but an error of [parseError] (a syntax error, or the
    [RangeError] of a caret line of negative length), since it reads no
    token behind the end marker; and the namespaces that it returns all
    have a name that is not empty. *)
Theorem second_parse_outcome (source : Source.t) :
  exists r,
    Second.parse source = Some r
    /\ match r with
       | Ok (nss, _) => Forall (fun ns => Namespace.name ns <> EmptyString) nss
       | Throw e => e = RangeError \/ exists d, e = SyntaxError d
       end.
Proof.
  assert (Hinit : refs_ok [] (lower Second.init_state)).
  { constructor; simpl; [reflexivity|discriminate|discriminate|constructor]. }
  destruct (second_loop_outcome (tokenize source) (tokenize_well_ended source)
              (tokenize_locatable source) (length (tokenize source))
              Second.init_state Hinit) as (r & Hr & Hout); [simpl; lia|].
  unfold Second.parse. rewrite Hr. destruct r as [s|e].
  - eexists. split; [reflexivity|]. cbn.
    apply (new_named [] (lower s) Hout).
  - eexists. split; [reflexivity|]. exact Hout.
Qed.

(** ** An invariant of the interface *)

Lemma frame_names (nss nss' : list Namespace.t) :
  frame nss' = frame nss -> map Namespace.name nss' = map Namespace.name nss.
Proof.
  unfold frame. revert nss'.
  induction nss as [|ns nss IH]; intros [|ns' nss']; simpl; try discriminate.
  - reflexivity.
  - intros H. inversion H. f_equal. now apply IH.
Qed.

(** X23.  Every document that calls of [add], [use] and [build] make of
    a new [Pages] object holds, in each page, pairwise distinct decorator
    objects, and all its namespaces have a name that is not empty.  This
    is for macro implementations that return objects of their own making
    (the stubs of the embedding), for libraries without an own member
    named [__proto__], and for calls of [build] that do not end with the
    characters of an inherited [toString] in a decorator list, where the
    list holds no decorator objects any more. *)
Theorem reachable_documents_are_well_formed (this : Pages.t) :
  reachable this ->
  pages_ok this
  /\ Forall (fun ns => Namespace.name ns <> EmptyString) (Pages.namespaces this).
Proof.
  induction 1 as [|this source props this' e _ [IHok IHnames] Hadd
                  |this decorators macros _ [IHok IHnames] _ _
                  |this _ [IHok IHnames] _].
  - split; [apply new_pages_ok|constructor].
  - split; [eapply add_pages_ok; eassumption|].
    destruct (add_outcome this source props) as (s & oe & Hadd' & Hrefs & _).
    rewrite Hadd in Hadd'. inversion Hadd'; subst. cbn [commit Pages.namespaces].
    rewrite <- (take_drop (length (Pages.namespaces this)) (namespaces s)).
    apply Forall_app. split.
    + rewrite (old_kept _ _ Hrefs). exact IHnames.
    + apply (new_named _ _ Hrefs).
  - split; [now apply use_pages_ok|exact IHnames].
  - split; [now apply build_pages_ok|].
    unfold build.
    destruct (build_namespaces _ _ _ _) as [[nss next] e] eqn:Hb.
    apply build_namespaces_frame in Hb as [Hf _]. cbn [fst Pages.namespaces].
    apply frame_names in Hf.
    apply Forall_forall. intros ns Hns.
    assert (Hin : Namespace.name ns ∈ map Namespace.name nss).
    { apply list_elem_of_fmap. eauto. }
    rewrite Hf in Hin. apply list_elem_of_fmap in Hin as (ns0 & -> & Hns0).
    rewrite Forall_forall in IHnames. now apply IHnames.
Qed.

(** X23, on the document of [(n){%a [p]{} %zz [q]{} %b [r]{}}] after a
    [build] that throws. *)
Lemma reachable_documents_are_well_formed_witness :
  reachable (build stop_sample).1
  /\ pages_ok (build stop_sample).1
  /\ Forall (fun ns => Namespace.name ns <> EmptyString)
       (Pages.namespaces (build stop_sample).1).
Proof.
  assert (H : reachable (build stop_sample).1).
  { apply reach_build; [|vm_compute; discriminate].
    apply reach_use; [|reflexivity..].
    exact (reach_add Pages.new _ None stop_parsed None reach_new stop_sample_parsed). }
  split; [exact H|].
  exact (reachable_documents_are_well_formed _ H).
Defined.

(** ** Groups in the second parser *)

Lemma map_alter {A B} (g : A -> B) (f : A -> A) (h : B -> B) (k : nat) (l : list A) :
  (forall a, g (f a) = h (g a)) -> map g (alter f k l) = alter h k (map g l).
Proof.
  intros Hf. revert k.
  induction l as [|a l IH]; intros [|k]; try reflexivity.
  - cbn. f_equal. apply Hf.
  - cbn. f_equal. apply IH.
Qed.

Lemma shape_alter_page (pg : Page.t) (n : nat) (nss : list Namespace.t) :
  shape (alter (fun ns => Namespace.set_pages (Namespace.pages ns ++ [pg]) ns) n nss)
  = alter (fun l => l ++ [Page.decorators pg]) n (shape nss).
Proof.
  unfold shape. apply map_alter. intros ns. simpl. apply map_app.
Qed.

Section Groups.
Variable tokens : list Token.t.

Ltac group_split H :=
  repeat (try unfold mbind, result_bind in H; cbv beta iota zeta in H;
          match type of H with
          | (match ?x with _ => _ end) = _ => destruct x eqn:?
          | _ => discriminate H
          end).

(** One iteration inside a group: the buffers stay, and so does the
    document, but for a page that is opened with the decorators of the
    group followed by the global ones. *)
Lemma group_step (s s1 : Second.PState) :
  Second.decState s = Second.DecState.Group ->
  Second.state s <> ParseState.Top ->
  Second.step tokens s = Ok (Second.Continue s1) ->
  Second.decState s1 = Second.DecState.Group ->
  Second.state s1 <> ParseState.Top
  /\ Second.namespace s1 = Second.namespace s
  /\ Second.decs s1 = Second.decs s
  /\ Second.globDecs s1 = Second.globDecs s
  /\ (shape (Second.namespaces s1) = shape (Second.namespaces s)
      \/ exists n,
           Second.namespace s = Some n
           /\ shape (Second.namespaces s1)
              = alter (fun l => l ++ [Second.decs s ++ Second.globDecs s]) n
                  (shape (Second.namespaces s))).
Proof.
  intros Hg Htop H Hg1. unfold Second.step in H. cbn [mbind result_bind] in H.
  destruct (at_index tokens (Second.i s)) as [token|] eqn:Htok; [|discriminate].
  destruct (Second.state s) eqn:Hst; [contradiction| |].
  - unfold Second.step_Namespace, Second.declaration in H. rewrite Hg in H.
    group_split H.
    all: inversion H; subst; clear H; cbn in Hg1 |- *; try discriminate.
    + repeat split; auto; try congruence. left.
      apply shape_alter_same. intros []; reflexivity.
    + repeat split; auto; try congruence. right. eexists. split; [reflexivity|].
      apply shape_alter_page.
    + repeat split; auto; congruence.
  - unfold Second.step_Page in H. group_split H.
    all: inversion H; subst; clear H; cbn in Hg1 |- *.
    all: repeat split; auto; try congruence; try discriminate.
    all: left; apply shape_update_page; intros []; reflexivity.
Qed.

Lemma group_run_head (s s' : Second.PState) :
  group_run tokens s s' ->
  Second.decState s = Second.DecState.Group /\ Second.state s <> ParseState.Top.
Proof. destruct 1; auto. Qed.

End Groups.

(** X24.  In the second parser the pages of a group all get the same
    decorators.  Along a run inside a group the buffers do not change (a
    [%] is refused there), and the document changes only by the pages
    that are opened in the namespace: each of them is appended with the
    decorators of the group followed by the global ones. *)
Theorem group_pages_share_decorators
  (tokens : list Token.t) (s s' : Second.PState) (n : nat) :
  group_run tokens s s' ->
  Second.namespace s = Some n ->
  Second.decs s' = Second.decs s
  /\ Second.globDecs s' = Second.globDecs s
  /\ exists k,
       shape (Second.namespaces s')
       = alter (fun l => l ++ replicate k (Second.decs s ++ Second.globDecs s)) n
           (shape (Second.namespaces s)).
Proof.
  induction 1 as [s Hg Htop|s s1 s2 Hg Htop Hstep Hrun IH]; intros Hn.
  - split; [reflexivity|]. split; [reflexivity|]. exists 0.
    symmetry. apply list_alter_id. intros l. simpl. apply app_nil_r.
  - destruct (group_run_head tokens _ _ Hrun) as [Hg1 _].
    destruct (group_step tokens s s1 Hg Htop Hstep Hg1)
      as (_ & Hns & Hdecs & Hglob & Hshape).
    destruct IH as (IH1 & IH2 & k & IH3); [cbn; congruence|].
    cbn [Second.incr Second.decs Second.globDecs Second.namespaces] in *.
    split; [congruence|]. split; [congruence|].
    rewrite Hdecs, Hglob in IH3.
    destruct Hshape as [Hsame|(n' & Hn' & Hadded)].
    + exists k. now rewrite IH3, Hsame.
    + assert (n' = n) as -> by congruence.
      exists (S k). rewrite IH3, Hadded, list_alter_alter_eq.
      apply list_alter_ext; [|reflexivity].
      intros l _. simpl. now rewrite <- app_assoc.
Qed.

Lemma group_sample :
  Some group_start = second_iterate group_tokens 3 Second.init_state
  /\ Some group_end = second_iterate group_tokens 7 Second.init_state.
Proof. split; vm_compute; reflexivity. Qed.

(** X24, on the sample [(n){%a {[p]{} [q]{}}}]: from the group's opening
    brace to its closing one, the pages [p] and [q] are appended, both
    with the decorator [a]. *)
Lemma group_pages_share_decorators_witness :
  group_run group_tokens group_start group_end
  /\ Second.namespace group_start = Some 0
  /\ Second.decs group_end = Second.decs group_start
  /\ Second.globDecs group_end = Second.globDecs group_start
  /\ exists k,
       shape (Second.namespaces group_end)
       = alter (fun l => l ++ replicate k (Second.decs group_start
                                           ++ Second.globDecs group_start)) 0
           (shape (Second.namespaces group_start)).
Proof.
  assert (H : group_run group_tokens group_start group_end).
  { eapply group_next; [reflexivity|discriminate|vm_compute; reflexivity|].
    eapply group_next; [reflexivity|discriminate|vm_compute; reflexivity|].
    eapply group_next; [reflexivity|discriminate|vm_compute; reflexivity|].
    eapply group_next; [reflexivity|discriminate|vm_compute; reflexivity|].
    apply group_refl; [reflexivity|discriminate]. }
  split; [exact H|]. split; [reflexivity|].
  exact (group_pages_share_decorators group_tokens group_start group_end 0 H eq_refl).
Defined.

(** ** The loop over a parameter list *)

Lemma string_is_no_word (t : Token.t) :
  Token.isString t = true ->
  String.eqb (Token.val t) ">" = false /\ Token.isIdentifier t = false.
Proof.
  unfold Token.isString, Token.isIdentifier. intros H.
  apply andb_true_iff in H as [H _].
  destruct (Token.val t) as [|a r]; [discriminate|]. simpl in H.
  apply Ascii.eqb_eq in H. subst a. split; [reflexivity|].
  unfold JS.is_identifier. destruct r; reflexivity.
Qed.

Lemma identifier_is_no_closing (t : Token.t) :
  Token.isIdentifier t = true -> String.eqb (Token.val t) ">" = false.
Proof.
  unfold Token.isIdentifier. intros H. apply String.eqb_neq. intros E.
  rewrite E in H. discriminate.
Qed.

Lemma resolveValue_string (t : Token.t) :
  Token.isString t = true -> Token.eof t = false ->
  resolveValue t = Ok (JS.VStr (JS.slice_1_m1 (Token.val t))).
Proof. unfold resolveValue. now intros -> ->. Qed.

(** X25.  The loop over a parameter list, on parameters that are string
    values, named or not, followed by [>]: the parameters are applied to
    the decorator in the order in which they are written (a value is
    appended to [args], a named one is assigned to [props]), and the loop
    stops at the index of the [>], whatever follows it. *)
Theorem params_apply_in_order
  (items : list param_item) (gt : Token.t) (rest : list Token.t)
  (k : nat) (dec : Dec.t) :
  forallb item_ok items = true ->
  Token.val gt = ">" ->
  params (flat_map item_tokens items ++ gt :: rest) k dec
  = Ok (S (k + length (flat_map item_tokens items)), fold_left apply_item items dec).
Proof.
  intros Hok Hgt. revert k dec.
  induction items as [|p items IH]; intros k dec.
  - cbn [flat_map app length fold_left params]. rewrite Hgt, Nat.add_0_r.
    reflexivity.
  - cbn [forallb] in Hok. apply andb_true_iff in Hok as [Hp Hok].
    specialize (IH Hok). destruct p as [v|name eq v]; cbn [item_ok] in Hp.
    + apply andb_true_iff in Hp as [Hs He]. apply negb_true_iff in He.
      destruct (string_is_no_word v Hs) as [Hn1 Hn2].
      cbn [flat_map item_tokens app fold_left apply_item params].
      rewrite Hn1, Hn2, (resolveValue_string v Hs He). cbn [mbind result_bind].
      rewrite IH. cbn [length]. rewrite Nat.add_succ_r. reflexivity.
    + apply andb_true_iff in Hp as [Hp He]. apply negb_true_iff in He.
      apply andb_true_iff in Hp as [Hp Hs].
      apply andb_true_iff in Hp as [Hid Heq].
      cbn [flat_map item_tokens app fold_left apply_item params].
      rewrite (identifier_is_no_closing name Hid), Hid, Heq. cbn [negb].
      rewrite (resolveValue_string v Hs He). cbn [mbind result_bind].
      rewrite IH. cbn [length]. do 2 f_equal. lia.
Qed.

(** X25, for the parameters of [%d<"a" k="v" "b">]. *)
Lemma params_apply_in_order_witness :
  let s := Source.mk "(input)" EmptyString in
  let str w := Token.new 0 0 (String JS.dq (w ++ JS.chr JS.dq)) s in
  let items := [Positional (str "a");
                Named (Token.new 0 0 "k" s) (Token.new 0 0 "=" s) (str "v");
                Positional (str "b")] in
  let dec := Dec.mk 0 (Loc.mk s 0 0 1) "d" ∅ [] in
  params (flat_map item_tokens items ++ Token.new 0 0 ">" s :: []) 2 dec
  = Ok (8, fold_left apply_item items dec)
  /\ Dec.args (fold_left apply_item items dec) = [JS.VStr "a"; JS.VStr "b"]
  /\ Dec.props (fold_left apply_item items dec) !! "k" = Some (JS.VStr "v").
Proof.
  intros s str items dec. split; [|split; vm_compute; reflexivity].
  exact (params_apply_in_order items (Token.new 0 0 ">" s) [] 2 dec eq_refl eq_refl).
Defined.

(** ** A block that is not closed *)

(** X26.  A block that is not closed takes the rest of the source: when
    the text after an opening character holds no closing one, the source
    is one token with that text, whatever it holds, and this token is
    no namespace header, no page header and, unless it is a lone double
    quote, no string. *)
Theorem unclosed_block_swallows_rest (name : string) (o c : ascii) (w : string) :
  Tokenizer.closer (JS.chr o) = Some c ->
  JS.all_chars (fun a => negb (Ascii.eqb a c)) w = true ->
  let source := Source.mk name (String o w) in
  exists tok col row,
    tokenize source = [tok; Token.new_EOF col row source]
    /\ Token.val tok = String o w
    /\ Token.isNamespace tok = false /\ Token.isPage tok = false
    /\ (w <> EmptyString -> Token.isString tok = false).
Proof.
  intros Hoc Hw source.
  destruct (closer_opener o c Hoc) as [Hop Hsp].
  set (x1 := Tokenizer.step source Tokenizer.init o).
  assert (H1 : Tokenizer.tokens x1 = [] /\ Tokenizer.t x1 = JS.chr o).
  { unfold x1, Tokenizer.step. cbn [Tokenizer.init Tokenizer.t Tokenizer.closer
      JS.startsWith]. rewrite Hop, Hsp. destruct (Ascii.eqb o JS.lf); split; reflexivity. }
  destruct H1 as [Htok1 Ht1].
  destruct (scan_inside_block source c w x1) as [Htok2 Ht2]; [now rewrite Ht1|exact Hw|].
  assert (Hscan : Tokenizer.scan source (String o w) Tokenizer.init
                  = Tokenizer.scan source w x1) by reflexivity.
  assert (Hend : forall a r, w = String a r -> JS.endsWith w c = false).
  { clear - Hw. induction w as [|b w IH]; [discriminate|]. intros a r _.
    cbn [JS.all_chars] in Hw. apply andb_true_iff in Hw as [Hb Hw].
    apply negb_true_iff in Hb. cbn [JS.endsWith].
    destruct w as [|b' w']; [exact Hb|]. eapply IH; [exact Hw|reflexivity]. }
  set (x2 := Tokenizer.scan source w x1) in *.
  assert (Hpush : Tokenizer.pushtoken source EmptyString x2
                  = Tokenizer.mk [Token.new (Tokenizer.col x2 - Z.max 0 (JS.len (String o w) - 1))
                                    (Tokenizer.row x2) (String o w) source]
                      EmptyString (Tokenizer.col x2) (Tokenizer.row x2)).
  { unfold Tokenizer.pushtoken. rewrite Ht2, Ht1.
    change (JS.nonempty (JS.chr o ++ w)) with true. cbv iota.
    unfold Tokenizer.pushtk. rewrite Ht2, Ht1, Htok2, Htok1.
    cbn [Tokenizer.tokens Tokenizer.col Tokenizer.row app].
    change (JS.chr o ++ w)%string with (String o w).
    now rewrite string_app_nil_r. }
  eexists _, _, _. unfold tokenize. cbn [Source.body source]. rewrite Hscan, Hpush.
  cbn [Tokenizer.tokens Tokenizer.col Tokenizer.row app].
  split; [reflexivity|]. split; [reflexivity|].
  unfold Token.isNamespace, Token.isPage, Token.isString.
  cbn [Token.val Token.new JS.startsWith].
  assert (Hcases : (o = JS.dq /\ c = JS.dq) \/ (o = "["%char /\ c = "]"%char)
                   \/ (o = "("%char /\ c = ")"%char)).
  { revert Hoc. unfold Tokenizer.closer, JS.chr, JS.startsWith.
    destruct (Ascii.eqb o JS.dq) eqn:E1.
    { apply Ascii.eqb_eq in E1. intros [= <-]. auto. }
    destruct (Ascii.eqb o "[") eqn:E2.
    { apply Ascii.eqb_eq in E2. intros [= <-]. auto. }
    destruct (Ascii.eqb o "(") eqn:E3; [|discriminate].
    apply Ascii.eqb_eq in E3. intros [= <-]. auto. }
  assert (Hlast : forall d, JS.endsWith (String o w) d
                            = match w with
                              | EmptyString => Ascii.eqb o d
                              | _ => JS.endsWith w d
                              end).
  { intros d. destruct w; reflexivity. }
  rewrite !Hlast.
  destruct Hcases as [[-> ->]|[[-> ->]|[-> ->]]].
  - split; [reflexivity|]. split; [reflexivity|].
    intros Hne. destruct w as [|a r]; [contradiction|].
    rewrite (Hend a r eq_refl). apply andb_false_r.
  - split; [reflexivity|]. split; [|intros _; reflexivity].
    destruct w as [|a r]; [reflexivity|]. rewrite (Hend a r eq_refl). reflexivity.
  - split; [|split; [reflexivity|intros _; reflexivity]].
    destruct w as [|a r]; [reflexivity|]. rewrite (Hend a r eq_refl). reflexivity.
Qed.

(** X26, for a string that is not closed before the braces that were to
    close the page and the namespace. *)
Lemma unclosed_block_swallows_rest_witness :
  let source := Source.mk "(input)" (String JS.dq "x}}") in
  exists tok col row,
    tokenize source = [tok; Token.new_EOF col row source]
    /\ Token.val tok = String JS.dq "x}}"
    /\ Token.isNamespace tok = false /\ Token.isPage tok = false
    /\ ("x}}" <> EmptyString -> Token.isString tok = false).
Proof.
  exact (unclosed_block_swallows_rest "(input)" JS.dq JS.dq "x}}" eq_refl eq_refl).
Defined.
